(** * Audio-reactive visualizer: shallow embedding of [index.html]

    The development follows the [Visualizer] class of the repository:
    the band extraction of [updateShadersVisualizer] / [updateVisualizer],
    the beat detector [detectBeats], the particle pool of [emitParticles] /
    [updateWaveVisualizer], and the style controller
    ([setupControls], [createVisualizer], [clearScene], the [create*]
    constructors).

    Numbers.  In the audio path (band extraction, beat detector, bars,
    camera) JavaScript numbers are rationals extended with [NaN] and the two
    infinities, and the arithmetic is exact: what is proved there are
    bounds, firings and counts.  In the particle engine and in the
    treadmill of the towers every operation is rounded as the program
    rounds it: to the nearest double ([Float.double]), and to the nearest
    single-precision number on every store into a [Float32Array]
    ([Float.fround]), ties to even, with gradual underflow.  Overflow to an
    infinity and the sign of zero are not modelled.  Typed arrays
    ([Uint8Array], [Float32Array]) are lists: a read out of range yields
    [undefined], a write out of range is dropped. *)

From Stdlib Require Import QArith Qround Qminmax Qpower Lqa ZArith Lia List String.
From Stdlib.Strings Require Import Byte.
From stdpp Require Import base list gmap.

Open Scope Q_scope.

(** ** JavaScript numbers *)

Module JsNum.

Inductive jsnum : Type :=
| Fin (q : Q)
| PInf
| NInf
| NaN.

Definition Qltb (x y : Q) : bool := negb (Qle_bool y x).

Definition neg (a : jsnum) : jsnum :=
  match a with
  | Fin x => Fin (- x)
  | PInf => NInf
  | NInf => PInf
  | NaN => NaN
  end.

Definition add (a b : jsnum) : jsnum :=
  match a, b with
  | NaN, _ | _, NaN => NaN
  | Fin x, Fin y => Fin (x + y)
  | PInf, NInf | NInf, PInf => NaN
  | PInf, _ | _, PInf => PInf
  | NInf, _ | _, NInf => NInf
  end.

Definition sub (a b : jsnum) : jsnum := add a (neg b).

(** The infinity carrying the sign of a non-zero rational. *)
Definition inf_of_sign (x : Q) : jsnum :=
  if Qltb 0 x then PInf else NInf.

Definition mul (a b : jsnum) : jsnum :=
  match a, b with
  | NaN, _ | _, NaN => NaN
  | Fin x, Fin y => Fin (x * y)
  | Fin x, PInf | PInf, Fin x =>
      if Qeq_bool x 0 then NaN else inf_of_sign x
  | Fin x, NInf | NInf, Fin x =>
      if Qeq_bool x 0 then NaN else inf_of_sign (- x)
  | PInf, PInf | NInf, NInf => PInf
  | PInf, NInf | NInf, PInf => NInf
  end.

(** [a / b]: a zero divisor gives [NaN] for [0 / 0] and an infinity
    otherwise. *)
Definition div (a b : jsnum) : jsnum :=
  match a, b with
  | NaN, _ | _, NaN => NaN
  | Fin x, Fin y =>
      if Qeq_bool y 0
      then (if Qeq_bool x 0 then NaN else inf_of_sign x)
      else Fin (x / y)
  | Fin _, (PInf | NInf) => Fin 0
  | (PInf | NInf), (PInf | NInf) => NaN
  | PInf, Fin y => if Qltb y 0 then NInf else PInf
  | NInf, Fin y => if Qltb y 0 then PInf else NInf
  end.

(** [a < b]; every comparison with [NaN] is false. *)
Definition lt (a b : jsnum) : bool :=
  match a, b with
  | NaN, _ | _, NaN => false
  | Fin x, Fin y => Qltb x y
  | _, NInf => false
  | NInf, _ => true
  | PInf, _ => false
  | Fin _, PInf => true
  end.

Definition gt (a b : jsnum) : bool := lt b a.

(** [Math.min(a, b)]. *)
Definition min (a b : jsnum) : jsnum :=
  match a, b with
  | NaN, _ | _, NaN => NaN
  | _, _ => if lt b a then b else a
  end.

(** Truthiness of a number: [0] and [NaN] are falsy. *)
Definition truthy (a : jsnum) : bool :=
  match a with
  | Fin x => negb (Qeq_bool x 0)
  | PInf | NInf => true
  | NaN => false
  end.

(** [a || b] on numbers. *)
Definition or (a b : jsnum) : jsnum := if truthy a then a else b.

(** Equality of numbers up to the representation of the rational. *)
Definition eqv (a b : jsnum) : Prop :=
  match a, b with
  | Fin x, Fin y => x == y
  | PInf, PInf | NInf, NInf | NaN, NaN => True
  | _, _ => False
  end.

(** A finite number inside the closed unit interval. *)
Definition in_unit (a : jsnum) : Prop :=
  match a with
  | Fin x => 0 <= x <= 1
  | _ => False
  end.

Definition is_zero (a : jsnum) : Prop := eqv a (Fin 0).

End JsNum.

Import JsNum.

(** ** Rounding of binary floating-point numbers *)

Module Float.

(** [floor (log2 x)] of a positive rational. *)
Definition ilog2 (x : Q) : Z :=
  let e := (Z.log2 (Qnum x) - Z.log2 (Zpos (Qden x)))%Z in
  if Qle_bool (2 ^ e) x then e else (e - 1)%Z.

(** The integer nearest to [x]; of two integers at the same distance,
    the even one. *)
Definition nearestEven (x : Q) : Z :=
  let f := Qfloor x in
  let r := x - inject_Z f in
  if Qltb r (1 # 2) then f
  else if Qltb (1 # 2) r then (f + 1)%Z
  else if Z.even f then f else (f + 1)%Z.

(** The exponent of the unit in the last place of a positive [a], in a
    binary format with a significand of [prec] bits whose subnormal
    numbers are the multiples of [2 ^ emin]. *)
Definition ulpExponent (prec emin : Z) (a : Q) : Z :=
  Z.max (ilog2 a - (prec - 1)) emin.

(** The number of the format nearest to a positive [a]. *)
Definition roundPos (prec emin : Z) (a : Q) : Q :=
  let e := ulpExponent prec emin a in
  inject_Z (nearestEven (a / 2 ^ e)) * 2 ^ e.

(** Rounding to nearest, ties to even; the result is a fraction in
    lowest terms. *)
Definition roundTo (prec emin : Z) (x : Q) : Q :=
  let x := Qred x in
  if Qeq_bool x 0 then 0
  else if Qltb x 0 then Qred (- roundPos prec emin (- x))
  else Qred (roundPos prec emin x).

(** The value of an arithmetic operation on numbers: binary64. *)
Definition double : Q -> Q := roundTo 53 (-1074).

(** [Math.fround], and what a store into a [Float32Array] keeps:
    binary32. *)
Definition fround : Q -> Q := roundTo 24 (-149).

End Float.

(** ** Band extraction *)

Module Bands.

(** [this.audioDataArray[i] / 255]: a byte normalised to the unit interval. *)
Definition normalized (b : byte) : Q :=
  inject_Z (Z.of_N (Byte.to_N b)) / 255.

(** The four accumulators of the loop in [updateShadersVisualizer]. *)
Record acc : Type := mkAcc {
  lowFreq : Q;
  midFreq : Q;
  highFreq : Q;
  overall : Q
}.

(** One pass of [for (let i = 0; i < audioDataArray.length; i++)], started
    at index [i] on the remaining bins. *)
Fixpoint shaderLoop (lowMidBound midHighBound : Z) (i : Z)
         (data : list byte) (a : acc) : acc :=
  match data with
  | [] => a
  | b :: rest =>
      let n := normalized b in
      let a' :=
        if (i <? lowMidBound)%Z then
          mkAcc (lowFreq a + n) (midFreq a) (highFreq a) (overall a + n)
        else if (i <? midHighBound)%Z then
          mkAcc (lowFreq a) (midFreq a + n) (highFreq a) (overall a + n)
        else
          mkAcc (lowFreq a) (midFreq a) (highFreq a + n) (overall a + n)
      in
      shaderLoop lowMidBound midHighBound (i + 1) rest a'
  end.

(** Band levels, raw or smoothed. *)
Record levels : Type := mkLevels {
  low : jsnum;
  mid : jsnum;
  high : jsnum;
  level : jsnum
}.

Definition len (data : list byte) : Z := Z.of_nat (length data).

(** The 0.2 / 0.6 partition of [updateShadersVisualizer], up to the
    normalisation of the four sums. *)
Definition shaderRaw (data : list byte) : levels :=
  let lowMidBound := Qfloor (inject_Z (len data) * 0.2) in
  let midHighBound := Qfloor (inject_Z (len data) * 0.6) in
  let a := shaderLoop lowMidBound midHighBound 0 data (mkAcc 0 0 0 0) in
  mkLevels
    (div (Fin (lowFreq a)) (Fin (inject_Z lowMidBound)))
    (div (Fin (midFreq a)) (Fin (inject_Z (midHighBound - lowMidBound))))
    (div (Fin (highFreq a)) (Fin (inject_Z (len data - midHighBound))))
    (div (Fin (overall a)) (Fin (inject_Z (len data)))).

Definition smoothingFactor : Q := 0.1.

(** [s = s || raw; s += (raw - s) * smoothingFactor]. *)
Definition smooth (s raw : jsnum) : jsnum :=
  let s0 := or s raw in
  add s0 (mul (sub raw s0) (Fin smoothingFactor)).

(** The smoothed fields [lowFreqSmoothed], [midFreqSmoothed],
    [highFreqSmoothed], [overallSmoothed] after one frame on [data], past
    the two guards at the head of [updateShadersVisualizer]. *)
Definition shaderSmoothed (prev : levels) (data : list byte) : levels :=
  let r := shaderRaw data in
  mkLevels (smooth (low prev) (low r)) (smooth (mid prev) (mid r))
           (smooth (high prev) (high r)) (smooth (level prev) (level r)).

(** The state [clearScene] leaves in the four smoothed fields. *)
Definition zeroLevels : levels := mkLevels (Fin 0) (Fin 0) (Fin 0) (Fin 0).

(** The three accumulators of the loop in [updateVisualizer]. *)
Record gacc : Type := mkGacc {
  averageLevel : Q;
  lowFreqAvg : Q;
  highFreqAvg : Q
}.

Fixpoint generalLoop (lowFreqCutoff highFreqStart : Z) (i : Z)
         (data : list byte) (a : gacc) : gacc :=
  match data with
  | [] => a
  | b :: rest =>
      let lv := normalized b in
      let a' :=
        if (i <? lowFreqCutoff)%Z then
          mkGacc (averageLevel a + lv) (lowFreqAvg a + lv) (highFreqAvg a)
        else if (highFreqStart <=? i)%Z then
          mkGacc (averageLevel a + lv) (lowFreqAvg a) (highFreqAvg a + lv)
        else
          mkGacc (averageLevel a + lv) (lowFreqAvg a) (highFreqAvg a)
      in
      generalLoop lowFreqCutoff highFreqStart (i + 1) rest a'
  end.

(** The levels [updateVisualizer] computes: [averageLevel], [lowFreqAvg]
    and [highFreqAvg]; the middle third has no mean of its own. *)
Record glevels : Type := mkGlevels {
  gAverage : jsnum;
  gLow : jsnum;
  gHigh : jsnum
}.

(** The 1/3 - 2/3 partition of [updateVisualizer]. *)
Definition generalRaw (data : list byte) : glevels :=
  let lowFreqCutoff := Qfloor (inject_Z (len data) / 3) in
  let highFreqStart := Qfloor (inject_Z (len data) * 2 / 3) in
  let a := generalLoop lowFreqCutoff highFreqStart 0 data (mkGacc 0 0 0) in
  mkGlevels
    (div (Fin (averageLevel a)) (Fin (inject_Z (len data))))
    (div (Fin (lowFreqAvg a)) (Fin (inject_Z lowFreqCutoff)))
    (div (Fin (highFreqAvg a)) (Fin (inject_Z (len data - highFreqStart)))).


(** The number of indices of [[i, i + n)] that fall in the low, middle and
    high band of a partition with bounds [lm] and [mh]. *)
Definition cntLow (lm i n : Z) : Z := Z.max 0 (Z.min (i + n) lm - i).

Definition cntMid (lm mh i n : Z) : Z :=
  Z.max 0 (Z.min (i + n) mh - Z.max i lm).

Definition cntHigh (lm mh i n : Z) : Z :=
  Z.max 0 (i + n - Z.max i (Z.max lm mh)).

(** Predicates on the reported levels. *)
Definition levels_in_unit (l : levels) : Prop :=
  in_unit (low l) /\ in_unit (mid l) /\ in_unit (high l) /\ in_unit (level l).

Definition levels_zero (l : levels) : Prop :=
  is_zero (low l) /\ is_zero (mid l) /\ is_zero (high l) /\ is_zero (level l).

Definition glevels_in_unit (g : glevels) : Prop :=
  in_unit (gAverage g) /\ in_unit (gLow g) /\ in_unit (gHigh g).

Definition glevels_zero (g : glevels) : Prop :=
  is_zero (gAverage g) /\ is_zero (gLow g) /\ is_zero (gHigh g).

(** A silent snapshot: every bin is the zero byte. *)
Definition silent (data : list byte) : Prop := Forall (fun b => b = x00) data.

End Bands.

(** ** Beat detection *)

Module Beat.

(** [this.beatDetectionVars]. Clock readings and the two constants are
    finite; the energies come out of divisions and are [jsnum]s. *)
Record beatDetectionVars : Type := mkBeat {
  energyHistory : list jsnum;
  beatThreshold : Q;
  lastBeatTime : Q;
  beatHoldTime : Q;
  bassEnergy : jsnum;
  trebleEnergy : jsnum;
  bassBeat : jsnum;
  trebleBeat : jsnum;
  emitCooldown : Q
}.

(** The value [createWaveVisualizer] stores in [beatDetectionVars]. *)
Definition initialBeat : beatDetectionVars :=
  mkBeat (repeat (Fin 0) 30) 1.5 0 0.2 (Fin 0) (Fin 0) (Fin 0) (Fin 0) 0.

(** [for (...) energy += freqData[i] / 255.0] over a run of bins. *)
Definition sumBins (bins : list byte) : Q :=
  fold_left (fun e b => e + Bands.normalized b) bins 0.

(** Mean energy of the first 20% of the bins. *)
Definition rawBass (freqData : list byte) : jsnum :=
  let bassRange := Qfloor (inject_Z (Bands.len freqData) * 0.2) in
  div (Fin (sumBins (take (Z.to_nat bassRange) freqData)))
      (Fin (inject_Z bassRange)).

(** Mean energy of the last 40% of the bins. *)
Definition rawTreble (freqData : list byte) : jsnum :=
  let trebleStart := Qfloor (inject_Z (Bands.len freqData) * 0.6) in
  div (Fin (sumBins (drop (Z.to_nat trebleStart) freqData)))
      (Fin (inject_Z (Bands.len freqData - trebleStart))).

(** [energyHistory.push(e); if (energyHistory.length > 30) energyHistory.shift()]. *)
Definition pushEnergy (history : list jsnum) (e : jsnum) : list jsnum :=
  let h := history ++ [e] in
  if (30 <? length h)%nat then tail h else h.

(** [history.length], the divisor of the average below. *)
Definition averageDivisor (history : list jsnum) : Q :=
  inject_Z (Z.of_nat (length history)).

(** [history.reduce((sum, val) => sum + val, 0) / history.length]. *)
Definition averageEnergy (history : list jsnum) : jsnum :=
  div (fold_left add history (Fin 0)) (Fin (averageDivisor history)).

(** The test guarding the "trigger new beat" branch, evaluated on the
    history that already holds the current energy. *)
Definition bassBeatFires (beat : beatDetectionVars) (history : list jsnum)
           (energy : jsnum) (currentTime : Q) : bool :=
  gt energy (mul (averageEnergy history) (Fin (beatThreshold beat)))
  && Qltb (beatHoldTime beat) (currentTime - lastBeatTime beat).

Section Detect.

(** [Math.pow] on finite arguments. *)
Variable pow : Q -> Q -> Q.

(** [detectBeats(freqData, deltaTime)]; [currentTime] is the reading of
    [this.clock.getElapsedTime()] taken inside the call. *)
Definition detectBeats (freqData : list byte) (deltaTime currentTime : Q)
           (beat : beatDetectionVars) : beatDetectionVars :=
  let bass := rawBass freqData in
  let treble := rawTreble freqData in
  let bassEnergy' := add (mul (bassEnergy beat) (Fin 0.9)) (mul bass (Fin 0.1)) in
  let trebleEnergy' :=
    add (mul (trebleEnergy beat) (Fin 0.9)) (mul treble (Fin 0.1)) in
  let history := pushEnergy (energyHistory beat) bass in
  let fires := bassBeatFires beat history bass currentTime in
  let lastBeatTime' := if fires then currentTime else lastBeatTime beat in
  let bassBeat' :=
    if fires then min (mul bass (Fin 2.0)) (Fin 1.0)
    else mul (bassBeat beat) (Fin (pow 0.7 (deltaTime * 10))) in
  let trebleBeat' :=
    if gt treble (mul trebleEnergy' (Fin 1.3))
    then min (mul treble (Fin 1.5)) (Fin 1.0)
    else mul (trebleBeat beat) (Fin (pow 0.5 (deltaTime * 15))) in
  mkBeat history (beatThreshold beat) lastBeatTime' (beatHoldTime beat)
         bassEnergy' trebleEnergy' bassBeat' trebleBeat' (emitCooldown beat).

(** Whether the call above takes the "trigger new beat" branch. *)
Definition firesOn (freqData : list byte) (currentTime : Q)
           (beat : beatDetectionVars) : bool :=
  bassBeatFires beat (pushEnergy (energyHistory beat) (rawBass freqData))
                (rawBass freqData) currentTime.

(** One tick of the detector: the spectrum, the frame time and the
    clock reading. *)
Record tick : Type := mkTick {
  tickData : list byte;
  tickDelta : Q;
  tickTime : Q
}.

Definition step (beat : beatDetectionVars) (t : tick) : beatDetectionVars :=
  detectBeats (tickData t) (tickDelta t) (tickTime t) beat.

(** The detector after a sequence of ticks. *)
Definition run (ticks : list tick) (beat : beatDetectionVars)
  : beatDetectionVars :=
  fold_left step ticks beat.

(** For each tick of a sequence, its clock reading and whether the bass
    beat fired on it. *)
Fixpoint firings (ticks : list tick) (beat : beatDetectionVars)
  : list (Q * bool) :=
  match ticks with
  | [] => []
  | t :: rest =>
      (tickTime t, firesOn (tickData t) (tickTime t) beat)
        :: firings rest (step beat t)
  end.

End Detect.

(** A 128-bin spectrum whose first 26 bins are saturated: a bass spike. *)
Definition bassSpike : list byte := repeat xff 26 ++ repeat x00 102.

End Beat.

(** ** The particle engine *)

Module Particles.

Import Float.

Record vec3 : Type := mkVec { vx : Q; vy : Q; vz : Q }.

(** [v.multiplyScalar(k)]. *)
Definition multiplyScalar (v : vec3) (k : Q) : vec3 :=
  mkVec (double (vx v * k)) (double (vy v * k)) (double (vz v * k)).

(** An entry of [this.waveParticles]. *)
Record particle : Type := mkParticle {
  velocity : vec3;
  initialSize : Q;
  frameInteractions : nat
}.

(** An exhibition frame: [frame.position] and the [width] and [height]
    of [frame.geometry.parameters]. *)
Record frame : Type := mkFrame {
  framePosition : vec3;
  frameWidth : Q;
  frameHeight : Q
}.

(** The fields of the visualizer the particle system lives in.
    [waveParticles] is a sparse array; [particleLifetimes], [positions],
    [colors] and [sizes] are the [Float32Array]s, so every store into
    them goes through [fround]; [time] is
    [waveMaterial.uniforms.time.value]; [draws] counts the calls of
    [Math.random] made so far. *)
Record engine : Type := mkEngine {
  waveParticles : gmap nat particle;
  particleCount : nat;
  maxParticles : nat;
  emissionRate : Q;
  particleLifespan : Q;
  exhibitionFrames : list frame;
  particleLifetimes : list Q;
  positions : list Q;
  colors : list Q;
  sizes : list Q;
  time : Q;
  draws : nat
}.

(** [createExhibitionFrames]: three frames, shrinking and 30 apart. *)
Definition createExhibitionFrames : list frame :=
  map (fun i : Z =>
         mkFrame (mkVec 0 15 (-50 + inject_Z i * 30))
                 (80 - inject_Z i * 15) (40 - inject_Z i * 7))
      [0; 1; 2]%Z.

(** The particle system [createWaveVisualizer] builds: every slot
    inactive, with lifetime [-1] and size [0]. *)
Definition createWaveVisualizer : engine :=
  let maxParticles := 3000%nat in
  mkEngine ∅ 0 maxParticles 30 3.0 createExhibitionFrames
           (repeat (-1) maxParticles)
           (repeat 0 (maxParticles * 3))
           (repeat 0 (maxParticles * 3))
           (repeat 0 maxParticles)
           0 0.

(** [x % 1.0]: the remainder takes the sign of [x]; the remainder of a
    double is a double, so there is nothing to round. *)
Definition mod1 (x : Q) : Q :=
  x - inject_Z (if Qltb x 0 then Qceiling x else Qfloor x).

(** The scan [for (let j = 0; j < this.maxParticles; j++)] for a slot
    with [particleLifetimes[j] < 0], resumed at slot [j]; past the end of
    the array the test reads [undefined] and fails. *)
Fixpoint findFreeFrom (lifetimes : list Q) (j bound : nat) : option nat :=
  match lifetimes with
  | [] => None
  | l :: rest =>
      if (j <? bound)%nat then
        if Qltb l 0 then Some j else findFreeFrom rest (S j) bound
      else None
  end.

Definition findFree (s : engine) : option nat :=
  findFreeFrom (particleLifetimes s) 0 (maxParticles s).

(** A slot is active when its remaining lifetime is not negative. *)
Definition isActive (l : Q) : bool := negb (Qltb l 0).

Definition activeCount (lifetimes : list Q) : nat :=
  length (List.filter isActive lifetimes).

Definition freeCount (lifetimes : list Q) : nat :=
  length (List.filter (fun l => Qltb l 0) lifetimes).

(** The emission of the specification: walk the pool in slot order and
    give the first [n] inactive slots the lifetime [lifespan]. *)
Fixpoint activateFirst (n : nat) (lifespan : Q) (lifetimes : list Q)
  : list Q :=
  match lifetimes with
  | [] => []
  | l :: rest =>
      match n with
      | O => l :: rest
      | S n' =>
          if Qltb l 0 then lifespan :: activateFirst n' lifespan rest
          else l :: activateFirst n lifespan rest
      end
  end.

(** The pool as [createWaveVisualizer] allocates it. *)
Definition pool_ok (s : engine) : Prop :=
  length (particleLifetimes s) = maxParticles s /\ 0 <= particleLifespan s.

(** The size computation at the end of the particle loop of
    [updateWaveVisualizer]; the literals [0.1], [0.9] and [0.2] are the
    doubles nearest to them. *)
Definition sizeFactor (p : particle) : Q :=
  if (0 <? frameInteractions p)%nat
  then double (1.0 + double (inject_Z (Z.of_nat (frameInteractions p))
                             * double 0.1))
  else 1.0.

Definition fadeIn (lifeFactor : Q) : Q :=
  if Qltb lifeFactor (double 0.9) then double (lifeFactor / double 0.9)
  else 1.0.

Definition fadeOut (lifeFactor : Q) : Q :=
  if Qltb lifeFactor (double 0.2) then double (lifeFactor / double 0.2)
  else 1.0.

(** [initialSize * sizeFactor * fadeIn * fadeOut], multiplied from the
    left. *)
Definition renderedSize (p : particle) (lifeFactor : Q) : Q :=
  double (double (double (initialSize p * sizeFactor p)
                  * fadeIn lifeFactor)
          * fadeOut lifeFactor).

(** A read of a [Float32Array] at an index inside the array. *)
Definition rd (a : list Q) (k : nat) : Q := default 0 (a !! k).

Section Engine.

(** The stream of [Math.random()] results, [Math.cos], [Math.sin],
    [Math.PI], and [new THREE.Color().setHSL(h, s, l)] as its [r], [g],
    [b] components; what they return is taken as it comes. *)
Variable random : nat -> Q.
Variables cos sin : Q -> Q.
Variable PI : Q.
Variable setHSL : Q -> Q -> Q -> vec3.

(** The [switch (patternType)] of [emitParticles]: the initial velocity
    and the number of random draws it consumed, [d] being the index of
    the next draw. *)
Definition patternVelocity (patternType : Z) (baseSpeed : Q) (d : nat)
  : vec3 * nat :=
  match patternType with
  | 0%Z =>
      let angle := double (double (random d * PI) * 2) in
      let elevation :=
        double (double (double (random (d + 1) - 0.5) * PI) * 0.5) in
      (mkVec (double (double (cos angle * cos elevation) * baseSpeed))
             (double (sin elevation * baseSpeed))
             (double (double (sin angle * cos elevation) * baseSpeed)),
       2%nat)
  | 1%Z =>
      let angle := double (double (random d * PI) * 2) in
      (mkVec (double (cos angle * baseSpeed))
             (double (double (double (random (d + 1) - 0.5) * baseSpeed)
                      * double 0.2))
             (double (sin angle * baseSpeed)), 2%nat)
  | 2%Z =>
      let angle := double (double (random d * PI) * 2) in
      let spread := double (random (d + 1) * double 0.3) in
      (mkVec (double (double (cos angle * baseSpeed) * spread))
             (double (baseSpeed
                      * double (double 0.7
                                + double (random (d + 2) * double 0.3))))
             (double (double (sin angle * baseSpeed) * spread)), 3%nat)
  | _ => (mkVec 0 0 0, 0%nat)
  end.

(** The body of the emission loop once a free slot [particleIndex] is
    found. *)
Definition activate (bassIntensity trebleIntensity : Q)
           (particleIndex : nat) (s : engine) : engine :=
  let baseSpeed := double (15 + double (bassIntensity * 25)) in
  let baseSize := double (1.5 + double (bassIntensity * 2.5)) in
  let baseHue := mod1 (double (time s * double 0.05)) in
  let hueVariation :=
    double (double 0.08 + double (trebleIntensity * double 0.1)) in
  let patternType := Z.rem (Qfloor (double (bassIntensity * 3))) 3 in
  let '(initialVelocity, used) :=
    patternVelocity patternType baseSpeed (draws s) in
  let d := (draws s + used)%nat in
  let hue0 :=
    double (baseHue + double (double (random d - 0.5) * hueVariation)) in
  let hue1 := if Qltb hue0 0 then double (hue0 + 1) else hue0 in
  let hue := if Qltb 1 hue1 then double (hue1 - 1) else hue1 in
  let saturation :=
    double (double 0.7 + double (random (d + 1) * double 0.3)) in
  let lightness := double (0.5 + double (trebleIntensity * double 0.2)) in
  let color := setHSL hue saturation lightness in
  let randomSize :=
    double (baseSize
            * double (double 0.8 + double (random (d + 2) * double 0.4)))
  in
  mkEngine
    (<[particleIndex := mkParticle initialVelocity randomSize 0]>
       (waveParticles s))
    (particleCount s) (maxParticles s) (emissionRate s)
    (particleLifespan s) (exhibitionFrames s)
    (<[particleIndex := fround (particleLifespan s)]>
       (particleLifetimes s))
    (<[(particleIndex * 3 + 2)%nat := 0]>
       (<[(particleIndex * 3 + 1)%nat := 0]>
          (<[(particleIndex * 3)%nat := 0]> (positions s))))
    (<[(particleIndex * 3 + 2)%nat := fround (vz color)]>
       (<[(particleIndex * 3 + 1)%nat := fround (vy color)]>
          (<[(particleIndex * 3)%nat := fround (vx color)]> (colors s))))
    (<[particleIndex := fround randomSize]> (sizes s))
    (time s) (d + 3).

(** [for (let i = 0; i < particlesToEmit; i++)], leaving at the first
    iteration that finds no free slot. *)
Fixpoint emitLoop (iterations : nat) (bassIntensity trebleIntensity : Q)
         (s : engine) : engine :=
  match iterations with
  | O => s
  | S n =>
      match findFree s with
      | None => s
      | Some particleIndex =>
          emitLoop n bassIntensity trebleIntensity
                   (activate bassIntensity trebleIntensity particleIndex s)
      end
  end.

(** [Math.floor(count * (1 + bassIntensity))]. *)
Definition baseBurstSize (count bassIntensity : Q) : Z :=
  Qfloor (double (count * double (1 + bassIntensity))).

Definition particlesToEmit (count bassIntensity : Q) (s : engine) : Z :=
  Z.min (baseBurstSize count bassIntensity)
        (Z.of_nat (maxParticles s) - Z.of_nat (particleCount s)).

(** [emitParticles(count, bassIntensity, trebleIntensity)]. *)
Definition emitParticles (count bassIntensity trebleIntensity : Q)
           (s : engine) : engine :=
  emitLoop (Z.to_nat (particlesToEmit count bassIntensity s))
           bassIntensity trebleIntensity s.

(** A call of [emitParticles] with its three arguments. *)
Record emission : Type := mkEmission {
  emCount : Q;
  emBass : Q;
  emTreble : Q
}.

Definition emit (s : engine) (e : emission) : engine :=
  emitParticles (emCount e) (emBass e) (emTreble e) s.

(** What happens to the pool between two frames: a call of
    [emitParticles], or the particle loop of a tick of length [delta]. *)
Inductive event : Type :=
| Emit (e : emission)
| Tick (delta : Q).

(** The test "the particle passed through the frame this tick". *)
Definition crossesFrame (oldZ x y z : Q) (f : frame) : bool :=
  let minX := double (vx (framePosition f) - double (frameWidth f / 2)) in
  let maxX := double (vx (framePosition f) + double (frameWidth f / 2)) in
  let minY := double (vy (framePosition f) - double (frameHeight f / 2)) in
  let maxY := double (vy (framePosition f) + double (frameHeight f / 2)) in
  let fz := vz (framePosition f) in
  (Qltb oldZ fz && Qle_bool fz z)
  && (Qle_bool minX x && Qle_bool x maxX
      && Qle_bool minY y && Qle_bool y maxY).

(** [for (let j = 0; j < this.exhibitionFrames.length; j++)] for the
    particle in slot [i]: the loop rewrites the particle and its colour. *)
Fixpoint frameLoop (frames : list frame) (j : Z) (oldZ : Q) (i : nat)
         (pos : list Q) (st : particle * list Q) : particle * list Q :=
  match frames with
  | [] => st
  | f :: rest =>
      let '(p, cols) := st in
      let st' :=
        if crossesFrame oldZ (rd pos (i * 3)) (rd pos (i * 3 + 1))
                        (rd pos (i * 3 + 2)) f
        then
          let hue :=
            double (double (double (rd cols (i * 3) + rd cols (i * 3 + 1))
                            + rd cols (i * 3 + 2)) / 3) in
          let newColor :=
            setHSL (mod1 (double (hue + double (double 0.1 * inject_Z j))))
                   (double 0.8)
                   (double (0.5 + double (inject_Z j * double 0.1))) in
          (mkParticle (multiplyScalar (velocity p) (double 0.8))
                      (initialSize p) (S (frameInteractions p)),
           <[(i * 3 + 2)%nat := fround (vz newColor)]>
             (<[(i * 3 + 1)%nat := fround (vy newColor)]>
                (<[(i * 3)%nat := fround (vx newColor)]> cols)))
        else st
      in
      frameLoop rest (j + 1) oldZ i pos st'
  end.

(** One iteration of the particle loop of [updateWaveVisualizer] on slot
    [i], with the running [activeCount].  [particleLifetimes[i] -= delta]
    stores the single-precision value of the difference, and the test
    and the life factor that follow read the stored value.  The typed
    arrays hold [maxParticles] slots, so the slot exists; a missing slot
    would read [undefined], which the loop counts as active and leaves
    alone. *)
Definition updateSlot (delta : Q) (st : engine * nat) (i : nat)
  : engine * nat :=
  let '(s, active) := st in
  match particleLifetimes s !! i with
  | None => (s, S active)
  | Some l =>
      if Qltb l 0 then st
      else
        let l' := fround (double (l - delta)) in
        let lifetimes' := <[i := l']> (particleLifetimes s) in
        if Qltb l' 0 then
          (mkEngine (waveParticles s) (particleCount s) (maxParticles s)
                    (emissionRate s) (particleLifespan s)
                    (exhibitionFrames s) lifetimes' (positions s)
                    (colors s) (<[i := 0]> (sizes s)) (time s) (draws s),
           active)
        else
          let lifeFactor := double (l' / particleLifespan s) in
          match waveParticles s !! i with
          | None =>
              (mkEngine (waveParticles s) (particleCount s)
                        (maxParticles s) (emissionRate s)
                        (particleLifespan s) (exhibitionFrames s)
                        lifetimes' (positions s) (colors s) (sizes s)
                        (time s) (draws s),
               S active)
          | Some p =>
              let oldZ := rd (positions s) (i * 3 + 2) in
              let moved (x v : Q) : Q :=
                fround (double (x + double (v * delta))) in
              let pos1 :=
                <[(i * 3)%nat :=
                    moved (rd (positions s) (i * 3)) (vx (velocity p))]>
                  (positions s) in
              let pos2 :=
                <[(i * 3 + 1)%nat :=
                    moved (rd pos1 (i * 3 + 1)) (vy (velocity p))]> pos1 in
              let pos3 :=
                <[(i * 3 + 2)%nat :=
                    moved (rd pos2 (i * 3 + 2)) (vz (velocity p))]> pos2 in
              let '(p1, cols) :=
                frameLoop (exhibitionFrames s) 0 oldZ i pos3 (p, colors s) in
              let v1 := velocity p1 in
              let v2 :=
                mkVec (vx v1) (double (vy v1 - double (0.5 * delta)))
                      (vz v1) in
              let p2 :=
                mkParticle (multiplyScalar v2 (double 0.995))
                           (initialSize p1) (frameInteractions p1) in
              (mkEngine (<[i := p2]> (waveParticles s)) (particleCount s)
                        (maxParticles s) (emissionRate s)
                        (particleLifespan s) (exhibitionFrames s)
                        lifetimes' pos3 cols
                        (<[i := fround (renderedSize p2 lifeFactor)]>
                           (sizes s))
                        (time s) (draws s),
               S active)
          end
  end.

(** The particle loop and [this.particleCount = activeCount]. *)
Definition updateParticles (delta : Q) (s : engine) : engine :=
  let '(s', active) :=
    fold_left (updateSlot delta) (seq 0 (maxParticles s)) (s, 0%nat) in
  mkEngine (waveParticles s') active (maxParticles s') (emissionRate s')
           (particleLifespan s') (exhibitionFrames s')
           (particleLifetimes s') (positions s') (colors s') (sizes s')
           (time s') (draws s').

(** The pool after a sequence of emissions and ticks. *)
Definition applyEvent (s : engine) (ev : event) : engine :=
  match ev with
  | Emit e => emit s e
  | Tick delta => updateParticles delta s
  end.

Definition runEvents (events : list event) (s : engine) : engine :=
  fold_left applyEvent events s.

End Engine.

End Particles.

(** ** The style controller *)

Module Controller.

Import Particles.

(** The two projection models of the rendering engine, with the
    arguments of their constructors. *)
Inductive projection : Type :=
| PerspectiveCamera (fov : Q) (aspect : jsnum) (near far : Q)
| OrthographicCamera (left right top bottom near far : Q).

(** A camera object: its identity, projection, [position] and the point
    last given to [lookAt]. *)
Record Camera : Type := mkCamera {
  camId : nat;
  camProjection : projection;
  camPosition : vec3;
  camLookAt : vec3
}.

Inductive kind : Type :=
| Bar | Tower | GroundPlane | Starfield | PointsMesh | ShaderPlane
| AmbientLight | DirectionalLight.

(** An object of the scene graph: its identity, what it is, and where. *)
Record Object3D : Type := mkObject {
  objId : nat;
  objKind : kind;
  objPosition : vec3
}.

(** [this.orbitControls]: the camera it drives, by identity. *)
Record OrbitControls : Type := mkOrbit {
  orbObject : nat;
  orbEnabled : bool;
  orbTarget : vec3
}.

(** The fields of [Visualizer] the controller reads and writes.  [scene]
    is [scene.children]; [smoothed] gathers [lowFreqSmoothed],
    [midFreqSmoothed], [highFreqSmoothed] and [overallSmoothed];
    [resizeHandler] tells whether the shader resize listener is installed;
    [nextId] numbers the objects created so far and [renders] counts the
    calls of [renderer.render].  [dispose()] releases memory of the
    rendering engine and leaves these fields alone. *)
Record Visualizer : Type := mkVisualizer {
  scene : list Object3D;
  background : Z;
  camera : Camera;
  originalCamera : option Camera;
  bars : list Object3D;
  particles : list Object3D;
  towers : list Object3D;
  groundPlane : option Object3D;
  cloudLayers : list Object3D;
  starfield : option Object3D;
  pointsMesh : option Object3D;
  currentStyle : string;
  orbitControls : OrbitControls;
  shaderPlane : option Object3D;
  shaderMaterial : option nat;
  shaderTime : Q;
  audioDataArray : option (list byte);
  smoothed : Bands.levels;
  resizeHandler : bool;
  nextId : nat;
  renders : nat
}.

Definition set_scene (v : list Object3D) (s : Visualizer) : Visualizer :=
  mkVisualizer v (background s) (camera s) (originalCamera s) (bars s)
    (particles s) (towers s) (groundPlane s) (cloudLayers s) (starfield s)
    (pointsMesh s) (currentStyle s) (orbitControls s) (shaderPlane s)
    (shaderMaterial s) (shaderTime s) (audioDataArray s) (smoothed s)
    (resizeHandler s) (nextId s) (renders s).

Definition set_background (v : Z) (s : Visualizer) : Visualizer :=
  mkVisualizer (scene s) v (camera s) (originalCamera s) (bars s)
    (particles s) (towers s) (groundPlane s) (cloudLayers s) (starfield s)
    (pointsMesh s) (currentStyle s) (orbitControls s) (shaderPlane s)
    (shaderMaterial s) (shaderTime s) (audioDataArray s) (smoothed s)
    (resizeHandler s) (nextId s) (renders s).

Definition set_camera (v : Camera) (s : Visualizer) : Visualizer :=
  mkVisualizer (scene s) (background s) v (originalCamera s) (bars s)
    (particles s) (towers s) (groundPlane s) (cloudLayers s) (starfield s)
    (pointsMesh s) (currentStyle s) (orbitControls s) (shaderPlane s)
    (shaderMaterial s) (shaderTime s) (audioDataArray s) (smoothed s)
    (resizeHandler s) (nextId s) (renders s).

Definition set_originalCamera (v : option Camera) (s : Visualizer) : Visualizer :=
  mkVisualizer (scene s) (background s) (camera s) v (bars s)
    (particles s) (towers s) (groundPlane s) (cloudLayers s) (starfield s)
    (pointsMesh s) (currentStyle s) (orbitControls s) (shaderPlane s)
    (shaderMaterial s) (shaderTime s) (audioDataArray s) (smoothed s)
    (resizeHandler s) (nextId s) (renders s).

Definition set_bars (v : list Object3D) (s : Visualizer) : Visualizer :=
  mkVisualizer (scene s) (background s) (camera s) (originalCamera s) v
    (particles s) (towers s) (groundPlane s) (cloudLayers s) (starfield s)
    (pointsMesh s) (currentStyle s) (orbitControls s) (shaderPlane s)
    (shaderMaterial s) (shaderTime s) (audioDataArray s) (smoothed s)
    (resizeHandler s) (nextId s) (renders s).

Definition set_particles (v : list Object3D) (s : Visualizer) : Visualizer :=
  mkVisualizer (scene s) (background s) (camera s) (originalCamera s)
    (bars s) v (towers s) (groundPlane s) (cloudLayers s) (starfield s)
    (pointsMesh s) (currentStyle s) (orbitControls s) (shaderPlane s)
    (shaderMaterial s) (shaderTime s) (audioDataArray s) (smoothed s)
    (resizeHandler s) (nextId s) (renders s).

Definition set_towers (v : list Object3D) (s : Visualizer) : Visualizer :=
  mkVisualizer (scene s) (background s) (camera s) (originalCamera s)
    (bars s) (particles s) v (groundPlane s) (cloudLayers s) (starfield s)
    (pointsMesh s) (currentStyle s) (orbitControls s) (shaderPlane s)
    (shaderMaterial s) (shaderTime s) (audioDataArray s) (smoothed s)
    (resizeHandler s) (nextId s) (renders s).

Definition set_groundPlane (v : option Object3D) (s : Visualizer) : Visualizer :=
  mkVisualizer (scene s) (background s) (camera s) (originalCamera s)
    (bars s) (particles s) (towers s) v (cloudLayers s) (starfield s)
    (pointsMesh s) (currentStyle s) (orbitControls s) (shaderPlane s)
    (shaderMaterial s) (shaderTime s) (audioDataArray s) (smoothed s)
    (resizeHandler s) (nextId s) (renders s).

Definition set_cloudLayers (v : list Object3D) (s : Visualizer) : Visualizer :=
  mkVisualizer (scene s) (background s) (camera s) (originalCamera s)
    (bars s) (particles s) (towers s) (groundPlane s) v (starfield s)
    (pointsMesh s) (currentStyle s) (orbitControls s) (shaderPlane s)
    (shaderMaterial s) (shaderTime s) (audioDataArray s) (smoothed s)
    (resizeHandler s) (nextId s) (renders s).

Definition set_starfield (v : option Object3D) (s : Visualizer) : Visualizer :=
  mkVisualizer (scene s) (background s) (camera s) (originalCamera s)
    (bars s) (particles s) (towers s) (groundPlane s) (cloudLayers s) v
    (pointsMesh s) (currentStyle s) (orbitControls s) (shaderPlane s)
    (shaderMaterial s) (shaderTime s) (audioDataArray s) (smoothed s)
    (resizeHandler s) (nextId s) (renders s).

Definition set_pointsMesh (v : option Object3D) (s : Visualizer) : Visualizer :=
  mkVisualizer (scene s) (background s) (camera s) (originalCamera s)
    (bars s) (particles s) (towers s) (groundPlane s) (cloudLayers s)
    (starfield s) v (currentStyle s) (orbitControls s) (shaderPlane s)
    (shaderMaterial s) (shaderTime s) (audioDataArray s) (smoothed s)
    (resizeHandler s) (nextId s) (renders s).

Definition set_currentStyle (v : string) (s : Visualizer) : Visualizer :=
  mkVisualizer (scene s) (background s) (camera s) (originalCamera s)
    (bars s) (particles s) (towers s) (groundPlane s) (cloudLayers s)
    (starfield s) (pointsMesh s) v (orbitControls s) (shaderPlane s)
    (shaderMaterial s) (shaderTime s) (audioDataArray s) (smoothed s)
    (resizeHandler s) (nextId s) (renders s).

Definition set_orbitControls (v : OrbitControls) (s : Visualizer) : Visualizer :=
  mkVisualizer (scene s) (background s) (camera s) (originalCamera s)
    (bars s) (particles s) (towers s) (groundPlane s) (cloudLayers s)
    (starfield s) (pointsMesh s) (currentStyle s) v (shaderPlane s)
    (shaderMaterial s) (shaderTime s) (audioDataArray s) (smoothed s)
    (resizeHandler s) (nextId s) (renders s).

Definition set_shaderPlane (v : option Object3D) (s : Visualizer) : Visualizer :=
  mkVisualizer (scene s) (background s) (camera s) (originalCamera s)
    (bars s) (particles s) (towers s) (groundPlane s) (cloudLayers s)
    (starfield s) (pointsMesh s) (currentStyle s) (orbitControls s) v
    (shaderMaterial s) (shaderTime s) (audioDataArray s) (smoothed s)
    (resizeHandler s) (nextId s) (renders s).

Definition set_shaderMaterial (v : option nat) (s : Visualizer) : Visualizer :=
  mkVisualizer (scene s) (background s) (camera s) (originalCamera s)
    (bars s) (particles s) (towers s) (groundPlane s) (cloudLayers s)
    (starfield s) (pointsMesh s) (currentStyle s) (orbitControls s)
    (shaderPlane s) v (shaderTime s) (audioDataArray s) (smoothed s)
    (resizeHandler s) (nextId s) (renders s).

Definition set_shaderTime (v : Q) (s : Visualizer) : Visualizer :=
  mkVisualizer (scene s) (background s) (camera s) (originalCamera s)
    (bars s) (particles s) (towers s) (groundPlane s) (cloudLayers s)
    (starfield s) (pointsMesh s) (currentStyle s) (orbitControls s)
    (shaderPlane s) (shaderMaterial s) v (audioDataArray s) (smoothed s)
    (resizeHandler s) (nextId s) (renders s).

Definition set_audioDataArray (v : option (list byte)) (s : Visualizer) : Visualizer :=
  mkVisualizer (scene s) (background s) (camera s) (originalCamera s)
    (bars s) (particles s) (towers s) (groundPlane s) (cloudLayers s)
    (starfield s) (pointsMesh s) (currentStyle s) (orbitControls s)
    (shaderPlane s) (shaderMaterial s) (shaderTime s) v (smoothed s)
    (resizeHandler s) (nextId s) (renders s).

Definition set_smoothed (v : Bands.levels) (s : Visualizer) : Visualizer :=
  mkVisualizer (scene s) (background s) (camera s) (originalCamera s)
    (bars s) (particles s) (towers s) (groundPlane s) (cloudLayers s)
    (starfield s) (pointsMesh s) (currentStyle s) (orbitControls s)
    (shaderPlane s) (shaderMaterial s) (shaderTime s) (audioDataArray s) v
    (resizeHandler s) (nextId s) (renders s).

Definition set_resizeHandler (v : bool) (s : Visualizer) : Visualizer :=
  mkVisualizer (scene s) (background s) (camera s) (originalCamera s)
    (bars s) (particles s) (towers s) (groundPlane s) (cloudLayers s)
    (starfield s) (pointsMesh s) (currentStyle s) (orbitControls s)
    (shaderPlane s) (shaderMaterial s) (shaderTime s) (audioDataArray s)
    (smoothed s) v (nextId s) (renders s).

Definition set_nextId (v : nat) (s : Visualizer) : Visualizer :=
  mkVisualizer (scene s) (background s) (camera s) (originalCamera s)
    (bars s) (particles s) (towers s) (groundPlane s) (cloudLayers s)
    (starfield s) (pointsMesh s) (currentStyle s) (orbitControls s)
    (shaderPlane s) (shaderMaterial s) (shaderTime s) (audioDataArray s)
    (smoothed s) (resizeHandler s) v (renders s).

Definition set_renders (v : nat) (s : Visualizer) : Visualizer :=
  mkVisualizer (scene s) (background s) (camera s) (originalCamera s)
    (bars s) (particles s) (towers s) (groundPlane s) (cloudLayers s)
    (starfield s) (pointsMesh s) (currentStyle s) (orbitControls s)
    (shaderPlane s) (shaderMaterial s) (shaderTime s) (audioDataArray s)
    (smoothed s) (resizeHandler s) (nextId s) v.

(** [scene.add(o)] and [scene.remove(o)]. *)
Definition sceneAdd (o : Object3D) (s : Visualizer) : Visualizer :=
  set_scene (scene s ++ [o]) s.

Definition sceneRemove (o : Object3D) (s : Visualizer) : Visualizer :=
  set_scene (List.filter (fun c => negb (objId c =? objId o)%nat) (scene s)) s.

Definition sceneRemoveAll (os : list Object3D) (s : Visualizer) : Visualizer :=
  fold_left (fun s' o => sceneRemove o s') os s.

(** A fresh object of the rendering engine. *)
Definition newObject (k : kind) (pos : vec3) (s : Visualizer)
  : Object3D * Visualizer :=
  (mkObject (nextId s) k pos, set_nextId (S (nextId s)) s).

Definition origin : vec3 := mkVec 0 0 0.

(** [this.camera.position.set(x, y, z)] and [this.camera.lookAt(x, y, z)]. *)
Definition cameraPositionSet (pos : vec3) (s : Visualizer) : Visualizer :=
  set_camera (mkCamera (camId (camera s)) (camProjection (camera s)) pos
                       (camLookAt (camera s))) s.

Definition cameraLookAt (target : vec3) (s : Visualizer) : Visualizer :=
  set_camera (mkCamera (camId (camera s)) (camProjection (camera s))
                       (camPosition (camera s)) target) s.

(** How a call ends: it returns, or an exception leaves it. Either way
    the fields keep what was written before. *)
Inductive outcome : Type :=
| Done (s : Visualizer)
| Thrown (s : Visualizer).

Definition stateOf (o : outcome) : Visualizer :=
  match o with Done s | Thrown s => s end.

(** Where the construction of a style fails: [None] when every call of
    the rendering engine succeeds, [Some k] when the one in statement [k]
    of the constructor throws. *)
Definition fault : Type := option nat.

(** The statements of a constructor in order; the one at the fault
    throws before it writes anything. *)
Fixpoint runSteps (steps : list (Visualizer -> Visualizer)) (f : fault)
         (s : Visualizer) : outcome :=
  match steps with
  | [] => Done s
  | step :: rest =>
      match f with
      | Some O => Thrown s
      | Some (S k) => runSteps rest (Some k) (step s)
      | None => runSteps rest None (step s)
      end
  end.

(** [clearScene], block by block. "Remove all visualizer elements": *)
Definition removeElements (s : Visualizer) : Visualizer :=
  let s := sceneRemoveAll (bars s) s in
  let s := sceneRemoveAll (particles s) s in
  sceneRemoveAll (towers s) s.

(** The ground plane of the towers: *)
Definition removeGroundPlane (s : Visualizer) : Visualizer :=
  match groundPlane s with
  | Some g => set_groundPlane None (sceneRemove g s)
  | None => s
  end.

(** "Remove cloud layers": *)
Definition removeCloudLayers (s : Visualizer) : Visualizer :=
  set_cloudLayers [] (sceneRemoveAll (cloudLayers s) s).

(** "Remove starfield": *)
Definition removeStarfield (s : Visualizer) : Visualizer :=
  match starfield s with
  | Some o => set_starfield None (sceneRemove o s)
  | None => s
  end.

(** "Reset arrays" and "Reset background": *)
Definition resetArrays (s : Visualizer) : Visualizer :=
  set_background 0x000005 (set_towers [] (set_particles [] (set_bars [] s))).

(** "Clean up points visualizer elements": *)
Definition removePointsMesh (s : Visualizer) : Visualizer :=
  match pointsMesh s with
  | Some o => set_pointsMesh None (sceneRemove o s)
  | None => s
  end.

(** "Clean up shader visualizer elements": *)
Definition removeShader (s : Visualizer) : Visualizer :=
  let s := match shaderPlane s with
           | Some o => set_shaderPlane None (sceneRemove o s)
           | None => s
           end in
  match shaderMaterial s with
  | Some _ => set_shaderMaterial None s
  | None => s
  end.

(** "Reset shader-related properties": *)
Definition resetShaderProperties (s : Visualizer) : Visualizer :=
  set_smoothed Bands.zeroLevels (set_shaderTime 0 s).

(** The objects the style fields of the visualizer hold, in the order in
    which [clearScene] goes through the fields. *)
Definition styleObjects (s : Visualizer) : list Object3D :=
  bars s ++ particles s ++ towers s ++ option_list (groundPlane s)
  ++ cloudLayers s ++ option_list (starfield s)
  ++ option_list (pointsMesh s) ++ option_list (shaderPlane s).

(** Whether the object [c] is one of [os]. *)
Definition heldIn (os : list Object3D) (c : Object3D) : bool :=
  existsb (fun o => (objId c =? objId o)%nat) os.

(** The children of the scene without the objects [os]. *)
Definition without (os : list Object3D) (children : list Object3D)
  : list Object3D :=
  List.filter (fun c => negb (heldIn os c)) children.

(** [clearScene]. *)
Definition clearScene (s : Visualizer) : Visualizer :=
  resetShaderProperties
    (removeShader
       (removePointsMesh
          (resetArrays
             (removeStarfield
                (removeCloudLayers
                   (removeGroundPlane (removeElements s))))))).

(** One iteration of the loop of [createBars]. *)
Definition barStep (i : nat) (s : Visualizer) : Visualizer :=
  let barWidth := 0.2 in
  let spacing := 0.3 in
  let totalWidth := (64 - 1) * (barWidth + spacing) in
  let startX := - totalWidth / 2 in
  let '(bar, s) :=
    newObject Bar
      (mkVec (startX + inject_Z (Z.of_nat i) * (barWidth + spacing)) 0 0) s in
  let s := sceneAdd bar s in
  set_bars (bars s ++ [bar]) s.

Definition barCount : nat := 64.

Definition createBarsSteps : list (Visualizer -> Visualizer) :=
  map barStep (seq 0 barCount).

(** [createBars]. *)
Definition createBars (f : fault) (s : Visualizer) : outcome :=
  runSteps createBarsSteps f s.

(** [createPointsVisualizer]: the background, the buffers with the
    geometry and the material, the mesh, the two lights, the camera. *)
Definition createPointsSteps : list (Visualizer -> Visualizer) :=
  [ set_background 0x000011;
    (fun s => s);
    (fun s => let '(o, s) := newObject PointsMesh origin s in
              set_pointsMesh (Some o) s);
    (fun s => match pointsMesh s with
              | Some o => sceneAdd o s
              | None => s
              end);
    (fun s => let '(o, s) := newObject AmbientLight origin s in sceneAdd o s);
    (fun s => let '(o, s) := newObject DirectionalLight (mkVec 1 1 1) s in
              sceneAdd o s);
    (fun s => cameraLookAt origin (cameraPositionSet (mkVec 0 0 100) s)) ].

Definition createPointsVisualizer (f : fault) (s : Visualizer) : outcome :=
  runSteps createPointsSteps f s.

(** One tower of the grid of [createTowersVisualizer]. *)
Definition towerStep (xz : Z * Z) (s : Visualizer) : Visualizer :=
  let gridSize := 20 in
  let spacing := 150 / 20 in
  let '(x, z) := xz in
  let '(tower, s) :=
    newObject Tower
      (mkVec ((inject_Z x - gridSize / 2 + 0.5) * spacing) 0
             ((inject_Z z - gridSize + 0.5) * spacing)) s in
  let s := sceneAdd tower s in
  set_towers (towers s ++ [tower]) s.

Definition towerGrid : list (Z * Z) :=
  flat_map (fun x => map (fun z => (Z.of_nat x, Z.of_nat z)) (seq 0 40))
           (seq 0 20).

(** [createTowersVisualizer], with [createStarfield] inlined. *)
Definition createTowersSteps : list (Visualizer -> Visualizer) :=
  [ (fun s => set_cloudLayers [] (set_towers [] s));
    set_background 0x000000;
    (fun s => let '(plane, s) :=
                newObject GroundPlane (mkVec 0 (- 0.1 / 2) 0) s in
              set_groundPlane (Some plane) (sceneAdd plane s));
    (fun s => let '(o, s) := newObject Starfield origin s in
              set_starfield (Some o) s);
    (fun s => match starfield s with
              | Some o => sceneAdd o s
              | None => s
              end) ]
  ++ map towerStep towerGrid
  ++ [ (fun s => cameraLookAt (mkVec 0 2 0)
                   (cameraPositionSet (mkVec 0 5 15) s)) ].

Definition createTowersVisualizer (f : fault) (s : Visualizer) : outcome :=
  runSteps createTowersSteps f s.

(** The statements of the [try] block of [createShadersVisualizer]. *)
Definition createShadersSteps : list (Visualizer -> Visualizer) :=
  [ (fun s => set_shaderTime 0 (set_shaderMaterial None (set_shaderPlane None s)));
    set_background 0x000000;
    (fun s => set_originalCamera
                (Some (mkCamera (nextId s) (camProjection (camera s))
                                (camPosition (camera s)) (camLookAt (camera s))))
                (set_nextId (S (nextId s)) s));
    (fun s => s);
    (fun s => set_shaderMaterial (Some (nextId s)) (set_nextId (S (nextId s)) s));
    (fun s => let '(o, s) := newObject ShaderPlane origin s in
              set_shaderPlane (Some o) s);
    (fun s => match shaderPlane s with
              | Some o => sceneAdd o s
              | None => s
              end);
    (fun s => set_camera
                (mkCamera (nextId s) (OrthographicCamera (-1) 1 1 (-1) 0 1)
                          origin origin)
                (set_nextId (S (nextId s)) s));
    (fun s => set_audioDataArray (Some (repeat x00 128)) s);
    set_resizeHandler true ].

(** [createShadersVisualizer]: the [catch] block falls back to the bars. *)
Definition createShadersVisualizer (f fallback : fault) (s : Visualizer)
  : outcome :=
  match runSteps createShadersSteps f s with
  | Done s' => Done s'
  | Thrown s' => createBars fallback (set_currentStyle "bars" s')
  end.



Section Window.

(** [window.innerWidth] and [window.innerHeight]. *)
Variables innerWidth innerHeight : Q.

(** [new THREE.PerspectiveCamera(75, innerWidth / innerHeight, 0.1, 1000)]. *)
Definition defaultProjection : projection :=
  PerspectiveCamera 75 (div (Fin innerWidth) (Fin innerHeight)) 0.1 1000.

(** The branch "restore camera if switching from shaders". *)
Definition restoreCamera (s : Visualizer) : Visualizer :=
  let cam := mkCamera (nextId s) defaultProjection origin origin in
  let s := set_camera cam (set_nextId (S (nextId s)) s) in
  let s := set_orbitControls
             (mkOrbit (camId cam) (orbEnabled (orbitControls s))
                      (orbTarget (orbitControls s))) s in
  set_originalCamera None s.

(** The first half of [createVisualizer]: the previous style is read,
    the scene cleared, the camera restored "if switching from shaders",
    and the basic scene set up. *)
Definition prepareScene (s : Visualizer) : Visualizer :=
  let previousStyle := currentStyle s in
  let s := clearScene s in
  let s := if String.eqb previousStyle "shaders" then restoreCamera s else s in
  let s := cameraLookAt origin (cameraPositionSet (mkVec 0 10 20) s) in
  let s := set_background 0x000005 s in
  set_orbitControls (mkOrbit (orbObject (orbitControls s)) false origin) s.

(** The [switch (this.currentStyle)] of [createVisualizer]; it has no
    [default] case.  [f] is the fault of the style's constructor and
    [fallback] that of the bars built by the [catch] block. *)
Definition buildStyle (f fallback : fault) (s : Visualizer) : outcome :=
  if String.eqb (currentStyle s) "bars" then createBars f s
  else if String.eqb (currentStyle s) "points" then
    createPointsVisualizer f s
  else if String.eqb (currentStyle s) "towers" then
    match createTowersVisualizer f s with
    | Done s' =>
        Done (cameraLookAt (mkVec 0 1 0)
                (cameraPositionSet (mkVec 0 2 10) s'))
    | Thrown s' => Thrown s'
    end
  else if String.eqb (currentStyle s) "shaders" then
    createShadersVisualizer f fallback s
  else Done s.

(** [createVisualizer], ending with the initial render. *)
Definition createVisualizer (f fallback : fault) (s : Visualizer)
  : outcome :=
  match buildStyle f fallback (prepareScene s) with
  | Done s' => Done (set_renders (S (renders s')) s')
  | Thrown s' => Thrown s'
  end.

(** One of the two [change] listeners [setupControls] puts on the style
    selector. *)
Definition onStyleChange (value : string) (f fallback : fault)
           (s : Visualizer) : outcome :=
  createVisualizer f fallback (set_currentStyle value s).

(** A [change] event of the selector: both listeners run, the second
    also when the first threw. *)
Definition dispatchChange (value : string) (f1 fb1 f2 fb2 : fault)
           (s : Visualizer) : outcome :=
  onStyleChange value f2 fb2 (stateOf (onStyleChange value f1 fb1 s)).

(** A [change] event during which no construction fails. *)
Definition selectStyle (value : string) (s : Visualizer) : Visualizer :=
  stateOf (dispatchChange value None None None None s).

(** The fields as the constructor sets them before [init]. *)
Definition constructed : Visualizer :=
  mkVisualizer [] 0 (mkCamera 0 defaultProjection origin origin) None
               [] [] [] None [] None None "bars"
               (mkOrbit 0 false origin) None None 0 None Bands.zeroLevels
               false 1 0.

(** [init]: camera, lights, orbit controls, first [createVisualizer]. *)
Definition init (s : Visualizer) : Visualizer :=
  let s := cameraLookAt origin (cameraPositionSet (mkVec 0 0 15) s) in
  let '(ambient, s) := newObject AmbientLight origin s in
  let s := sceneAdd ambient s in
  let '(sun, s) := newObject DirectionalLight (mkVec (-100) 50 100) s in
  let s := sceneAdd sun s in
  let s := set_orbitControls (mkOrbit (camId (camera s)) false origin) s in
  stateOf (createVisualizer None None s).

(** The first call of [animate()], which ends the constructor: the
    orbit controls are disabled and there is no analyser yet, so
    [updateVisualizer] returns at once, and the scene is rendered. *)
Definition animate (s : Visualizer) : Visualizer :=
  set_renders (S (renders s)) s.

(** [new Visualizer()]: [init], then the [createVisualizer] and the
    [animate] of the constructor. *)
Definition newVisualizer : Visualizer :=
  animate (stateOf (createVisualizer None None (init constructed))).

End Window.

(** The four identifiers of the style selector. *)
Definition validStyle (value : string) : Prop :=
  value = "bars"%string \/ value = "points"%string \/
  value = "towers"%string \/ value = "shaders"%string.

Definition isPerspective (c : Camera) : bool :=
  match camProjection c with
  | PerspectiveCamera _ _ _ _ => true
  | OrthographicCamera _ _ _ _ _ _ => false
  end.

(** Whether an object of the given kind is still in the scene. *)
Definition inScene (k : kind) (s : Visualizer) : bool :=
  existsb (fun o => match objKind o, k with
                    | Bar, Bar | Tower, Tower | GroundPlane, GroundPlane
                    | Starfield, Starfield | PointsMesh, PointsMesh
                    | ShaderPlane, ShaderPlane | AmbientLight, AmbientLight
                    | DirectionalLight, DirectionalLight => true
                    | _, _ => false
                    end) (scene s).

End Controller.

(** ** Accounts ([auth.js]) *)

From Stdlib Require Import Ascii.
From stdpp Require Import strings.

Import JsNum.
Open Scope Q_scope.

Module Auth.

Local Open Scope string_scope.

(** Strings are sequences of code units below 256.  The white space and
    line terminators [String.prototype.trim] removes in that range: tab
    to carriage return, space, and the no-break space. *)
Definition isWhiteSpace (c : ascii) : bool :=
  let n := nat_of_ascii c in
  ((9 <=? n)%nat && (n <=? 13)%nat) || (n =? 32)%nat || (n =? 160)%nat.

Fixpoint trimStart (s : string) : string :=
  match s with
  | EmptyString => EmptyString
  | String c rest => if isWhiteSpace c then trimStart rest else s
  end.

Fixpoint reverseOnto (s acc : string) : string :=
  match s with
  | EmptyString => acc
  | String c rest => reverseOnto rest (String c acc)
  end.

Definition reverse (s : string) : string := reverseOnto s EmptyString.

Definition trimEnd (s : string) : string := reverse (trimStart (reverse s)).

(** [s.trim()]. *)
Definition trim (s : string) : string := trimEnd (trimStart s).

(** What [users[username]] evaluates to: an own property of the table, a
    member inherited from [Object.prototype], or [undefined]. *)
Inductive jsval : Type :=
| Str (s : string)
| Inherited
| Undefined.

(** The property names of [Object.prototype]. *)
Definition objectPrototype : list string :=
  [ "constructor"; "__defineGetter__"; "__defineSetter__"; "hasOwnProperty";
    "__lookupGetter__"; "__lookupSetter__"; "isPrototypeOf";
    "propertyIsEnumerable"; "toString"; "valueOf"; "__proto__";
    "toLocaleString" ].

Definition getProp (users : gmap string string) (name : string) : jsval :=
  match users !! name with
  | Some v => Str v
  | None =>
      if existsb (String.eqb name) objectPrototype then Inherited
      else Undefined
  end.

(** Truthiness: the empty string and [undefined] are falsy. *)
Definition truthy (v : jsval) : bool :=
  match v with
  | Str s => negb (String.eqb s "")
  | Inherited => true
  | Undefined => false
  end.

(** [v !== password]. *)
Definition differs (v : jsval) (password : string) : bool :=
  match v with
  | Str s => negb (String.eqb s password)
  | Inherited | Undefined => true
  end.

(** The state of the page and of [localStorage].  [users] is the table
    stored under [USERS_KEY], empty while the key is absent: the table is
    written by [JSON.stringify] and read back by [JSON.parse].
    [currentUser] is the item under [CURRENT_USER_KEY]; [authError] is
    [authError.textContent]; [appShown] tells that the modal is hidden and
    the main container displayed; [loggedInEvents] counts the
    [userLoggedIn] events dispatched, each of which constructs a
    [Visualizer]. *)
Record page : Type := mkPage {
  users : gmap string string;
  currentUser : option string;
  isLogin : bool;
  authError : string;
  appShown : bool;
  loggedInEvents : nat
}.

Definition showError (message : string) (st : page) : page :=
  mkPage (users st) (currentUser st) (isLogin st) message (appShown st)
         (loggedInEvents st).

Definition clearError (st : page) : page := showError "" st.

Definition setCurrentUser (username : string) (st : page) : page :=
  mkPage (users st) (Some username) (isLogin st) (authError st)
         (appShown st) (loggedInEvents st).

Definition clearCurrentUser (st : page) : page :=
  mkPage (users st) None (isLogin st) (authError st) (appShown st)
         (loggedInEvents st).

Definition saveUsers (table : gmap string string) (st : page) : page :=
  mkPage table (currentUser st) (isLogin st) (authError st) (appShown st)
         (loggedInEvents st).

(** [switchMode]: the mode is toggled and the message cleared. *)
Definition switchMode (st : page) : page :=
  clearError
    (mkPage (users st) (currentUser st) (negb (isLogin st)) (authError st)
            (appShown st) (loggedInEvents st)).

(** [validateInput(username, password)]: the verdict and the page with
    the message shown. *)
Definition validateInput (username password : string) (st : page)
  : bool * page :=
  if String.eqb username "" || String.eqb password "" then
    (false, showError "Username and password are required." st)
  else if (String.length username <? 3)%nat then
    (false, showError "Username must be at least 3 characters." st)
  else if (String.length password <? 6)%nat then
    (false, showError "Password must be at least 6 characters." st)
  else (true, st).

Definition handleLogin (username password : string) (st : page)
  : bool * page :=
  let table := users st in
  if negb (truthy (getProp table username)) then
    (false, showError "User does not exist." st)
  else if differs (getProp table username) password then
    (false, showError "Incorrect password." st)
  else (true, setCurrentUser username st).

Definition handleRegister (username password : string) (st : page)
  : bool * page :=
  let table := users st in
  if truthy (getProp table username) then
    (false, showError "Username already taken." st)
  else
    (true,
     setCurrentUser username
       (saveUsers (<[username := password]> table) st)).

Definition showMainApp (st : page) : page :=
  mkPage (users st) (currentUser st) (isLogin st) (authError st) true
         (loggedInEvents st).

Definition dispatchLoggedIn (st : page) : page :=
  mkPage (users st) (currentUser st) (isLogin st) (authError st)
         (appShown st) (S (loggedInEvents st)).

(** The [submit] listener of the form, on the two field values. *)
Definition submit (usernameField passwordField : string) (st : page)
  : page :=
  let st := clearError st in
  let username := trim usernameField in
  let password := trim passwordField in
  let '(valid, st) := validateInput username password st in
  if negb valid then st
  else
    let '(success, st) :=
      if isLogin st then handleLogin username password st
      else handleRegister username password st in
    if success then
      if isLogin st then dispatchLoggedIn (showMainApp st)
      else showError "Registration successful. Please log in." (switchMode st)
    else st.

(** [checkLoggedIn], run when the document is loaded. *)
Definition checkLoggedIn (st : page) : page :=
  match currentUser st with
  | Some name =>
      if negb (String.eqb name "") then dispatchLoggedIn (showMainApp st)
      else st
  | None => st
  end.

(** A page load: the script starts in login mode with the modal shown,
    over what [localStorage] holds. *)
Definition load (table : gmap string string) (current : option string)
  : page :=
  checkLoggedIn (mkPage table current true "" false 0).

(** [window.logout]. *)
Definition logout (st : page) : page :=
  let st := clearCurrentUser st in
  let st := mkPage (users st) (currentUser st) (isLogin st) (authError st)
                   false (loggedInEvents st) in
  switchMode st.

(** A username and password that pass [validateInput]. *)
Definition acceptable (username password : string) : Prop :=
  (3 <= String.length username)%nat /\ (6 <= String.length password)%nat.

End Auth.

(** ** The playlist ([setupControls], [playNextTrack], [playPreviousTrack],
    [updateTrackList]) *)

Module Player.

(** The fields of [Visualizer] the playlist lives in.  Files are known by
    their names.  [reads] logs the argument of every
    [reader.readAsArrayBuffer] started by [loadAudioFile], [None] for a
    read of [undefined], which throws; the decoding that follows a read
    is asynchronous and not part of the playlist.  [trackItems] is the
    number of list items of the track list that carry a click handler,
    and [alerts] counts the calls of [alert]. *)
Record player : Type := mkPlayer {
  audioContext : bool;
  audioFiles : list string;
  currentTrackIndex : Z;
  reads : list (option string);
  trackItems : nat;
  alerts : nat
}.

(** The fields as the constructor sets them. *)
Definition initialPlayer : player := mkPlayer false [] 0 [] 0 0.

(** [this.audioFiles[i]]. *)
Definition fileAt (files : list string) (i : Z) : option string :=
  if (i <? 0)%Z then None else files !! Z.to_nat i.

Definition set_index (i : Z) (s : player) : player :=
  mkPlayer (audioContext s) (audioFiles s) i (reads s) (trackItems s)
           (alerts s).

(** [loadAudioFile(file)] up to the start of the read: the page with the
    read logged, and whether the call returned (it throws when the
    reader is handed [undefined]). *)
Definition loadAudioFile (file : option string) (s : player)
  : player * bool :=
  if negb (audioContext s) then (s, true)
  else
    (mkPlayer (audioContext s) (audioFiles s) (currentTrackIndex s)
              (reads s ++ [file]) (trackItems s) (alerts s),
     match file with Some _ => true | None => false end).

(** [updateTrackList]: one item with a click handler per file. *)
Definition updateTrackList (s : player) : player :=
  mkPlayer (audioContext s) (audioFiles s) (currentTrackIndex s) (reads s)
           (length (audioFiles s)) (alerts s).

(** [this.loadAudioFile(file); this.updateTrackList()]: the list is not
    rebuilt when the load throws. *)
Definition loadAndList (file : option string) (s : player) : player :=
  let '(s, returned) := loadAudioFile file s in
  if returned then updateTrackList s else s.

(** The [change] listener of the file input. *)
Definition selectFiles (fileArray : list string) (s : player) : player :=
  let s := mkPlayer true (audioFiles s) (currentTrackIndex s) (reads s)
                    (trackItems s) (alerts s) in
  let s :=
    if (5 <? length fileArray)%nat then
      mkPlayer (audioContext s) (take 5 fileArray) (currentTrackIndex s)
               (reads s) (trackItems s) (S (alerts s))
    else
      mkPlayer (audioContext s) fileArray (currentTrackIndex s) (reads s)
               (trackItems s) (alerts s) in
  if (0 <? length (audioFiles s))%nat then
    let s := set_index 0 s in
    loadAndList (fileAt (audioFiles s) 0) s
  else s.

Definition len (s : player) : Z := Z.of_nat (length (audioFiles s)).

(** [playNextTrack]; [%] is the remainder of the truncated division. *)
Definition playNextTrack (s : player) : player :=
  if (0 <? length (audioFiles s))%nat then
    let s := set_index (Z.rem (currentTrackIndex s + 1) (len s)) s in
    loadAndList (fileAt (audioFiles s) (currentTrackIndex s)) s
  else s.

(** [playPreviousTrack]. *)
Definition playPreviousTrack (s : player) : player :=
  if (0 <? length (audioFiles s))%nat then
    let s := set_index (Z.rem (currentTrackIndex s - 1 + len s) (len s)) s in
    loadAndList (fileAt (audioFiles s) (currentTrackIndex s)) s
  else s.

(** The click handler of the track item [index]; there is no such item
    beyond the ones [updateTrackList] made. *)
Definition clickTrack (index : nat) (s : player) : player :=
  if (index <? trackItems s)%nat then
    if negb (Z.of_nat index =? currentTrackIndex s)%Z then
      let s := set_index (Z.of_nat index) s in
      loadAndList (fileAt (audioFiles s) (Z.of_nat index)) s
    else s
  else s.

(** What the user does with the playlist. *)
Inductive action : Type :=
| SelectFiles (fileArray : list string)
| Next
| Previous
| ClickTrack (index : nat).

Definition act (s : player) (a : action) : player :=
  match a with
  | SelectFiles fileArray => selectFiles fileArray s
  | Next => playNextTrack s
  | Previous => playPreviousTrack s
  | ClickTrack index => clickTrack index s
  end.

Definition runActions (actions : list action) (s : player) : player :=
  fold_left act actions s.

(** The current index names a track of the playlist. *)
Definition indexValid (s : player) : Prop :=
  (0 <= currentTrackIndex s < len s)%Z.

(** The invariant of the playlist: at most five tracks; the index names
    a track unless the playlist is empty; the click handlers are those
    of the current tracks unless the playlist is empty. *)
Definition playlist_ok (s : player) : Prop :=
  (length (audioFiles s) <= 5)%nat /\
  (audioFiles s <> [] -> indexValid s) /\
  (audioFiles s <> [] -> trackItems s = length (audioFiles s)).

(** The player after [k] presses of "next". *)
Definition pressNext (k : nat) (s : player) : player :=
  Nat.iter k playNextTrack s.

End Player.

(** ** The wave style, frame by frame ([updateWaveVisualizer]) *)

Module Wave.

Import Float Beat Particles.

(** A finite number that is not negative. *)
Definition nonneg (a : jsnum) : Prop :=
  match a with
  | Fin x => 0 <= x
  | _ => False
  end.

(** The two smoothed energies and the two beat intensities are finite
    and inside the unit interval. *)
Definition beat_unit (b : beatDetectionVars) : Prop :=
  in_unit (bassEnergy b) /\ in_unit (trebleEnergy b) /\
  in_unit (bassBeat b) /\ in_unit (trebleBeat b).

(** The detector holds no negative and no non-finite energy, and its
    threshold is not negative. *)
Definition energies_nonneg (b : beatDetectionVars) : Prop :=
  Forall nonneg (energyHistory b) /\ nonneg (trebleEnergy b) /\
  0 <= beatThreshold b.

(** What a frame of length [delta] makes of a remaining lifetime: an
    inactive slot keeps its negative lifetime, an active one gets the
    single-precision value of the difference. *)
Definition aged (delta l : Q) : Q :=
  if Qltb l 0 then l else fround (double (l - delta)).

(** The lifetime after a sequence of frames. *)
Definition agedBy (deltas : list Q) (l : Q) : Q :=
  fold_left (fun l delta => aged delta l) deltas l.

(** The frames of a sequence of frame times, with no emission. *)
Definition ticksOf (deltas : list Q) : list event := map Tick deltas.

(** A pool for examples, with [Math.random] always 0.5: two particles
    emitted and aged by 2.99 s, then a third one emitted, so that two
    slots are near the end of their life and one is new. *)
Definition examplePool : engine :=
  runEvents (fun _ => 0.5) (fun _ => 1) (fun _ => 0) 3
            (fun h s l => mkVec h s l)
            [Emit (mkEmission 2 0 0); Tick (double 2.99);
             Emit (mkEmission 1 0 0)]
            createWaveVisualizer.


(** The typed arrays have the sizes [createWaveVisualizer] gives them. *)
Definition arrays_ok (s : engine) : Prop :=
  length (particleLifetimes s) = maxParticles s /\
  length (sizes s) = maxParticles s /\
  length (positions s) = (maxParticles s * 3)%nat.

(** The base size of an emission, [1.5 + bassIntensity * 2.5]. *)
Definition baseSizeOf (bass : Q) : Q := double (1.5 + double (bass * 2.5)).

(** Slot [i] holds a particle as [emitParticles] makes it for the bass
    intensity [bass]: at the origin, with the lifespan as its lifetime,
    no frame interaction yet, and an initial size between 0.8 and
    [0.8 + 0.4] times the base size (computed in doubles); the size
    uploaded for rendering and the lifetime are the single-precision
    values the [Float32Array]s keep. *)
Definition freshAt (bass : Q) (s : engine) (i : nat) : Prop :=
  exists p : particle,
    waveParticles s !! i = Some p /\
    frameInteractions p = 0%nat /\
    double (baseSizeOf bass * double 0.8) <= initialSize p
    <= double (baseSizeOf bass * double (double 0.8 + double 0.4)) /\
    sizes s !! i = Some (fround (initialSize p)) /\
    particleLifetimes s !! i = Some (fround (particleLifespan s)) /\
    positions s !! (i * 3)%nat = Some 0 /\
    positions s !! (i * 3 + 1)%nat = Some 0 /\
    positions s !! (i * 3 + 2)%nat = Some 0.

(** A tick on a spectrum of at least five bins, with a frame time that
    is not negative. *)
Definition regularTick (t : tick) : Prop :=
  (5 <= length (tickData t))%nat /\ 0 <= tickDelta t.

(** A regular tick on a silent spectrum. *)
Definition silentTick (t : tick) : Prop :=
  (5 <= length (tickData t))%nat /\ Bands.silent (tickData t).

End Wave.

(** ** The frames of the bars and of the towers ([updateBars],
    [updateTowersVisualizer]) *)

Module Frames.

Import Float Particles Controller.

(** The double nearest to a finite number. *)
Definition rounded (a : jsnum) : jsnum :=
  match a with
  | Fin x => Fin (double x)
  | other => other
  end.

(** [dataArray[i] / 255]: a read out of range is [undefined] and the
    quotient [NaN]. *)
Definition valueAt (dataArray : list byte) (i : nat) : jsnum :=
  match dataArray !! i with
  | Some b => Fin (Bands.normalized b)
  | None => NaN
  end.

(** The loop [averageLevel += dataArray[i] / 255.0] and the division by
    [dataArray.length]. *)
Definition averageLevel (dataArray : list byte) : jsnum :=
  div (Fin (Beat.sumBins dataArray)) (Fin (inject_Z (Bands.len dataArray))).

(** [a % 1.0]. *)
Definition rem1 (a : jsnum) : jsnum :=
  match a with
  | Fin x => Fin (mod1 x)
  | _ => NaN
  end.

(** The arguments of a call of [setHSL]. *)
Record hsl : Type := mkHsl {
  hue : jsnum;
  saturation : jsnum;
  lightness : jsnum
}.

(** What [updateBars] writes to bar [i] of [count] bars: [scale.y] and
    the colour. *)
Record barLook : Type := mkBarLook {
  barScaleY : jsnum;
  barColor : hsl
}.

Definition updateBar (dataArray : list byte) (count i : nat) : barLook :=
  let value := valueAt dataArray i in
  mkBarLook
    (add (Fin 1) (mul value (Fin 10)))
    (mkHsl (add (mul (div (Fin (inject_Z (Z.of_nat i)))
                          (Fin (inject_Z (Z.of_nat count))))
                     (Fin 0.3))
                (Fin 0.5))
           (Fin 1) (Fin 0.5)).

(** [updateBars], on [this.bars.length] bars. *)
Definition updateBars (dataArray : list byte) (count : nat) : list barLook :=
  map (updateBar dataArray count) (seq 0 count).

(** [this.towerGridSettings]. *)
Record gridSettings : Type := mkGrid {
  gridSize : Q;
  spacing : Q;
  towerBaseSize : Q;
  baseTowerHeight : Q;
  planeSize : Q;
  wrapDistanceZ : Q
}.

(** The settings [createTowersVisualizer] stores; [0.1] is the double
    nearest to it. *)
Definition towerGridSettings : gridSettings :=
  mkGrid 20 (150 / 20) 2.0 (double 0.1) 150 75.

(** A tower: its position, [scale.y], and the colours of its material. *)
Record tower : Type := mkTower {
  towerX : Q;
  towerY : jsnum;
  towerZ : Q;
  towerScaleY : jsnum;
  towerColor : hsl;
  towerEmissive : hsl;
  emissiveIntensity : jsnum
}.

(** A tower as [createTowersVisualizer] makes it at a grid position:
    unit scale, white material, white emissive colour of intensity 0. *)
Definition newTower (o : Object3D) : tower :=
  mkTower (vx (objPosition o)) (Fin (vy (objPosition o)))
          (vz (objPosition o)) (Fin 1)
          (mkHsl (Fin 0) (Fin 0) (Fin 1)) (mkHsl (Fin 0) (Fin 0) (Fin 1))
          (Fin 0).

(** [this.dataArray[index % this.dataArray.length] / 255.0]; the
    remainder by zero is [NaN]. *)
Definition valueAtMod (dataArray : list byte) (index : nat) : jsnum :=
  match length dataArray with
  | O => NaN
  | S _ => valueAt dataArray (index mod length dataArray)
  end.

(** The body of [this.towers.forEach((tower, index) => ...)].  The
    position of the tower is computed as the program computes it, every
    operation rounded to a double; [scale.y] and the colours follow the
    audio path, where the arithmetic is exact and bounds are proved. *)
Definition updateTower (gs : gridSettings) (dataArray : list byte)
           (delta : Q) (index : nat) (t : tower) : tower :=
  let maxScale := 50 in
  let treadmillSpeed := double (10.0 * delta) in
  let z1 := double (towerZ t + treadmillSpeed) in
  let wraps := Qltb (double (wrapDistanceZ gs / 2)) z1 in
  let z2 :=
    if wraps then double (z1 - double (gridSize gs * spacing gs)) else z1 in
  let scale0 := if wraps then Fin 1.0 else towerScaleY t in
  let value := valueAtMod dataArray index in
  let targetScaleY := add (Fin 1) (mul value (Fin maxScale)) in
  let scaleY := add scale0 (mul (sub targetScaleY scale0) (Fin 0.1)) in
  let y :=
    rounded (sub (rounded (div (rounded (mul (Fin (baseTowerHeight gs))
                                             scaleY))
                               (Fin 2)))
                 (rounded (Fin (baseTowerHeight gs / 2)))) in
  let baseHue :=
    rem1 (add (Fin 0.6) (mul (averageLevel dataArray) (Fin 0.4))) in
  let towerHue := rem1 (add baseHue (mul value (Fin 0.3))) in
  let emissiveHue := rem1 (add towerHue (Fin 0.5)) in
  mkTower (towerX t) y z2 scaleY
          (mkHsl towerHue (add (Fin 0.8) (mul value (Fin 0.2)))
                 (add (Fin 0.6) (mul value (Fin 0.4))))
          (mkHsl emissiveHue (Fin 0.8) (Fin 0.5))
          (mul value (Fin 2.0)).

(** [forEach] with its index, from index [index] on. *)
Fixpoint updateTowersFrom (gs : gridSettings) (dataArray : list byte)
         (delta : Q) (index : nat) (ts : list tower) : list tower :=
  match ts with
  | [] => []
  | t :: rest =>
      updateTower gs dataArray delta index t
        :: updateTowersFrom gs dataArray delta (S index) rest
  end.

(** The starfield: the time uniform of its material, [rotation.y] and
    the uniform scale. *)
Record stars : Type := mkStars {
  starTime : jsnum;
  starRotationY : Q;
  starScale : jsnum
}.

(** The ground plane: the colour and the emissive colour of its
    material. *)
Record ground : Type := mkGround {
  groundColor : hsl;
  groundEmissive : hsl
}.

(** The fields of [Visualizer] the frame of the towers reads and
    writes. *)
Record towersScene : Type := mkTowersScene {
  settings : option gridSettings;
  starsOf : option stars;
  groundOf : option ground;
  towersOf : list tower;
  cameraOf : Camera
}.

Section Clock.

(** [Math.sin]. *)
Variable sin : Q -> Q.

(** "Ground-level camera movement", [time] being the reading of
    [this.clock.getElapsedTime()]. *)
Definition moveCamera (delta time : Q) (c : Camera) : Camera :=
  let forwardSpeed := 5.0 * delta in
  let z := vz (camPosition c) - forwardSpeed in
  let sideMovement := sin (time * 0.5) * 2.0 in
  let lookAt := mkVec (sideMovement * 0.5) 2.0 (z - 10) in
  let z' := if Qltb z (-50) then 30 else z in
  mkCamera (camId c) (camProjection c) (mkVec sideMovement 0.5 z') lookAt.

(** [updateTowersVisualizer(lowAvg, highAvg, delta)]. *)
Definition updateTowersVisualizer (dataArray : list byte)
           (lowAvg highAvg : jsnum) (delta time : Q) (sc : towersScene)
  : towersScene :=
  match settings sc with
  | None => sc
  | Some gs =>
      let average := averageLevel dataArray in
      let stars' :=
        match starsOf sc with
        | Some st =>
            Some (mkStars
                    (add (starTime st)
                         (mul (Fin delta)
                              (add (Fin 1.0) (mul average (Fin 2.0)))))
                    (starRotationY st + delta * 0.01)
                    (add (Fin 1.0) (mul lowAvg (Fin 0.1))))
        | None => None
        end in
      let ground' :=
        match groundOf sc with
        | Some _ =>
            let floorHue :=
              rem1 (add (add (Fin 0.6) (mul average (Fin 0.4))) (Fin 0.5)) in
            Some (mkGround
                    (mkHsl floorHue (add (Fin 0.7) (mul lowAvg (Fin 0.3)))
                           (add (Fin 0.2) (mul highAvg (Fin 0.3))))
                    (mkHsl floorHue (Fin 0.9) (mul average (Fin 0.3))))
        | None => None
        end in
      mkTowersScene (Some gs) stars' ground'
                    (updateTowersFrom gs dataArray delta 0 (towersOf sc))
                    (moveCamera delta time (cameraOf sc))
  end.

(** A frame of the animation: the spectrum the analyser delivers, the
    frame time and the clock reading. *)
Record frameInput : Type := mkFrameInput {
  frameData : list byte;
  frameDelta : Q;
  frameTime : Q
}.

(** The [case 'towers'] of [updateVisualizer]: the low and high means
    come from the band extraction of the same snapshot. *)
Definition towersFrame (sc : towersScene) (f : frameInput) : towersScene :=
  let g := Bands.generalRaw (frameData f) in
  updateTowersVisualizer (frameData f) (Bands.gLow g) (Bands.gHigh g)
                         (frameDelta f) (frameTime f) sc.

Definition runTowers (frames : list frameInput) (sc : towersScene)
  : towersScene :=
  fold_left towersFrame frames sc.

End Clock.

(** The scene of the towers as [createVisualizer] leaves it in the
    visualizer [s]; the ground plane has the colour [0x050508] and the
    emissive colour [0x000000], given by hue, saturation and lightness. *)
Definition towersSceneOf (s : Visualizer) : towersScene :=
  mkTowersScene (Some towerGridSettings)
                (match starfield s with
                 | Some _ => Some (mkStars (Fin 0) 0 (Fin 1))
                 | None => None
                 end)
                (match groundPlane s with
                 | Some _ =>
                     Some (mkGround
                             (mkHsl (Fin (2 / 3)) (Fin (3 / 13))
                                    (Fin (13 / 510)))
                             (mkHsl (Fin 0) (Fin 0) (Fin 0)))
                 | None => None
                 end)
                (map newTower (towers s))
                (camera s).

(** A finite number between two bounds. *)
Definition between (lo hi : Q) (a : jsnum) : Prop :=
  match a with
  | Fin x => lo <= x <= hi
  | _ => False
  end.

(** A finite number in [[lo, hi)]. *)
Definition within (lo hi : Q) (a : jsnum) : Prop :=
  match a with
  | Fin x => lo <= x /\ x < hi
  | _ => False
  end.

(** The arguments of a [setHSL] are in the ranges of a colour. *)
Definition hsl_ok (c : hsl) : Prop :=
  within 0 1 (hue c) /\ between 0 1 (saturation c) /\
  between 0 1 (lightness c).

(** A tower whose height follows its scale: [scale.y] between 1 and
    [1 + maxScale], [position.y] half the height added to the base, up
    to the rounding of the three operations that compute it, and colours
    in range. *)
Definition tower_ok (gs : gridSettings) (t : tower) : Prop :=
  (exists sy y : Q,
      towerScaleY t = Fin sy /\ 1 <= sy <= 51 /\
      towerY t = Fin y /\
      - (1 # 100000000000000)
      <= y - baseTowerHeight gs * (sy - 1) / 2
      <= 1 # 100000000000000) /\
  hsl_ok (towerColor t) /\ hsl_ok (towerEmissive t) /\
  between 0 2 (emissiveIntensity t).

(** A frame on a snapshot with at least one bin. *)
Definition audibleFrame (f : frameInput) : Prop :=
  (0 < length (frameData f))%nat.

(** The towers are within [lo] and [hi] along the treadmill. *)
Definition towersWithin (lo hi : Q) (ts : list tower) : Prop :=
  Forall (fun t => lo <= towerZ t <= hi) ts.

(** A frame whose time is not negative and moves the treadmill by at
    most [reach]. *)
Definition steadyFrame (reach : Q) (f : frameInput) : Prop :=
  0 <= frameDelta f /\ 10 * frameDelta f <= reach.

End Frames.

(** ** The styles over time *)

Module Animation.

Import Controller.

(** Whether a field holds an object. *)
Definition present {A : Type} (o : option A) : bool :=
  match o with
  | Some _ => true
  | None => false
  end.



(** A light of the scene. *)
Definition isLight (o : Object3D) : bool :=
  match objKind o with
  | AmbientLight | DirectionalLight => true
  | _ => false
  end.

(** Every child of the scene is a light or an object that a style
    field holds. *)
Definition tidy (s : Visualizer) : Prop :=
  forall o : Object3D,
    In o (scene s) -> isLight o = true \/ In o (styleObjects s).

(** The camera object and its projection. *)
Definition sameCamera (a b : Visualizer) : Prop :=
  camId (camera a) = camId (camera b) /\
  camProjection (camera a) = camProjection (camera b).

End Animation.

(** ** A frame of the wave style ([updateWaveVisualizer]) *)

Module WaveFrame.

Import Float Beat Particles Wave.

(** The particle system with its beat detector; [particleSystem] tells
    whether [createWaveVisualizer] has built the system. *)
Record wave : Type := mkWave {
  particleSystem : bool;
  pool : engine;
  beat : beatDetectionVars
}.

(** The wave style as [createWaveVisualizer] leaves it. *)
Definition initialWave : wave := mkWave true createWaveVisualizer initialBeat.

(** A number that is finite. *)
Definition finite (a : jsnum) : option Q :=
  match a with
  | Fin q => Some q
  | _ => None
  end.

(** [Math.floor] on numbers. *)
Definition floor (a : jsnum) : jsnum :=
  match a with
  | Fin q => Fin (inject_Z (Qfloor q))
  | other => other
  end.

Definition set_emitCooldown (c : Q) (b : beatDetectionVars)
  : beatDetectionVars :=
  mkBeat (energyHistory b) (beatThreshold b) (lastBeatTime b)
         (beatHoldTime b) (bassEnergy b) (trebleEnergy b) (bassBeat b)
         (trebleBeat b) c.

Definition set_time (t : Q) (s : engine) : engine :=
  mkEngine (waveParticles s) (particleCount s) (maxParticles s)
           (emissionRate s) (particleLifespan s) (exhibitionFrames s)
           (particleLifetimes s) (positions s) (colors s) (sizes s) t
           (draws s).

(** A call of [Math.random()] outside [emitParticles]: the value drawn
    and the engine with the draw counted. *)
Definition set_draws (d : nat) (s : engine) : engine :=
  mkEngine (waveParticles s) (particleCount s) (maxParticles s)
           (emissionRate s) (particleLifespan s) (exhibitionFrames s)
           (particleLifetimes s) (positions s) (colors s) (sizes s) (time s)
           d.

(** The emission cooldown after "update emission cooldown". *)
Definition cooled (delta : Q) (b : beatDetectionVars) : Q :=
  if Qltb 0 (emitCooldown b) then emitCooldown b - delta
  else emitCooldown b.

(** The test of "emit particles when a bass beat is detected", on the
    detector after [detectBeats] and the cooldown update. *)
Definition primaryBurst (b : beatDetectionVars) : bool :=
  JsNum.gt (bassBeat b) (Fin 0.4) && Qle_bool (emitCooldown b) 0.

Section Frame.

Variable pow : Q -> Q -> Q.
Variable random : nat -> Q.
Variables cos sin : Q -> Q.
Variable PI : Q.
Variable setHSL : Q -> Q -> Q -> vec3.

(** [emitParticles] on three numbers.  The particle engine stores
    rationals, so the call is modelled when the three numbers are
    finite ([None] otherwise); they are in every state the detector can
    reach from finite intensities. *)
Definition emitNumbers (count bassIntensity trebleIntensity : jsnum)
           (s : engine) : option engine :=
  match finite count, finite bassIntensity, finite trebleIntensity with
  | Some c, Some b, Some t =>
      Some (emitParticles random cos sin PI setHSL c b t s)
  | _, _, _ => None
  end.

(** The detector after [detectBeats] and the cooldown update of a
    frame. *)
Definition detected (t : tick) (w : wave) : beatDetectionVars :=
  let b := detectBeats pow (tickData t) (tickDelta t) (tickTime t)
                       (beat w) in
  set_emitCooldown (cooled (tickDelta t) b) b.

(** The burst on a bass beat. *)
Definition primaryEmission (st : engine * beatDetectionVars)
  : option (engine * beatDetectionVars) :=
  let '(s, b) := st in
  if primaryBurst b then
    match emitNumbers (floor (mul (Fin (emissionRate s)) (bassBeat b)))
                      (bassBeat b) (trebleBeat b) s with
    | Some s' => Some (s', set_emitCooldown 0.1 b)
    | None => None
    end
  else Some st.

(** "Smaller continuous emissions": [Math.random()] is only called
    when the treble intensity is above 0.5. *)
Definition trebleEmission (st : engine * beatDetectionVars)
  : option (engine * beatDetectionVars) :=
  let '(s, b) := st in
  if JsNum.gt (trebleBeat b) (Fin 0.5) then
    let r := random (draws s) in
    let s := set_draws (S (draws s)) s in
    if JsNum.lt (Fin r) (mul (trebleBeat b) (Fin 0.2)) then
      match emitNumbers (floor (mul (Fin 3) (trebleBeat b)))
                        (mul (bassBeat b) (Fin 0.4)) (trebleBeat b) s with
      | Some s' => Some (s', b)
      | None => None
      end
    else Some (s, b)
  else Some st.

(** The emission "with overall audio level". *)
Definition levelEmission (averageLevel : jsnum)
           (st : engine * beatDetectionVars)
  : option (engine * beatDetectionVars) :=
  let '(s, b) := st in
  let r := random (draws s) in
  let s := set_draws (S (draws s)) s in
  if JsNum.lt (Fin r) (mul averageLevel (Fin 0.1)) then
    match emitNumbers (floor (mul (Fin 2) averageLevel))
                      averageLevel averageLevel s with
    | Some s' => Some (s', b)
    | None => None
    end
  else Some (s, b).

(** [updateWaveVisualizer(delta)] on the spectrum [freqData], with
    the clock reading taken inside [detectBeats].  The exhibition frames
    and the camera, which [updateExhibitionSpace] and
    [updateExhibitionCamera] animate, are not part of the particle
    system. *)
Definition updateWaveVisualizer (t : tick) (w : wave) : option wave :=
  if negb (particleSystem w) then Some w
  else
    let s := set_time (double (time (pool w) + tickDelta t)) (pool w) in
    let b := detected t w in
    let averageLevel :=
      div (Fin (sumBins (tickData t)))
          (Fin (inject_Z (Bands.len (tickData t)))) in
    match primaryEmission (s, b) with
    | None => None
    | Some st =>
        match trebleEmission st with
        | None => None
        | Some st =>
            match levelEmission averageLevel st with
            | None => None
            | Some (s, b) =>
                Some (mkWave true
                             (updateParticles setHSL (tickDelta t) s) b)
            end
        end
    end.

(** The wave style after a sequence of frames. *)
Fixpoint runWave (ticks : list tick) (w : wave) : option wave :=
  match ticks with
  | [] => Some w
  | t :: rest =>
      match updateWaveVisualizer t w with
      | Some w' => runWave rest w'
      | None => None
      end
  end.

(** For each frame of a sequence, its frame time and whether the
    burst on a bass beat was emitted in it. *)
Fixpoint bursts (ticks : list tick) (w : wave) : list (Q * bool) :=
  match ticks with
  | [] => []
  | t :: rest =>
      (tickDelta t, particleSystem w && primaryBurst (detected t w))
        :: match updateWaveVisualizer t w with
           | Some w' => bursts rest w'
           | None => []
           end
  end.

End Frame.

(** Both beat intensities of the detector are finite. *)
Definition intensities_finite (b : beatDetectionVars) : Prop :=
  (exists x, bassBeat b = Fin x) /\ (exists y, trebleBeat b = Fin y).

(** A wave style at rest: the system is built, the detector holds no
    negative energy and both intensities are zero, and every slot of the
    pool is inactive. *)
Definition quiet (w : wave) : Prop :=
  particleSystem w = true /\ energies_nonneg (beat w) /\
  is_zero (bassBeat (beat w)) /\ is_zero (trebleBeat (beat w)) /\
  pool_ok (pool w) /\
  Forall (fun l => l < 0) (particleLifetimes (pool w)).


End WaveFrame.

(** * Properties *)

(** ** Facts about the band extraction *)

Module BandFacts.
Import Bands.

Lemma normalized_unit (b : byte) : 0 <= normalized b <= 1.
Proof.
  unfold normalized.
  pose proof (Byte.to_N_bounded b) as Hb.
  assert (H0 : 0 <= inject_Z (Z.of_N (to_N b))).
  { change 0 with (inject_Z 0). rewrite <- Zle_Qle. lia. }
  assert (H1 : inject_Z (Z.of_N (to_N b)) <= 255).
  { change 255 with (inject_Z 255). rewrite <- Zle_Qle. lia. }
  split.
  - apply Qle_shift_div_l; lra.
  - apply Qle_shift_div_r; lra.
Qed.

Lemma floor_fifth (n : Z) : Qfloor (inject_Z n * 0.2) = (n / 5)%Z.
Proof.
  rewrite Zdiv_Qdiv. apply Qfloor_comp.
  change (inject_Z 5) with 5. field.
Qed.

Lemma floor_three_fifths (n : Z) : Qfloor (inject_Z n * 0.6) = (3 * n / 5)%Z.
Proof.
  rewrite Zdiv_Qdiv. apply Qfloor_comp.
  rewrite inject_Z_mult. change (inject_Z 5) with 5. change (inject_Z 3) with 3. field.
Qed.

Lemma floor_third (n : Z) : Qfloor (inject_Z n / 3) = (n / 3)%Z.
Proof. rewrite Zdiv_Qdiv. reflexivity. Qed.

Lemma floor_two_thirds (n : Z) : Qfloor (inject_Z n * 2 / 3) = (n * 2 / 3)%Z.
Proof.
  rewrite Zdiv_Qdiv. apply Qfloor_comp.
  rewrite inject_Z_mult. reflexivity.
Qed.

(** Lifting integer inequalities to the rationals. *)
Lemma inj_le_plus1 (a b : Z) : (a + 1 <= b)%Z -> inject_Z a + 1 <= inject_Z b.
Proof.
  intros H. change 1 with (inject_Z 1). rewrite <- inject_Z_plus.
  rewrite <- Zle_Qle. exact H.
Qed.

Lemma inj_le (a b : Z) : (a <= b)%Z -> inject_Z a <= inject_Z b.
Proof. intros H. rewrite <- Zle_Qle. exact H. Qed.

Lemma shaderLoop_bounds (lm mh : Z) (data : list byte) :
  forall (i : Z) (a : acc),
    let a' := shaderLoop lm mh i data a in
    (lowFreq a <= lowFreq a' <= lowFreq a + inject_Z (cntLow lm i (len data))) /\
    (midFreq a <= midFreq a' <= midFreq a + inject_Z (cntMid lm mh i (len data))) /\
    (highFreq a <= highFreq a' <= highFreq a + inject_Z (cntHigh lm mh i (len data))) /\
    (overall a <= overall a' <= overall a + inject_Z (len data)).
Proof.
  induction data as [|b rest IH]; intros i a; cbn zeta.
  - cbn [shaderLoop].
    pose proof (inj_le 0 (cntLow lm i (len [])) ltac:(unfold cntLow; lia)) as H1.
    pose proof (inj_le 0 (cntMid lm mh i (len [])) ltac:(unfold cntMid; lia)) as H2.
    pose proof (inj_le 0 (cntHigh lm mh i (len [])) ltac:(unfold cntHigh; lia)) as H3.
    pose proof (inj_le 0 (len []) ltac:(unfold len; cbn [length]; lia)) as H4.
    change (inject_Z 0) with 0 in *. repeat split; lra.
  - cbn [shaderLoop]. cbn zeta.
    pose proof (normalized_unit b) as [Hn0 Hn1].
    assert (Hlen : len (b :: rest) = (len rest + 1)%Z) by (unfold len; cbn [length]; lia).
    assert (Hpos : (0 <= len rest)%Z) by (unfold len; lia).
    rewrite Hlen.
    destruct (Z.ltb_spec i lm) as [Hlt | Hge].
    + specialize (IH (i + 1)%Z
                     (mkAcc (lowFreq a + normalized b) (midFreq a) (highFreq a)
                            (overall a + normalized b))).
      cbn zeta in IH. cbn [lowFreq midFreq highFreq overall] in IH.
      destruct IH as ((L1 & L2) & (M1 & M2) & (H1 & H2) & (O1 & O2)).
      pose proof (inj_le_plus1 (cntLow lm (i + 1) (len rest)) (cntLow lm i (len rest + 1))
                    ltac:(unfold cntLow; lia)) as E1.
      pose proof (inj_le (cntMid lm mh (i + 1) (len rest)) (cntMid lm mh i (len rest + 1))
                    ltac:(unfold cntMid; lia)) as E2.
      pose proof (inj_le (cntHigh lm mh (i + 1) (len rest)) (cntHigh lm mh i (len rest + 1))
                    ltac:(unfold cntHigh; lia)) as E3.
      pose proof (inj_le_plus1 (len rest) (len rest + 1) ltac:(lia)) as E4.
      repeat split; lra.
    + destruct (Z.ltb_spec i mh) as [Hlt2 | Hge2].
      * specialize (IH (i + 1)%Z
                     (mkAcc (lowFreq a) (midFreq a + normalized b) (highFreq a)
                            (overall a + normalized b))).
        cbn zeta in IH. cbn [lowFreq midFreq highFreq overall] in IH.
        destruct IH as ((L1 & L2) & (M1 & M2) & (H1 & H2) & (O1 & O2)).
        pose proof (inj_le (cntLow lm (i + 1) (len rest)) (cntLow lm i (len rest + 1))
                      ltac:(unfold cntLow; lia)) as E1.
        pose proof (inj_le_plus1 (cntMid lm mh (i + 1) (len rest)) (cntMid lm mh i (len rest + 1))
                      ltac:(unfold cntMid; lia)) as E2.
        pose proof (inj_le (cntHigh lm mh (i + 1) (len rest)) (cntHigh lm mh i (len rest + 1))
                      ltac:(unfold cntHigh; lia)) as E3.
        pose proof (inj_le_plus1 (len rest) (len rest + 1) ltac:(lia)) as E4.
        repeat split; lra.
      * specialize (IH (i + 1)%Z
                     (mkAcc (lowFreq a) (midFreq a) (highFreq a + normalized b)
                            (overall a + normalized b))).
        cbn zeta in IH. cbn [lowFreq midFreq highFreq overall] in IH.
        destruct IH as ((L1 & L2) & (M1 & M2) & (H1 & H2) & (O1 & O2)).
        pose proof (inj_le (cntLow lm (i + 1) (len rest)) (cntLow lm i (len rest + 1))
                      ltac:(unfold cntLow; lia)) as E1.
        pose proof (inj_le (cntMid lm mh (i + 1) (len rest)) (cntMid lm mh i (len rest + 1))
                      ltac:(unfold cntMid; lia)) as E2.
        pose proof (inj_le_plus1 (cntHigh lm mh (i + 1) (len rest)) (cntHigh lm mh i (len rest + 1))
                      ltac:(unfold cntHigh; lia)) as E3.
        pose proof (inj_le_plus1 (len rest) (len rest + 1) ltac:(lia)) as E4.
        repeat split; lra.
Qed.

Lemma generalLoop_bounds (lc hs : Z) (data : list byte) :
  forall (i : Z) (a : gacc),
    let a' := generalLoop lc hs i data a in
    (averageLevel a <= averageLevel a' <= averageLevel a + inject_Z (len data)) /\
    (lowFreqAvg a <= lowFreqAvg a' <= lowFreqAvg a + inject_Z (cntLow lc i (len data))) /\
    (highFreqAvg a <= highFreqAvg a'
       <= highFreqAvg a + inject_Z (cntHigh lc hs i (len data))).
Proof.
  induction data as [|b rest IH]; intros i a; cbn zeta.
  - cbn [generalLoop].
    pose proof (inj_le 0 (cntLow lc i (len [])) ltac:(unfold cntLow; lia)) as H1.
    pose proof (inj_le 0 (cntHigh lc hs i (len [])) ltac:(unfold cntHigh; lia)) as H3.
    pose proof (inj_le 0 (len []) ltac:(unfold len; cbn [length]; lia)) as H4.
    change (inject_Z 0) with 0 in *. repeat split; lra.
  - cbn [generalLoop]. cbn zeta.
    pose proof (normalized_unit b) as [Hn0 Hn1].
    assert (Hlen : len (b :: rest) = (len rest + 1)%Z) by (unfold len; cbn [length]; lia).
    assert (Hpos : (0 <= len rest)%Z) by (unfold len; lia).
    rewrite Hlen.
    pose proof (inj_le_plus1 (len rest) (len rest + 1) ltac:(lia)) as E4.
    destruct (Z.ltb_spec i lc) as [Hlt | Hge];
      [| destruct (Z.leb_spec hs i) as [Hle2 | Hgt2]].
    all: match goal with
         | |- context [generalLoop _ _ _ _ ?a0] =>
             specialize (IH (i + 1)%Z a0)
         end;
         cbn zeta in IH; cbn [averageLevel lowFreqAvg highFreqAvg] in IH;
         destruct IH as ((A1 & A2) & (L1 & L2) & (H1 & H2)).
    + pose proof (inj_le_plus1 (cntLow lc (i + 1) (len rest)) (cntLow lc i (len rest + 1))
                    ltac:(unfold cntLow; lia)) as E1.
      pose proof (inj_le (cntHigh lc hs (i + 1) (len rest)) (cntHigh lc hs i (len rest + 1))
                    ltac:(unfold cntHigh; lia)) as E3.
      repeat split; lra.
    + pose proof (inj_le (cntLow lc (i + 1) (len rest)) (cntLow lc i (len rest + 1))
                    ltac:(unfold cntLow; lia)) as E1.
      pose proof (inj_le_plus1 (cntHigh lc hs (i + 1) (len rest)) (cntHigh lc hs i (len rest + 1))
                    ltac:(unfold cntHigh; lia)) as E3.
      repeat split; lra.
    + pose proof (inj_le (cntLow lc (i + 1) (len rest)) (cntLow lc i (len rest + 1))
                    ltac:(unfold cntLow; lia)) as E1.
      pose proof (inj_le (cntHigh lc hs (i + 1) (len rest)) (cntHigh lc hs i (len rest + 1))
                    ltac:(unfold cntHigh; lia)) as E3.
      repeat split; lra.
Qed.

Lemma normalized_zero : normalized x00 == 0.
Proof. reflexivity. Qed.

Lemma shaderLoop_silent (lm mh : Z) (data : list byte) :
  silent data ->
  forall (i : Z) (a : acc),
    let a' := shaderLoop lm mh i data a in
    lowFreq a' == lowFreq a /\ midFreq a' == midFreq a /\
    highFreq a' == highFreq a /\ overall a' == overall a.
Proof.
  induction 1 as [|b rest Hb _ IH]; intros i a; cbn zeta.
  - cbn [shaderLoop]. repeat split; reflexivity.
  - cbn [shaderLoop]. cbn zeta. subst b.
    pose proof normalized_zero as Hz.
    destruct (i <? lm)%Z; [| destruct (i <? mh)%Z].
    all: match goal with
         | |- context [shaderLoop _ _ _ _ ?a0] => specialize (IH (i + 1)%Z a0)
         end;
         cbn zeta in IH; cbn [lowFreq midFreq highFreq overall] in IH;
         destruct IH as (L & M & H & O); repeat split; lra.
Qed.

Lemma generalLoop_silent (lc hs : Z) (data : list byte) :
  silent data ->
  forall (i : Z) (a : gacc),
    let a' := generalLoop lc hs i data a in
    averageLevel a' == averageLevel a /\ lowFreqAvg a' == lowFreqAvg a /\
    highFreqAvg a' == highFreqAvg a.
Proof.
  induction 1 as [|b rest Hb _ IH]; intros i a; cbn zeta.
  - cbn [generalLoop]. repeat split; reflexivity.
  - cbn [generalLoop]. cbn zeta. subst b.
    pose proof normalized_zero as Hz.
    destruct (i <? lc)%Z; [| destruct (hs <=? i)%Z].
    all: match goal with
         | |- context [generalLoop _ _ _ _ ?a0] => specialize (IH (i + 1)%Z a0)
         end;
         cbn zeta in IH; cbn [averageLevel lowFreqAvg highFreqAvg] in IH;
         destruct IH as (A & L & H); repeat split; lra.
Qed.

(** A mean over a non-empty band: [x / d] with [0 <= x <= d], [0 < d]. *)
Lemma div_in_unit (x : Q) (d : Z) :
  (0 < d)%Z -> 0 <= x <= inject_Z d ->
  in_unit (div (Fin x) (Fin (inject_Z d))).
Proof.
  intros Hd [Hx0 Hx1]. unfold div.
  assert (Hq : 0 < inject_Z d) by (change 0 with (inject_Z 0); rewrite <- Zlt_Qlt; lia).
  destruct (Qeq_bool (inject_Z d) 0) eqn:E.
  - apply Qeq_bool_eq in E. lra.
  - cbn [in_unit]. split.
    + apply Qle_shift_div_l; lra.
    + apply Qle_shift_div_r; lra.
Qed.

Lemma div_is_zero (x : Q) (d : Z) :
  (0 < d)%Z -> x == 0 -> is_zero (div (Fin x) (Fin (inject_Z d))).
Proof.
  intros Hd Hx. unfold div, is_zero.
  assert (Hq : 0 < inject_Z d) by (change 0 with (inject_Z 0); rewrite <- Zlt_Qlt; lia).
  destruct (Qeq_bool (inject_Z d) 0) eqn:E.
  - apply Qeq_bool_eq in E. lra.
  - cbn [eqv]. rewrite Hx. field. lra.
Qed.

Lemma smooth_in_unit (s raw : jsnum) :
  in_unit s -> in_unit raw -> in_unit (smooth s raw).
Proof.
  intros Hs Hr. unfold smooth, or.
  destruct s as [x| | |]; try contradiction.
  destruct raw as [y| | |]; try contradiction.
  cbn [in_unit] in Hs, Hr. cbn [truthy].
  destruct (negb (Qeq_bool x 0)); cbn [sub neg add mul in_unit];
    unfold smoothingFactor; lra.
Qed.

Lemma smooth_zero (s raw : jsnum) :
  is_zero s -> is_zero raw -> is_zero (smooth s raw).
Proof.
  unfold is_zero. intros Hs Hr.
  destruct s as [x| | |]; try contradiction.
  destruct raw as [y| | |]; try contradiction.
  cbn [eqv] in Hs, Hr. unfold smooth, or. cbn [truthy].
  destruct (negb (Qeq_bool x 0)); cbn [sub neg add mul eqv];
    unfold smoothingFactor; lra.
Qed.

Local Ltac zdiv := Z.div_mod_to_equations; lia.

Lemma shaderRaw_unit (data : list byte) :
  (5 <= length data)%nat -> levels_in_unit (shaderRaw data).
Proof.
  intros Hn. unfold shaderRaw. cbn zeta.
  rewrite floor_fifth, floor_three_fifths.
  assert (HN : (5 <= len data)%Z) by (unfold len; lia).
  set (lm := (len data / 5)%Z). set (mh := (3 * len data / 5)%Z).
  assert (Hlm : (0 < lm)%Z) by (subst lm; zdiv).
  assert (Hmid : (0 < mh - lm)%Z) by (subst lm mh; zdiv).
  assert (Hhigh : (0 < len data - mh)%Z) by (subst mh; zdiv).
  pose proof (shaderLoop_bounds lm mh data 0 (mkAcc 0 0 0 0)) as B.
  cbn zeta in B. cbn [lowFreq midFreq highFreq overall] in B.
  replace (cntLow lm 0 (len data)) with lm in B by (unfold cntLow; lia).
  replace (cntMid lm mh 0 (len data)) with (mh - lm)%Z in B by (unfold cntMid; lia).
  replace (cntHigh lm mh 0 (len data)) with (len data - mh)%Z in B
    by (unfold cntHigh; lia).
  destruct B as ((L1 & L2) & (M1 & M2) & (H1 & H2) & (O1 & O2)).
  repeat split; cbn [low mid high level]; apply div_in_unit; try lia; split; lra.
Qed.

Lemma generalRaw_unit (data : list byte) :
  (3 <= length data)%nat -> glevels_in_unit (generalRaw data).
Proof.
  intros Hn. unfold generalRaw. cbn zeta.
  rewrite floor_third, floor_two_thirds.
  assert (HN : (3 <= len data)%Z) by (unfold len; lia).
  set (lc := (len data / 3)%Z). set (hs := (len data * 2 / 3)%Z).
  assert (Hlc : (0 < lc)%Z) by (subst lc; zdiv).
  assert (Hhigh : (0 < len data - hs)%Z) by (subst hs; zdiv).
  assert (Hord : (lc <= hs)%Z) by (subst lc hs; zdiv).
  pose proof (generalLoop_bounds lc hs data 0 (mkGacc 0 0 0)) as B.
  cbn zeta in B. cbn [averageLevel lowFreqAvg highFreqAvg] in B.
  replace (cntLow lc 0 (len data)) with lc in B by (unfold cntLow; lia).
  replace (cntHigh lc hs 0 (len data)) with (len data - hs)%Z in B
    by (unfold cntHigh; lia).
  destruct B as ((A1 & A2) & (L1 & L2) & (H1 & H2)).
  repeat split; cbn [gAverage gLow gHigh]; apply div_in_unit; try lia; split; lra.
Qed.

Lemma shaderRaw_silent (data : list byte) :
  (5 <= length data)%nat -> silent data -> levels_zero (shaderRaw data).
Proof.
  intros Hn Hs. unfold shaderRaw. cbn zeta.
  rewrite floor_fifth, floor_three_fifths.
  assert (HN : (5 <= len data)%Z) by (unfold len; lia).
  pose proof (shaderLoop_silent (len data / 5) (3 * len data / 5) data Hs 0
                (mkAcc 0 0 0 0)) as (L & M & H & O).
  cbn [lowFreq midFreq highFreq overall] in L, M, H, O.
  repeat split; cbn [low mid high level]; apply div_is_zero; solve [zdiv | assumption].
Qed.

Lemma generalRaw_silent (data : list byte) :
  (3 <= length data)%nat -> silent data -> glevels_zero (generalRaw data).
Proof.
  intros Hn Hs. unfold generalRaw. cbn zeta.
  rewrite floor_third, floor_two_thirds.
  assert (HN : (3 <= len data)%Z) by (unfold len; lia).
  pose proof (generalLoop_silent (len data / 3) (len data * 2 / 3) data Hs 0
                (mkGacc 0 0 0)) as (A & L & H).
  cbn [averageLevel lowFreqAvg highFreqAvg] in A, L, H.
  repeat split; cbn [gAverage gLow gHigh]; apply div_is_zero; solve [zdiv | assumption].
Qed.

(** C2, as the code has it: on a snapshot of at least five bins (the
    analyser arrays of the program hold 128) every raw band mean of both
    partition policies lies in [0,1], the exponentially smoothed levels stay
    in [0,1] when they were there before, and a silent snapshot gives zero
    raw means under both policies and zero smoothed levels from the reset
    state. *)
Theorem band_levels_unit_interval (data : list byte) (prev : levels) :
  (5 <= length data)%nat ->
  levels_in_unit prev ->
  levels_in_unit (shaderRaw data) /\
  levels_in_unit (shaderSmoothed prev data) /\
  glevels_in_unit (generalRaw data) /\
  (silent data ->
   levels_zero (shaderRaw data) /\
   levels_zero (shaderSmoothed zeroLevels data) /\
   glevels_zero (generalRaw data)).
Proof.
  intros Hn (P1 & P2 & P3 & P4).
  pose proof (shaderRaw_unit data Hn) as (R1 & R2 & R3 & R4).
  split; [repeat split; assumption |].
  split; [repeat split; cbn [shaderSmoothed low mid high level];
          apply smooth_in_unit; assumption |].
  split; [apply generalRaw_unit; lia |].
  intros Hs.
  pose proof (shaderRaw_silent data Hn Hs) as (Z1 & Z2 & Z3 & Z4).
  split; [repeat split; assumption |].
  split; [| apply generalRaw_silent; [lia | assumption]].
  repeat split; cbn [shaderSmoothed low mid high level zeroLevels];
    apply smooth_zero; solve [assumption | reflexivity].
Qed.

Lemma band_levels_unit_interval_witness :
  levels_in_unit (shaderRaw (repeat x00 128)) /\
  levels_in_unit (shaderSmoothed zeroLevels (repeat x00 128)) /\
  glevels_in_unit (generalRaw (repeat x00 128)) /\
  (silent (repeat x00 128) ->
   levels_zero (shaderRaw (repeat x00 128)) /\
   levels_zero (shaderSmoothed zeroLevels (repeat x00 128)) /\
   glevels_zero (generalRaw (repeat x00 128))).
Proof.
  apply (band_levels_unit_interval (repeat x00 128) zeroLevels).
  - rewrite repeat_length. lia.
  - unfold levels_in_unit, zeroLevels; cbn; repeat split; lra.
Defined.

(** C2 as stated fails on the empty snapshot: every mean is [0 / 0]. *)
Lemma empty_snapshot_not_a_number :
  shaderRaw [] = mkLevels NaN NaN NaN NaN /\
  shaderSmoothed zeroLevels [] = mkLevels NaN NaN NaN NaN /\
  generalRaw [] = mkGlevels NaN NaN NaN /\
  ~ levels_in_unit (shaderRaw []) /\
  ~ levels_zero (shaderRaw []) /\
  ~ glevels_in_unit (generalRaw []) /\
  ~ glevels_zero (generalRaw []) /\
  low (shaderRaw (repeat xff 4)) = NaN.
Proof.
  repeat split; try reflexivity.
  all: intros (H & _); exact H.
Qed.
End BandFacts.

(** ** Facts about the beat detector *)

Module BeatFacts.
Import Beat.

Lemma Qltb_lt (x y : Q) : Qltb x y = true <-> x < y.
Proof.
  unfold Qltb. rewrite negb_true_iff.
  split; intros H.
  - apply Qnot_le_lt. intros Hle. apply Qle_bool_iff in Hle. congruence.
  - destruct (Qle_bool y x) eqn:E; [| reflexivity].
    apply Qle_bool_iff in E. lra.
Qed.

Section WithPow.

Variable pow : Q -> Q -> Q.

Lemma step_hold (b : beatDetectionVars) (t : tick) :
  beatHoldTime (step pow b t) = beatHoldTime b.
Proof. reflexivity. Qed.

Lemma step_lastBeat (b : beatDetectionVars) (t : tick) :
  lastBeatTime (step pow b t) =
  if firesOn (tickData t) (tickTime t) b then tickTime t else lastBeatTime b.
Proof. reflexivity. Qed.

Lemma step_history (b : beatDetectionVars) (t : tick) :
  energyHistory (step pow b t) =
  pushEnergy (energyHistory b) (rawBass (tickData t)).
Proof. reflexivity. Qed.

Lemma fires_gap (data : list byte) (now : Q) (b : beatDetectionVars) :
  firesOn data now b = true -> beatHoldTime b < now - lastBeatTime b.
Proof.
  unfold firesOn, bassBeatFires. intros H.
  apply andb_true_iff in H as [_ H]. now apply Qltb_lt.
Qed.

(** Once the last beat is at [t0] or later, every later firing is more
    than the hold time after [t0]. *)
Lemma firings_after (ticks : list tick) :
  forall (b : beatDetectionVars) (t0 : Q) (j : nat) (tj : Q),
    0 <= beatHoldTime b ->
    t0 <= lastBeatTime b ->
    firings pow ticks b !! j = Some (tj, true) ->
    beatHoldTime b < tj - t0.
Proof.
  induction ticks as [|t rest IH]; intros b t0 j tj Hh Hl Hj.
  - destruct j; discriminate.
  - destruct j as [|j]; cbn [firings] in Hj.
    + injection Hj as Ht Hf. subst tj.
      apply fires_gap in Hf. lra.
    + cbn in Hj. rewrite <- (step_hold b t).
      apply (IH (step pow b t) t0 j tj).
      * rewrite step_hold. exact Hh.
      * rewrite step_lastBeat.
        destruct (firesOn (tickData t) (tickTime t) b) eqn:E; [| exact Hl].
        apply fires_gap in E. lra.
      * exact Hj.
Qed.

(** C6: after a bass beat fired at clock reading [ti], no later tick whose
    clock reading [tj] satisfies [tj - ti <= beatHoldTime] fires, whatever
    the spectra in between. *)
Theorem bass_beat_hold (ticks : list tick) :
  forall (b : beatDetectionVars) (i j : nat) (ti tj : Q) (fired : bool),
    0 <= beatHoldTime b ->
    (i < j)%nat ->
    firings pow ticks b !! i = Some (ti, true) ->
    firings pow ticks b !! j = Some (tj, fired) ->
    tj - ti <= beatHoldTime b ->
    fired = false.
Proof.
  induction ticks as [|t rest IH]; intros b i j ti tj fired Hh Hij Hi Hj Hgap.
  - destruct i; discriminate.
  - destruct j as [|j]; [lia |].
    destruct i as [|i]; cbn [firings] in Hi, Hj; cbn in Hi, Hj.
    + injection Hi as Ht Hf. subst ti.
      destruct fired; [| reflexivity].
      pose proof (firings_after rest (step pow b t) (tickTime t) j tj) as A.
      rewrite step_hold, step_lastBeat, Hf in A.
      specialize (A Hh ltac:(lra) Hj). lra.
    + apply (IH (step pow b t) i j ti tj fired);
        solve [assumption | lia].
Qed.

Lemma pushEnergy_length (h : list jsnum) (e : jsnum) :
  (length h <= 30)%nat ->
  (length (pushEnergy h e) <= 30)%nat /\
  (length h = 30%nat -> pushEnergy h e = tail h ++ [e]) /\
  (length h < 30 -> pushEnergy h e = h ++ [e])%nat.
Proof.
  intros Hl. unfold pushEnergy. cbn zeta.
  rewrite length_app. cbn [length].
  destruct (Nat.ltb_spec 30 (length h + 1)) as [Hgt | Hle].
  - assert (H30 : length h = 30%nat) by lia.
    destruct h as [|x h']; [discriminate |].
    cbn [tail app length] in *. rewrite length_app. cbn [length].
    split; [lia |]. split; [reflexivity | lia].
  - rewrite length_app. cbn [length].
    split; [lia |]. split; [lia | reflexivity].
Qed.

Lemma run_history_bounded (ticks : list tick) :
  forall b : beatDetectionVars,
    (length (energyHistory b) <= 30)%nat ->
    (length (energyHistory (run pow ticks b)) <= 30)%nat.
Proof.
  induction ticks as [|t rest IH]; intros b Hb; [exact Hb |].
  cbn [run fold_left]. apply IH. rewrite step_history.
  now apply pushEnergy_length.
Qed.

(** C7: from a history of at most 30 entries, the history holds at most
    30 entries after any number of ticks; a tick on a full history drops
    its oldest entry and appends the current bass energy, a tick on a
    shorter one only appends. *)
Theorem energy_history_bounded_fifo
        (b : beatDetectionVars) (ticks : list tick) (t : tick) :
  (length (energyHistory b) <= 30)%nat ->
  let b1 := run pow ticks b in
  let b2 := step pow b1 t in
  (length (energyHistory b1) <= 30)%nat /\
  (length (energyHistory b2) <= 30)%nat /\
  (length (energyHistory b1) = 30%nat ->
   energyHistory b2 = tail (energyHistory b1) ++ [rawBass (tickData t)]) /\
  (length (energyHistory b1) < 30 ->
   energyHistory b2 = energyHistory b1 ++ [rawBass (tickData t)])%nat.
Proof.
  intros Hb b1 b2.
  pose proof (run_history_bounded ticks b Hb) as H1. fold b1 in H1.
  subst b2. rewrite step_history.
  pose proof (pushEnergy_length (energyHistory b1) (rawBass (tickData t)) H1)
    as (P1 & P2 & P3).
  repeat split; assumption.
Qed.

Lemma pushEnergy_full (h : list jsnum) (e : jsnum) :
  length h = 30%nat -> length (pushEnergy h e) = 30%nat.
Proof.
  intros Hl.
  pose proof (pushEnergy_length h e ltac:(lia)) as (_ & P & _).
  rewrite (P Hl). rewrite length_app. cbn [length].
  destruct h; [discriminate |]. cbn [tail length] in *. lia.
Qed.

Lemma run_history_full (ticks : list tick) :
  forall b : beatDetectionVars,
    length (energyHistory b) = 30%nat ->
    length (energyHistory (run pow ticks b)) = 30%nat.
Proof.
  induction ticks as [|t rest IH]; intros b Hb; [exact Hb |].
  cbn [run fold_left]. apply IH. rewrite step_history.
  now apply pushEnergy_full.
Qed.

(** C10: the history starts as 30 zeros; every tick appends the
    current bass energy at the end and evicts the oldest entry at the
    front, one push and one eviction, so the history holds exactly 30
    entries before and after every tick; the average energy of the tick
    is taken over the history that already holds the new entry, and its
    divisor is 30, never zero. *)
Theorem energy_history_always_full (ticks : list tick) (t : tick) :
  energyHistory initialBeat = repeat (Fin 0) 30 /\
  let b := run pow ticks initialBeat in
  let h := energyHistory (step pow b t) in
  length (energyHistory b) = 30%nat /\
  h = tail (energyHistory b) ++ [rawBass (tickData t)] /\
  (exists oldest : jsnum,
      energyHistory b ++ [rawBass (tickData t)] = oldest :: h) /\
  length h = 30%nat /\
  firesOn (tickData t) (tickTime t) b
  = bassBeatFires b h (rawBass (tickData t)) (tickTime t) /\
  averageEnergy h = div (fold_left add h (Fin 0)) (Fin 30) /\
  averageDivisor h == 30 /\
  ~ averageDivisor h == 0.
Proof.
  split; [reflexivity |]. cbn zeta.
  pose proof (run_history_full ticks initialBeat eq_refl) as Hb.
  pose proof (pushEnergy_full _ (rawBass (tickData t)) Hb) as Hh.
  pose proof (pushEnergy_length (energyHistory (run pow ticks initialBeat))
                                (rawBass (tickData t)) ltac:(lia))
    as (_ & P & _).
  specialize (P Hb).
  rewrite step_history.
  split; [exact Hb |].
  split; [exact P |].
  split.
  { rewrite P.
    destruct (energyHistory (run pow ticks initialBeat)) as [|x r];
      [discriminate |].
    now exists x. }
  split; [exact Hh |].
  split; [reflexivity |].
  split; [unfold averageEnergy, averageDivisor; now rewrite Hh |].
  split.
  - unfold averageDivisor. rewrite Hh. reflexivity.
  - unfold averageDivisor. rewrite Hh. intros H. discriminate H.
Qed.

End WithPow.

Lemma bass_beat_hold_witness :
  let ticks := [mkTick bassSpike 0.016 1; mkTick bassSpike 0.016 1.1] in
  let pow := fun _ _ : Q => 1 in
  0 <= beatHoldTime initialBeat /\
  firings pow ticks initialBeat !! 0%nat = Some (1, true) /\
  firings pow ticks initialBeat !! 1%nat = Some (1.1, false) /\
  1.1 - 1 <= beatHoldTime initialBeat /\
  false = false.
Proof.
  cbn zeta.
  assert (H0 : 0 <= beatHoldTime initialBeat) by (cbn; lra).
  assert (H1 : 1.1 - 1 <= beatHoldTime initialBeat) by (cbn; lra).
  split; [exact H0 |].
  split; [vm_compute; reflexivity |].
  split; [vm_compute; reflexivity |].
  split; [exact H1 |].
  apply (bass_beat_hold (fun _ _ => 1)
           [mkTick bassSpike 0.016 1; mkTick bassSpike 0.016 1.1]
           initialBeat 0 1 1 1.1 false);
    try assumption; try lia; vm_compute; reflexivity.
Defined.

Lemma energy_history_bounded_fifo_witness :
  let pow := fun _ _ : Q => 1 in
  let t := mkTick bassSpike 0.016 1 in
  let b1 := run pow [t] initialBeat in
  let b2 := step pow b1 t in
  (length (energyHistory b1) <= 30)%nat /\
  (length (energyHistory b2) <= 30)%nat /\
  (length (energyHistory b1) = 30%nat ->
   energyHistory b2 = tail (energyHistory b1) ++ [rawBass (tickData t)]) /\
  (length (energyHistory b1) < 30 ->
   energyHistory b2 = energyHistory b1 ++ [rawBass (tickData t)])%nat.
Proof.
  apply (energy_history_bounded_fifo (fun _ _ => 1) initialBeat
           [mkTick bassSpike 0.016 1] (mkTick bassSpike 0.016 1)).
  vm_compute. lia.
Defined.

End BeatFacts.

(** ** Rounding *)

Module FloatFacts.
Import Float.
Import BeatFacts.

Lemma Qltb_false (x y : Q) : Qltb x y = false <-> y <= x.
Proof.
  unfold Qltb. rewrite Bool.negb_false_iff. apply Qle_bool_iff.
Qed.

Lemma two_pow_pos (e : Z) : 0 < 2 ^ e.
Proof. apply Qpower_0_lt. reflexivity. Qed.

Lemma two_pow_le (a b : Z) : (a <= b)%Z -> 2 ^ a <= 2 ^ b.
Proof. intros H. apply Qpower_le_compat_l; [exact H | discriminate]. Qed.

Lemma two_pow_plus (a b : Z) : 2 ^ (a + b) == 2 ^ a * 2 ^ b.
Proof. apply Qpower_plus. discriminate. Qed.

Lemma two_pow_Z (k : Z) : (0 <= k)%Z -> 2 ^ k == inject_Z (2 ^ k).
Proof. intros H. symmetry. apply (Zpower_Qpower 2 k H). Qed.

Lemma inject_Z_gt0 (n : Z) : (0 < n)%Z -> 0 < inject_Z n.
Proof. intros H. unfold Qlt. cbn. lia. Qed.

Lemma inject_Z_ge0 (n : Z) : (0 <= n)%Z -> 0 <= inject_Z n.
Proof. intros H. unfold Qle. cbn. lia. Qed.

Lemma Qdiv_le_cross (a b c d : Q) :
  0 < b -> 0 < d -> a * d <= c * b -> a / b <= c / d.
Proof.
  intros Hb Hd H. apply Qle_shift_div_r; [exact Hb|].
  setoid_replace (c / d * b) with (c * b / d) using relation Qeq
    by (field; lra).
  apply Qle_shift_div_l; [exact Hd | exact H].
Qed.

Lemma Qdiv_lt_cross (a b c d : Q) :
  0 < b -> 0 < d -> a * d < c * b -> a / b < c / d.
Proof.
  intros Hb Hd H. apply Qlt_shift_div_r; [exact Hb|].
  setoid_replace (c / d * b) with (c * b / d) using relation Qeq
    by (field; lra).
  apply Qlt_shift_div_l; [exact Hd | exact H].
Qed.

(** [ilog2] is the exponent of the binade. *)
Lemma ilog2_spec (x : Q) :
  0 < x -> 2 ^ ilog2 x <= x /\ x < 2 ^ (ilog2 x + 1).
Proof.
  destruct x as [n d]. intros Hx.
  assert (Hn : (0 < n)%Z).
  { unfold Qlt in Hx. cbn in Hx. lia. }
  unfold ilog2. cbn [Qnum Qden].
  set (ln := Z.log2 n). set (ld := Z.log2 (Z.pos d)).
  destruct (Z.log2_spec n Hn) as [Ln Un]. fold ln in Ln, Un.
  destruct (Z.log2_spec (Z.pos d) ltac:(lia)) as [Ld Ud]. fold ld in Ld, Ud.
  assert (Hln : (0 <= ln)%Z) by apply Z.log2_nonneg.
  assert (Hld : (0 <= ld)%Z) by apply Z.log2_nonneg.
  assert (En : n # d == inject_Z n / inject_Z (Z.pos d))
    by apply Qmake_Qdiv.
  assert (Pd : 0 < inject_Z (Z.pos d)) by reflexivity.
  assert (Upper : n # d < 2 ^ (ln - ld + 1)).
  { replace (ln - ld + 1)%Z with (Z.succ ln - ld)%Z by lia.
    rewrite Qpower_minus by discriminate.
    rewrite (two_pow_Z (Z.succ ln)), (two_pow_Z ld) by lia.
    rewrite En. apply Qdiv_lt_cross.
    - exact Pd.
    - apply inject_Z_gt0. lia.
    - rewrite <- !inject_Z_mult, <- Zlt_Qlt. nia. }
  assert (Lower : 2 ^ (ln - ld - 1) <= n # d).
  { replace (ln - ld - 1)%Z with (ln - Z.succ ld)%Z by lia.
    rewrite Qpower_minus by discriminate.
    rewrite (two_pow_Z ln), (two_pow_Z (Z.succ ld)) by lia.
    rewrite En. apply Qdiv_le_cross.
    - apply inject_Z_gt0. lia.
    - exact Pd.
    - rewrite <- !inject_Z_mult, <- Zle_Qle. nia. }
  destruct (Qle_bool (2 ^ (ln - ld)) (n # d)) eqn:E.
  - apply Qle_bool_iff in E. split; [exact E | exact Upper].
  - split; [exact Lower|].
    replace (ln - ld - 1 + 1)%Z with (ln - ld)%Z by lia.
    apply Qnot_le_lt. intros H. apply Qle_bool_iff in H. congruence.
Qed.

Lemma ilog2_unique (x : Q) (k : Z) :
  2 ^ k <= x -> x < 2 ^ (k + 1) -> ilog2 x = k.
Proof.
  intros L U.
  assert (Hx : 0 < x) by (pose proof (two_pow_pos k); lra).
  destruct (ilog2_spec x Hx) as [L' U'].
  destruct (Z.lt_trichotomy (ilog2 x) k) as [H | [H | H]]; [|exact H|].
  - pose proof (two_pow_le (ilog2 x + 1) k ltac:(lia)). lra.
  - pose proof (two_pow_le (k + 1) (ilog2 x) ltac:(lia)). lra.
Qed.

Lemma ilog2_mono (x y : Q) : 0 < x -> x <= y -> (ilog2 x <= ilog2 y)%Z.
Proof.
  intros Hx Hxy.
  destruct (ilog2_spec x Hx) as [Lx Ux].
  destruct (ilog2_spec y ltac:(lra)) as [Ly Uy].
  destruct (Z_le_gt_dec (ilog2 x) (ilog2 y)) as [H | H]; [exact H|].
  pose proof (two_pow_le (ilog2 y + 1) (ilog2 x) ltac:(lia)). lra.
Qed.

Lemma nearestEven_floor (x : Q) :
  (Qfloor x <= nearestEven x <= Qfloor x + 1)%Z.
Proof.
  unfold nearestEven.
  destruct (Qltb _ _); [lia|]. destruct (Qltb _ _); [lia|].
  destruct (Z.even _); lia.
Qed.

Lemma nearestEven_mono (x y : Q) :
  x <= y -> (nearestEven x <= nearestEven y)%Z.
Proof.
  intros Hxy.
  pose proof (Qfloor_resp_le x y Hxy) as Hf.
  pose proof (nearestEven_floor x) as Bx.
  pose proof (nearestEven_floor y) as By.
  destruct (Z.eq_dec (Qfloor x) (Qfloor y)) as [E | N]; [|lia].
  unfold nearestEven in *. rewrite <- E in *.
  set (f := Qfloor x) in *.
  destruct (Qltb (y - inject_Z f) (1 # 2)) eqn:Y1.
  - apply Qltb_lt in Y1.
    assert (X1 : Qltb (x - inject_Z f) (1 # 2) = true)
      by (apply Qltb_lt; lra).
    rewrite X1. lia.
  - destruct (Qltb (1 # 2) (y - inject_Z f)) eqn:Y2.
    + destruct (Qltb (x - inject_Z f) (1 # 2)); [lia|].
      destruct (Qltb (1 # 2) (x - inject_Z f)); [lia|].
      destruct (Z.even f); lia.
    + apply Qltb_false in Y1, Y2.
      destruct (Qltb (x - inject_Z f) (1 # 2)); [destruct (Z.even f); lia|].
      assert (X2 : Qltb (1 # 2) (x - inject_Z f) = false)
        by (apply Qltb_false; lra).
      rewrite X2. lia.
Qed.

Lemma nearestEven_Z (n : Z) : nearestEven (inject_Z n) = n.
Proof.
  unfold nearestEven. rewrite Qfloor_Z.
  assert (E : Qltb (inject_Z n - inject_Z n) (1 # 2) = true)
    by (apply Qltb_lt; lra).
  now rewrite E.
Qed.

Lemma nearestEven_ge (n : Z) (x : Q) :
  inject_Z n <= x -> (n <= nearestEven x)%Z.
Proof.
  intros H. pose proof (nearestEven_mono _ _ H) as M.
  now rewrite nearestEven_Z in M.
Qed.

Lemma nearestEven_le (n : Z) (x : Q) :
  x <= inject_Z n -> (nearestEven x <= n)%Z.
Proof.
  intros H. pose proof (nearestEven_mono _ _ H) as M.
  now rewrite nearestEven_Z in M.
Qed.

(** The nearest integer is at most one half away. *)
Lemma nearestEven_error (x : Q) :
  - (1 # 2) <= inject_Z (nearestEven x) - x <= 1 # 2.
Proof.
  unfold nearestEven.
  pose proof (Qfloor_le x) as L. pose proof (Qlt_floor x) as U.
  rewrite inject_Z_plus in U. change (inject_Z 1) with 1 in U.
  destruct (Qltb (x - inject_Z (Qfloor x)) (1 # 2)) eqn:E1.
  { apply Qltb_lt in E1. lra. }
  apply Qltb_false in E1.
  destruct (Qltb (1 # 2) (x - inject_Z (Qfloor x))) eqn:E2.
  { rewrite inject_Z_plus. change (inject_Z 1) with 1. lra. }
  apply Qltb_false in E2.
  destruct (Z.even (Qfloor x)); [lra|].
  rewrite inject_Z_plus. change (inject_Z 1) with 1. lra.
Qed.

Section Format.

Variables prec emin : Z.
Hypothesis prec_pos : (1 <= prec)%Z.

Local Abbreviation E := (ulpExponent prec emin).
Local Abbreviation rp := (roundPos prec emin).

Lemma ulpExponent_mono (a b : Q) : 0 < a -> a <= b -> (E a <= E b)%Z.
Proof.
  intros Ha Hab. unfold ulpExponent.
  pose proof (ilog2_mono a b Ha Hab). lia.
Qed.

Lemma scaled_lt (a : Q) : 0 < a -> a / 2 ^ E a < inject_Z (2 ^ prec).
Proof.
  intros Ha. rewrite <- two_pow_Z by lia.
  apply Qlt_shift_div_r; [apply two_pow_pos|].
  rewrite <- two_pow_plus.
  destruct (ilog2_spec a Ha) as [_ U].
  eapply Qlt_le_trans; [exact U|].
  apply two_pow_le. unfold ulpExponent. lia.
Qed.

Lemma scaled_ge (a : Q) :
  0 < a -> E a = (ilog2 a - (prec - 1))%Z ->
  inject_Z (2 ^ (prec - 1)) <= a / 2 ^ E a.
Proof.
  intros Ha HE. rewrite <- two_pow_Z by lia.
  apply Qle_shift_div_l; [apply two_pow_pos|].
  rewrite <- two_pow_plus, HE.
  replace (prec - 1 + (ilog2 a - (prec - 1)))%Z with (ilog2 a) by lia.
  apply (ilog2_spec a Ha).
Qed.

Lemma roundPos_nonneg (a : Q) : 0 < a -> 0 <= rp a.
Proof.
  intros Ha. unfold roundPos.
  apply Qmult_le_0_compat; [|apply Qlt_le_weak, two_pow_pos].
  apply inject_Z_ge0, nearestEven_ge. change (inject_Z 0) with 0.
  apply Qle_shift_div_l; [apply two_pow_pos | rewrite Qmult_0_l; lra].
Qed.

Lemma roundPos_le_pow (a : Q) : 0 < a -> rp a <= 2 ^ (prec + E a).
Proof.
  intros Ha. unfold roundPos. rewrite two_pow_plus.
  apply Qmult_le_compat_r; [|apply Qlt_le_weak, two_pow_pos].
  rewrite (two_pow_Z prec) by lia. rewrite <- Zle_Qle.
  apply nearestEven_le, Qlt_le_weak, scaled_lt, Ha.
Qed.

Lemma roundPos_ge_pow (a : Q) :
  0 < a -> E a = (ilog2 a - (prec - 1))%Z ->
  2 ^ (prec - 1 + E a) <= rp a.
Proof.
  intros Ha HE. unfold roundPos. rewrite two_pow_plus.
  apply Qmult_le_compat_r; [|apply Qlt_le_weak, two_pow_pos].
  rewrite (two_pow_Z (prec - 1)) by lia. rewrite <- Zle_Qle.
  now apply nearestEven_ge, scaled_ge.
Qed.

Lemma roundPos_mono (a b : Q) : 0 < a -> a <= b -> rp a <= rp b.
Proof.
  intros Ha Hab.
  assert (Hb : 0 < b) by lra.
  pose proof (ulpExponent_mono a b Ha Hab) as HE.
  destruct (Z.eq_dec (E a) (E b)) as [Eq | Ne].
  - unfold roundPos. rewrite Eq.
    apply Qmult_le_compat_r; [|apply Qlt_le_weak, two_pow_pos].
    rewrite <- Zle_Qle. apply nearestEven_mono.
    apply Qdiv_le_cross; try apply two_pow_pos.
    pose proof (two_pow_pos (E b)). nra.
  - assert (HEb : E b = (ilog2 b - (prec - 1))%Z).
    { unfold ulpExponent in *. lia. }
    eapply Qle_trans; [apply (roundPos_le_pow a Ha)|].
    eapply Qle_trans; [|apply (roundPos_ge_pow b Hb HEb)].
    apply two_pow_le. lia.
Qed.

(** Rounding moves a positive number by at most half a unit in the
    last place. *)
Lemma roundPos_error (a : Q) :
  0 < a -> - 2 ^ (E a - 1) <= rp a - a <= 2 ^ (E a - 1).
Proof.
  intros Ha. unfold roundPos.
  pose proof (nearestEven_error (a / 2 ^ E a)) as [L U].
  pose proof (two_pow_pos (E a)) as P.
  assert (Half : 2 ^ (E a - 1) == (1 # 2) * 2 ^ E a).
  { rewrite Qpower_minus by discriminate. cbn. field. }
  assert (D : inject_Z (nearestEven (a / 2 ^ E a)) * 2 ^ E a - a
              == (inject_Z (nearestEven (a / 2 ^ E a)) - a / 2 ^ E a)
                 * 2 ^ E a).
  { field. intros H. rewrite H in P. lra. }
  rewrite D, Half.
  set (d := inject_Z (nearestEven (a / 2 ^ E a)) - a / 2 ^ E a) in *.
  split; nra.
Qed.

Lemma ilog2_comp (a b : Q) : 0 < a -> a == b -> ilog2 a = ilog2 b.
Proof.
  intros Ha Hab. symmetry.
  destruct (ilog2_spec a Ha) as [L U].
  apply ilog2_unique; now rewrite <- Hab.
Qed.

Lemma nearestEven_comp (x y : Q) :
  x == y -> nearestEven x = nearestEven y.
Proof.
  intros H. apply Z.le_antisymm; apply nearestEven_mono; lra.
Qed.

Lemma roundPos_comp (a b : Q) : 0 < a -> a == b -> rp a == rp b.
Proof.
  intros Ha Hab. unfold roundPos, ulpExponent.
  rewrite (ilog2_comp a b Ha Hab).
  rewrite (nearestEven_comp (a / 2 ^ Z.max (ilog2 b - (prec - 1)) emin)
                            (b / 2 ^ Z.max (ilog2 b - (prec - 1)) emin)).
  - reflexivity.
  - now rewrite Hab.
Qed.

Lemma roundTo_proper (x y : Q) :
  x == y -> roundTo prec emin x = roundTo prec emin y.
Proof.
  intros H. unfold roundTo. now rewrite (Qred_complete x y H).
Qed.

Lemma roundTo_cases (x : Q) :
  (x == 0 /\ roundTo prec emin x = 0) \/
  (x < 0 /\ roundTo prec emin x == - rp (- x)) \/
  (0 < x /\ roundTo prec emin x == rp x).
Proof.
  unfold roundTo.
  assert (R : Qred x == x) by apply Qred_correct.
  destruct (Qeq_bool (Qred x) 0) eqn:E0.
  { left. apply Qeq_bool_eq in E0. split; [lra | reflexivity]. }
  apply Qeq_bool_neq in E0. right.
  destruct (Qltb (Qred x) 0) eqn:E1.
  - left. apply Qltb_lt in E1. split; [lra|].
    rewrite Qred_correct.
    rewrite (roundPos_comp (- Qred x) (- x)); [reflexivity | lra |].
    now rewrite R.
  - right. apply Qltb_false in E1. split; [lra|].
    rewrite Qred_correct. apply roundPos_comp; [lra | exact R].
Qed.

Lemma roundTo_nonneg (x : Q) : 0 <= x -> 0 <= roundTo prec emin x.
Proof.
  intros Hx.
  destruct (roundTo_cases x) as [[_ ->] | [[H _] | [H ->]]];
    [lra | lra | now apply roundPos_nonneg].
Qed.

Lemma roundTo_nonpos (x : Q) : x <= 0 -> roundTo prec emin x <= 0.
Proof.
  intros Hx.
  destruct (roundTo_cases x) as [[_ ->] | [[H ->] | [H _]]];
    [lra | | lra].
  pose proof (roundPos_nonneg (- x) ltac:(lra)). lra.
Qed.

(** Rounding keeps the order. *)
Lemma roundTo_mono (x y : Q) :
  x <= y -> roundTo prec emin x <= roundTo prec emin y.
Proof.
  intros Hxy.
  destruct (Qlt_le_dec y 0) as [Yneg | Ypos].
  - destruct (roundTo_cases x) as [[H _] | [[Hx ->] | [H _]]];
      [lra | | lra].
    destruct (roundTo_cases y) as [[H _] | [[Hy ->] | [H _]]];
      [lra | | lra].
    pose proof (roundPos_mono (- y) (- x) ltac:(lra) ltac:(lra)). lra.
  - destruct (Qlt_le_dec x 0) as [Xneg | Xpos].
    + pose proof (roundTo_nonpos x ltac:(lra)).
      pose proof (roundTo_nonneg y Ypos). lra.
    + destruct (roundTo_cases x) as [[_ ->] | [[H _] | [Hx ->]]];
        [now apply roundTo_nonneg | lra |].
      destruct (roundTo_cases y) as [[H _] | [[H _] | [Hy ->]]];
        [lra | lra |].
      now apply roundPos_mono.
Qed.

(** A bound that is a number of the format survives rounding. *)
Lemma roundTo_le (x c : Q) :
  roundTo prec emin c == c -> x <= c -> roundTo prec emin x <= c.
Proof. intros Hc H. rewrite <- Hc. now apply roundTo_mono. Qed.

Lemma roundTo_ge (x c : Q) :
  roundTo prec emin c == c -> c <= x -> c <= roundTo prec emin x.
Proof. intros Hc H. rewrite <- Hc. now apply roundTo_mono. Qed.

(** A number of the format rounds to itself: rounding is idempotent. *)
Lemma roundPos_exact (n e : Z) :
  (0 < n <= 2 ^ prec)%Z -> (emin <= e)%Z ->
  (n < 2 ^ (prec - 1) -> e = emin)%Z ->
  rp (inject_Z n * 2 ^ e) == inject_Z n * 2 ^ e.
Proof.
  intros Hn He Hsub.
  pose proof (two_pow_pos e) as Pe.
  assert (Pn : 0 < inject_Z n) by (apply inject_Z_gt0; lia).
  assert (Pa : 0 < inject_Z n * 2 ^ e) by nra.
  destruct (Z.eq_dec n (2 ^ prec)%Z) as [Top | NotTop].
  - (* the significand carries into the next binade *)
    assert (A : inject_Z n * 2 ^ e == 2 ^ (prec + e)).
    { rewrite Top, <- two_pow_Z by lia. now rewrite two_pow_plus. }
    rewrite (roundPos_comp _ _ Pa A).
    assert (L : ilog2 (2 ^ (prec + e)) = (prec + e)%Z).
    { apply ilog2_unique; [lra|].
      apply Qpower_lt_compat_l; [lia | reflexivity]. }
    unfold roundPos, ulpExponent. rewrite L.
    replace (Z.max (prec + e - (prec - 1)) emin) with (e + 1)%Z by lia.
    rewrite (nearestEven_comp _ (inject_Z (2 ^ (prec - 1)))).
    + rewrite nearestEven_Z, <- two_pow_Z, <- two_pow_plus by lia.
      rewrite A. now replace (prec - 1 + (e + 1))%Z with (prec + e)%Z by lia.
    + rewrite <- two_pow_Z by lia.
      replace (prec + e)%Z with (prec - 1 + (e + 1))%Z by lia.
      rewrite two_pow_plus. field.
      pose proof (two_pow_pos (e + 1)) as P1. intros H. rewrite H in P1. lra.
  - assert (Ee : E (inject_Z n * 2 ^ e) = e).
    { unfold ulpExponent.
      destruct (Z_lt_le_dec n (2 ^ (prec - 1))%Z) as [Sub | Norm].
      - (* subnormal *)
        rewrite (Hsub Sub) in *.
        assert (ilog2 (inject_Z n * 2 ^ emin) < prec - 1 + emin)%Z; [|lia].
        destruct (ilog2_spec _ Pa) as [L _].
        apply (Qpower_lt_compat_l_inv 2); [|reflexivity].
        eapply Qle_lt_trans; [exact L|].
        rewrite two_pow_plus.
        apply Qmult_lt_compat_r; [exact Pe|].
        rewrite two_pow_Z by lia. rewrite <- Zlt_Qlt. exact Sub.
      - assert (ilog2 (inject_Z n * 2 ^ e) = prec - 1 + e)%Z; [|lia].
        apply ilog2_unique.
        + rewrite two_pow_plus.
          apply Qmult_le_compat_r; [|lra].
          rewrite two_pow_Z by lia. rewrite <- Zle_Qle. exact Norm.
        + replace (prec - 1 + e + 1)%Z with (prec + e)%Z by lia.
          rewrite two_pow_plus.
          apply Qmult_lt_compat_r; [exact Pe|].
          rewrite two_pow_Z by lia. rewrite <- Zlt_Qlt. lia. }
    unfold roundPos. rewrite Ee.
    rewrite (nearestEven_comp _ (inject_Z n)).
    + now rewrite nearestEven_Z.
    + field. intros H. rewrite H in Pe. lra.
Qed.

Lemma roundPos_idem (a : Q) : 0 < a -> 0 < rp a -> rp (rp a) == rp a.
Proof.
  intros Ha Hr.
  set (n := nearestEven (a / 2 ^ E a)).
  assert (Rp : rp a == inject_Z n * 2 ^ E a) by reflexivity.
  pose proof (two_pow_pos (E a)) as P.
  assert (Hn : (0 < n <= 2 ^ prec)%Z).
  { split.
    - destruct (Z_lt_le_dec 0 n) as [H | H]; [exact H|].
      assert (inject_Z n <= 0) by (unfold Qle; cbn; lia). nra.
    - apply nearestEven_le, Qlt_le_weak, scaled_lt, Ha. }
  rewrite (roundPos_comp _ _ Hr Rp), Rp.
  apply roundPos_exact; [exact Hn | unfold ulpExponent; lia |].
  intros Sub.
  destruct (Z.eq_dec (E a) emin) as [H | H]; [exact H|].
  assert (HE : E a = (ilog2 a - (prec - 1))%Z)
    by (unfold ulpExponent in *; lia).
  pose proof (nearestEven_ge _ _ (scaled_ge a Ha HE)). fold n in H0. lia.
Qed.

Lemma roundTo_red (x : Q) : Qred (roundTo prec emin x) = roundTo prec emin x.
Proof.
  unfold roundTo. destruct (Qeq_bool _ _); [reflexivity|].
  destruct (Qltb _ _); apply Qred_complete, Qred_correct.
Qed.

Lemma roundTo_eq (x y : Q) :
  roundTo prec emin x == roundTo prec emin y ->
  roundTo prec emin x = roundTo prec emin y.
Proof.
  intros H. rewrite <- (roundTo_red x), <- (roundTo_red y).
  now apply Qred_complete.
Qed.

Lemma roundTo_zero (x : Q) : x == 0 -> roundTo prec emin x = 0.
Proof. intros H. now rewrite (roundTo_proper x 0 H). Qed.

(** A rounded number is a number of the format: rounding it again
    changes nothing. *)
Lemma roundTo_idem (x : Q) :
  roundTo prec emin (roundTo prec emin x) = roundTo prec emin x.
Proof.
  destruct (roundTo_cases x) as [[_ R] | [[Hx R] | [Hx R]]].
  - rewrite R. reflexivity.
  - pose proof (roundPos_nonneg (- x) ltac:(lra)) as N.
    destruct (Qlt_le_dec 0 (rp (- x))) as [Pos | Zero].
    + apply roundTo_eq.
      destruct (roundTo_cases (roundTo prec emin x))
        as [[H _] | [[_ R'] | [H _]]]; [lra | | lra].
      rewrite R'.
      rewrite (roundPos_comp (- roundTo prec emin x) (rp (- x)));
        [| lra | lra].
      rewrite roundPos_idem by lra. lra.
    + assert (Z0 : roundTo prec emin x == 0) by lra.
      rewrite (roundTo_zero _ Z0). symmetry.
      rewrite <- (roundTo_red x). now apply (Qred_complete _ 0).
  - pose proof (roundPos_nonneg x Hx) as N.
    destruct (Qlt_le_dec 0 (rp x)) as [Pos | Zero].
    + apply roundTo_eq.
      destruct (roundTo_cases (roundTo prec emin x))
        as [[H _] | [[H _] | [_ R']]]; [lra | lra |].
      rewrite R'.
      rewrite (roundPos_comp (roundTo prec emin x) (rp x)); [| lra | lra].
      rewrite roundPos_idem by lra. lra.
    + assert (Z0 : roundTo prec emin x == 0) by lra.
      rewrite (roundTo_zero _ Z0). symmetry.
      rewrite <- (roundTo_red x). now apply (Qred_complete _ 0).
Qed.

(** Rounding moves a number below [2 ^ (k + prec)] in absolute value
    by at most [2 ^ (k - 1)], half a unit in the last place. *)
Lemma roundTo_error (x : Q) (k : Z) :
  (emin <= k)%Z -> - 2 ^ (k + prec) < x < 2 ^ (k + prec) ->
  - 2 ^ (k - 1) <= roundTo prec emin x - x <= 2 ^ (k - 1).
Proof.
  intros Hk Hx.
  pose proof (two_pow_pos (k - 1)) as Pk.
  assert (Ek : forall a, 0 < a -> a < 2 ^ (k + prec) ->
                         2 ^ (E a - 1) <= 2 ^ (k - 1)).
  { intros a Ha Hak. apply two_pow_le.
    destruct (ilog2_spec a Ha) as [L _].
    assert (ilog2 a < k + prec)%Z.
    { apply (Qpower_lt_compat_l_inv 2); [lra | reflexivity]. }
    unfold ulpExponent. lia. }
  destruct (roundTo_cases x) as [[H0 R] | [[Hn R] | [Hp R]]].
  - rewrite R. lra.
  - rewrite R.
    pose proof (roundPos_error (- x) ltac:(lra)) as [L U].
    pose proof (Ek (- x) ltac:(lra) ltac:(lra)). lra.
  - rewrite R.
    pose proof (roundPos_error x Hp) as [L U].
    pose proof (Ek x Hp ltac:(lra)). lra.
Qed.

End Format.

(** *** Doubles *)

Lemma double_proper (x y : Q) : x == y -> double x = double y.
Proof. apply roundTo_proper. Qed.

Lemma double_mono (x y : Q) : x <= y -> double x <= double y.
Proof. apply roundTo_mono; lia. Qed.

Lemma double_nonneg (x : Q) : 0 <= x -> 0 <= double x.
Proof. apply roundTo_nonneg; lia. Qed.

Lemma double_nonpos (x : Q) : x <= 0 -> double x <= 0.
Proof. apply roundTo_nonpos; lia. Qed.

Lemma double_le (x c : Q) : double c == c -> x <= c -> double x <= c.
Proof. apply roundTo_le; lia. Qed.

Lemma double_ge (x c : Q) : double c == c -> c <= x -> c <= double x.
Proof. apply roundTo_ge; lia. Qed.

Lemma double_idem (x : Q) : double (double x) = double x.
Proof. apply roundTo_idem; lia. Qed.

Lemma double_error (x : Q) (k : Z) :
  (-1074 <= k)%Z -> - 2 ^ (k + 53) < x < 2 ^ (k + 53) ->
  - 2 ^ (k - 1) <= double x - x <= 2 ^ (k - 1).
Proof. apply roundTo_error; lia. Qed.

(** *** Single precision *)

Lemma fround_proper (x y : Q) : x == y -> fround x = fround y.
Proof. apply roundTo_proper. Qed.

Lemma fround_mono (x y : Q) : x <= y -> fround x <= fround y.
Proof. apply roundTo_mono; lia. Qed.

Lemma fround_nonneg (x : Q) : 0 <= x -> 0 <= fround x.
Proof. apply roundTo_nonneg; lia. Qed.

Lemma fround_nonpos (x : Q) : x <= 0 -> fround x <= 0.
Proof. apply roundTo_nonpos; lia. Qed.

Lemma fround_le (x c : Q) : fround c == c -> x <= c -> fround x <= c.
Proof. apply roundTo_le; lia. Qed.

Lemma fround_ge (x c : Q) : fround c == c -> c <= x -> c <= fround x.
Proof. apply roundTo_ge; lia. Qed.

Lemma fround_idem (x : Q) : fround (fround x) = fround x.
Proof. apply roundTo_idem; lia. Qed.

(** What the rounding makes of some numbers of the program: [0.1] and
    [0.9] are not doubles, [3 - 0.016] is not a single-precision
    number. *)
Example double_tenth :
  double 0.1 = 3602879701896397 # 36028797018963968.
Proof. vm_compute. reflexivity. Qed.

Example double_nine_tenths :
  double 0.9 = 8106479329266893 # 9007199254740992.
Proof. vm_compute. reflexivity. Qed.

Example fround_first_frame :
  fround (double (3 - double 0.016)) = 12515803 # 4194304.
Proof. vm_compute. reflexivity. Qed.

End FloatFacts.

(** ** Facts about the particle engine *)

Module ParticleFacts.
Import Float Particles.
Import BeatFacts FloatFacts.

Lemma Qltb_ge (x y : Q) : Qltb x y = false <-> y <= x.
Proof.
  unfold Qltb. rewrite negb_false_iff. apply Qle_bool_iff.
Qed.

Lemma activateFirst_0 (ls : Q) (l : list Q) : activateFirst 0 ls l = l.
Proof. destruct l; reflexivity. Qed.

Lemma activateFirst_length (ls : Q) (l : list Q) :
  forall n, length (activateFirst n ls l) = length l.
Proof.
  induction l as [|x r IH]; intros n; [reflexivity |].
  destruct n; cbn [activateFirst]; [reflexivity |].
  destruct (Qltb x 0); cbn [length]; now rewrite IH.
Qed.

Lemma findFreeFrom_ge (l : list Q) :
  forall j bound idx, findFreeFrom l j bound = Some idx -> (j <= idx)%nat.
Proof.
  induction l as [|x r IH]; intros j bound idx H; [discriminate |].
  cbn [findFreeFrom] in H.
  destruct (j <? bound)%nat; [| discriminate].
  destruct (Qltb x 0).
  - injection H as <-. lia.
  - apply IH in H. lia.
Qed.

(** A scan that finds nothing on a pool within the bound: no free slot. *)
Lemma findFreeFrom_None (l : list Q) :
  forall j bound,
    (j + length l <= bound)%nat ->
    findFreeFrom l j bound = None ->
    freeCount l = 0%nat.
Proof.
  induction l as [|x r IH]; intros j bound Hb H; [reflexivity |].
  cbn [findFreeFrom] in H. cbn [length] in Hb.
  destruct (Nat.ltb_spec j bound) as [_ | Hge]; [| lia].
  unfold freeCount in *. cbn [List.filter].
  destruct (Qltb x 0); [discriminate |].
  apply (IH (S j) bound); [lia | exact H].
Qed.

Lemma no_free_activateFirst (ls : Q) (l : list Q) :
  freeCount l = 0%nat -> forall n, activateFirst n ls l = l.
Proof.
  unfold freeCount.
  induction l as [|x r IH]; intros H n; [reflexivity |].
  cbn [List.filter] in H.
  destruct n; cbn [activateFirst]; [reflexivity |].
  destruct (Qltb x 0); [discriminate |].
  now rewrite IH.
Qed.

(** Activating the slot the scan found is the first step of the
    specification's walk. *)
Lemma findFreeFrom_activateFirst (ls : Q) (l : list Q) :
  0 <= ls ->
  forall j bound idx n,
    findFreeFrom l j bound = Some idx ->
    activateFirst (S n) ls l = activateFirst n ls (<[(idx - j)%nat := ls]> l).
Proof.
  intros Hls.
  assert (Hnn : Qltb ls 0 = false) by now apply Qltb_ge.
  induction l as [|x r IH]; intros j bound idx n H; [discriminate |].
  cbn [findFreeFrom] in H.
  destruct (j <? bound)%nat; [| discriminate].
  cbn [activateFirst].
  destruct (Qltb x 0) eqn:Ex.
  - injection H as <-. rewrite Nat.sub_diag. cbn [insert list_insert].
    destruct n; cbn [activateFirst].
    + now rewrite activateFirst_0.
    + now rewrite Hnn.
  - pose proof (findFreeFrom_ge _ _ _ _ H) as Hge.
    replace (idx - j)%nat with (S (idx - S j)) by lia.
    cbn [insert list_insert].
    rewrite (IH (S j) bound idx n H).
    destruct n; cbn [activateFirst].
    + now rewrite activateFirst_0.
    + now rewrite Ex.
Qed.

Lemma activeCount_le_length (l : list Q) : (activeCount l <= length l)%nat.
Proof.
  unfold activeCount. induction l as [|x r IH]; cbn [List.filter length]; [lia |].
  destruct (isActive x); cbn [length]; lia.
Qed.

Lemma active_plus_free (l : list Q) :
  (activeCount l + freeCount l = length l)%nat.
Proof.
  unfold activeCount, freeCount, isActive.
  induction l as [|x r IH]; cbn [List.filter length]; [reflexivity |].
  destruct (Qltb x 0); cbn [negb length]; lia.
Qed.

Lemma activateFirst_active (ls : Q) (l : list Q) :
  0 <= ls ->
  forall n,
    activeCount (activateFirst n ls l) =
    (activeCount l + Nat.min n (freeCount l))%nat.
Proof.
  intros Hls.
  assert (Hnn : Qltb ls 0 = false) by now apply Qltb_ge.
  unfold activeCount, freeCount, isActive.
  induction l as [|x r IH]; intros n; [cbn; lia |].
  destruct n; cbn [activateFirst]; [cbn [Nat.min]; lia |].
  cbn [List.filter].
  destruct (Qltb x 0) eqn:Ex; cbn [List.filter negb length].
  - rewrite Hnn. cbn [negb length]. rewrite IH. cbn [Nat.min]. lia.
  - rewrite Ex. cbn [negb length]. rewrite IH. lia.
Qed.

Section WithOracles.

Variable random : nat -> Q.
Variables cos sin : Q -> Q.
Variable PI : Q.
Variable setHSL : Q -> Q -> Q -> vec3.

Local Abbreviation activate := (activate random cos sin PI setHSL).
Local Abbreviation emitLoop := (emitLoop random cos sin PI setHSL).
Local Abbreviation emitParticles := (emitParticles random cos sin PI setHSL).
Local Abbreviation emit := (emit random cos sin PI setHSL).
Local Abbreviation updateSlot := (updateSlot setHSL).
Local Abbreviation updateParticles := (updateParticles setHSL).
Local Abbreviation runEvents := (runEvents random cos sin PI setHSL).

Lemma activate_fields (b t : Q) (idx : nat) (s : engine) :
  particleLifetimes (activate b t idx s) =
    <[idx := fround (particleLifespan s)]> (particleLifetimes s) /\
  maxParticles (activate b t idx s) = maxParticles s /\
  particleLifespan (activate b t idx s) = particleLifespan s /\
  particleCount (activate b t idx s) = particleCount s.
Proof.
  unfold Particles.activate.
  destruct (patternVelocity random cos sin PI _ _ _) as [v used].
  repeat split.
Qed.

Lemma activate_pool_ok (b t : Q) (idx : nat) (s : engine) :
  pool_ok s -> pool_ok (activate b t idx s).
Proof.
  intros [Hl Hs].
  destruct (activate_fields b t idx s) as (E1 & E2 & E3 & _).
  unfold pool_ok. rewrite E1, E2, E3, length_insert. now split.
Qed.

Lemma emitLoop_spec (b t : Q) :
  forall (n : nat) (s : engine),
    pool_ok s ->
    let s' := emitLoop n b t s in
    particleLifetimes s' =
      activateFirst n (fround (particleLifespan s)) (particleLifetimes s) /\
    maxParticles s' = maxParticles s /\
    particleLifespan s' = particleLifespan s /\
    particleCount s' = particleCount s.
Proof.
  induction n as [|n IH]; intros s Hok; cbn zeta.
  - cbn [Particles.emitLoop]. rewrite activateFirst_0. repeat split.
  - cbn [Particles.emitLoop]. unfold findFree.
    destruct Hok as [Hl Hs].
    destruct (findFreeFrom (particleLifetimes s) 0 (maxParticles s))
      as [idx|] eqn:E.
    + destruct (activate_fields b t idx s) as (E1 & E2 & E3 & E4).
      destruct (IH (activate b t idx s)
                  (activate_pool_ok b t idx s (conj Hl Hs)))
        as (I1 & I2 & I3 & I4).
      rewrite I1, I2, I3, I4, E1, E2, E3, E4.
      rewrite (findFreeFrom_activateFirst _ _ (fround_nonneg _ Hs)
                                          _ _ _ n E).
      rewrite Nat.sub_0_r. repeat split.
    + apply findFreeFrom_None in E; [| lia].
      rewrite (no_free_activateFirst _ _ E). repeat split.
Qed.


Lemma baseBurst_zero_bass (count bass : Q) :
  bass == 0 -> (baseBurstSize count bass = Qfloor (double count))%Z.
Proof.
  intros Hb. unfold baseBurstSize.
  rewrite (double_proper (1 + bass) 1) by (rewrite Hb; reflexivity).
  change (double 1) with 1.
  now rewrite (double_proper (count * 1) count) by ring.
Qed.

(** The lifetimes a call leaves behind, and the active slots it adds. *)
Lemma emitParticles_lifetimes (count bass treble : Q) (s : engine) :
  pool_ok s ->
  let n := Z.to_nat (particlesToEmit count bass s) in
  let before := particleLifetimes s in
  let after := particleLifetimes (emitParticles count bass treble s) in
  after = activateFirst n (fround (particleLifespan s)) before /\
  activeCount after = (activeCount before + Nat.min n (freeCount before))%nat.
Proof.
  intros Hok n before after.
  destruct (emitLoop_spec bass treble n s Hok) as (E & _).
  assert (Hafter : after
                   = activateFirst n (fround (particleLifespan s)) before)
    by exact E.
  split; [exact Hafter |].
  rewrite Hafter. apply activateFirst_active, fround_nonneg, Hok.
Qed.

(** C3, as the code has it: a call walks the pool in slot order and
    gives the first [n] inactive slots the lifespan (as the
    [Float32Array] keeps it), or all inactive slots when fewer are free,
    where [n] is [min(floor(count * (1 + bassIntensity)),
    maxParticles - particleCount)], the sum and the product rounded to
    doubles, and not [count]; it always returns.  The number activated
    never exceeds [floor(count * (1 + bassIntensity))], hence never
    [count] when [bassIntensity] is zero. *)
Theorem emit_activates_first_free (count bass treble : Q) (s : engine) :
  pool_ok s ->
  let burst := Qfloor (double (count * double (1 + bass))) in
  let n :=
    Z.to_nat (Z.min burst (Z.of_nat (maxParticles s)
                           - Z.of_nat (particleCount s))) in
  let before := particleLifetimes s in
  let after := particleLifetimes (emitParticles count bass treble s) in
  after = activateFirst n (fround (particleLifespan s)) before /\
  activeCount after = (activeCount before + Nat.min n (freeCount before))%nat /\
  (Z.of_nat (Nat.min n (freeCount before)) <= Z.max 0 burst)%Z /\
  (bass == 0 -> 0 <= count -> double count == count ->
   inject_Z (Z.of_nat (Nat.min n (freeCount before))) <= count).
Proof.
  intros Hok burst n before after.
  destruct (emitParticles_lifetimes count bass treble s Hok) as (Hafter & Hact).
  assert (Hn : (Z.of_nat n <= Z.max 0 (baseBurstSize count bass))%Z).
  { subst n burst. fold (baseBurstSize count bass). lia. }
  split; [exact Hafter |].
  split; [exact Hact |].
  split; [unfold baseBurstSize in Hn; subst burst; lia |].
  intros Hb Hc Hd.
  rewrite (baseBurst_zero_bass count bass Hb) in Hn.
  rewrite (Qfloor_comp _ _ Hd) in Hn.
  assert (H0 : (0 <= Qfloor count)%Z).
  { rewrite <- (Qfloor_Z 0). now apply Qfloor_resp_le. }
  apply Qle_trans with (inject_Z (Qfloor count)); [| apply Qfloor_le].
  rewrite <- Zle_Qle. lia.
Qed.

Lemma emitParticles_pool_ok (count bass treble : Q) (s : engine) :
  pool_ok s ->
  pool_ok (emitParticles count bass treble s) /\
  maxParticles (emitParticles count bass treble s) = maxParticles s.
Proof.
  intros Hok. unfold Particles.emitParticles.
  destruct (emitLoop_spec bass treble
              (Z.to_nat (particlesToEmit count bass s)) s Hok)
    as (E1 & E2 & E3 & _).
  unfold pool_ok. rewrite E1, E2, E3, activateFirst_length.
  split; [exact Hok | reflexivity].
Qed.

(** The particle loop rewrites slots in place: the pool keeps its
    size and the two constants. *)
Lemma updateSlot_pool (delta : Q) (st : engine * nat) (i : nat) :
  let st' := updateSlot delta st i in
  length (particleLifetimes (fst st')) = length (particleLifetimes (fst st)) /\
  maxParticles (fst st') = maxParticles (fst st) /\
  particleLifespan (fst st') = particleLifespan (fst st).
Proof.
  destruct st as [s active]. unfold Particles.updateSlot.
  destruct (particleLifetimes s !! i) as [l|]; [| now cbn].
  destruct (Qltb l 0); [now cbn |].
  destruct (Qltb (fround (double (l - delta))) 0).
  { cbn. now rewrite length_insert. }
  destruct (waveParticles s !! i) as [p|].
  - destruct (frameLoop setHSL _ _ _ _ _ _) as [p1 cols].
    cbn. now rewrite length_insert.
  - cbn. now rewrite length_insert.
Qed.

Lemma fold_updateSlot_pool (delta : Q) (slots : list nat) :
  forall st : engine * nat,
    let st' := fold_left (updateSlot delta) slots st in
    length (particleLifetimes (fst st')) = length (particleLifetimes (fst st)) /\
    maxParticles (fst st') = maxParticles (fst st) /\
    particleLifespan (fst st') = particleLifespan (fst st).
Proof.
  induction slots as [|i rest IH]; intros st; [now cbn |].
  cbn [fold_left]. cbn zeta.
  destruct (IH (updateSlot delta st i)) as (A1 & A2 & A3).
  destruct (updateSlot_pool delta st i) as (B1 & B2 & B3).
  cbn zeta in A1, A2, A3.
  rewrite A1, A2, A3. now rewrite B1, B2, B3.
Qed.

Lemma updateParticles_pool_ok (delta : Q) (s : engine) :
  pool_ok s ->
  pool_ok (updateParticles delta s) /\
  maxParticles (updateParticles delta s) = maxParticles s.
Proof.
  intros [Hl Hs]. unfold Particles.updateParticles.
  pose proof (fold_updateSlot_pool delta (seq 0 (maxParticles s)) (s, 0%nat))
    as (A1 & A2 & A3).
  cbn zeta in A1, A2, A3. cbn [fst] in A1, A2, A3.
  destruct (fold_left (updateSlot delta) (seq 0 (maxParticles s)) (s, 0%nat))
    as [s' active].
  cbn [fst] in A1, A2, A3. unfold pool_ok.
  cbn [particleLifetimes maxParticles particleLifespan].
  rewrite A1, A2, A3. now repeat split.
Qed.

Lemma runEvents_pool_ok (events : list event) :
  forall s : engine,
    pool_ok s ->
    pool_ok (runEvents events s) /\
    maxParticles (runEvents events s) = maxParticles s.
Proof.
  induction events as [|ev rest IH]; intros s Hok; [now split |].
  cbn [Particles.runEvents fold_left].
  assert (Hstep : pool_ok (applyEvent random cos sin PI setHSL s ev) /\
                  maxParticles (applyEvent random cos sin PI setHSL s ev)
                  = maxParticles s).
  { destruct ev as [e | delta]; cbn [applyEvent].
    - apply emitParticles_pool_ok, Hok.
    - apply updateParticles_pool_ok, Hok. }
  destruct Hstep as [Hok' Hmax].
  destruct (IH _ Hok') as [H1 H2].
  split; [exact H1 |]. unfold Particles.runEvents in H2.
  rewrite H2. exact Hmax.
Qed.

(** C5: on a pool of [maxParticles] slots (3000 as allocated) no
    sequence of emissions, with or without frames in between, brings the
    number of active slots above [maxParticles]; an emission activates at
    most the free slots, and on a full pool it activates none. *)
Theorem emission_never_overflows (s : engine) (events : list event)
        (e : emission) :
  pool_ok s ->
  let s1 := runEvents events s in
  let s2 := emit s1 e in
  maxParticles s1 = maxParticles s /\
  length (particleLifetimes s1) = maxParticles s /\
  (activeCount (particleLifetimes s1) <= maxParticles s)%nat /\
  (maxParticles s = 3000%nat ->
   (activeCount (particleLifetimes s1) <= 3000)%nat) /\
  (activeCount (particleLifetimes s2)
   <= activeCount (particleLifetimes s1) + freeCount (particleLifetimes s1))%nat /\
  (activeCount (particleLifetimes s2) <= maxParticles s)%nat /\
  (freeCount (particleLifetimes s1) = 0%nat ->
   particleLifetimes s2 = particleLifetimes s1).
Proof.
  intros Hok s1 s2.
  destruct (runEvents_pool_ok events s Hok) as [Hok1 Hmax1].
  fold s1 in Hok1, Hmax1.
  pose proof (activeCount_le_length (particleLifetimes s1)) as Hle.
  destruct Hok1 as [Hlen1 Hls1]. rewrite Hmax1 in Hlen1.
  destruct (emitParticles_lifetimes (emCount e) (emBass e) (emTreble e) s1
              (conj (eq_trans Hlen1 (eq_sym Hmax1)) Hls1))
    as (A1 & A2).
  fold (emit s1 e) in A1, A2. fold s2 in A1, A2.
  pose proof (active_plus_free (particleLifetimes s1)) as Hsum.
  split; [exact Hmax1 |].
  split; [exact Hlen1 |].
  split; [lia |].
  split; [lia |].
  split; [rewrite A2; lia |].
  split; [rewrite A2; lia |].
  intros Hfull. rewrite A1. now apply no_free_activateFirst.
Qed.

End WithOracles.

Lemma emit_activates_first_free_witness :
  let zero := fun _ : Q => 0 in
  let s := createWaveVisualizer in
  let burst := Qfloor (double (30 * double (1 + 0))) in
  let n :=
    Z.to_nat (Z.min burst (Z.of_nat (maxParticles s)
                           - Z.of_nat (particleCount s))) in
  let before := particleLifetimes s in
  let after :=
    particleLifetimes
      (emitParticles (fun _ => 0.5) zero zero 3 (fun _ _ _ => mkVec 0 0 0)
                     30 0 0 s) in
  after = activateFirst n (fround (particleLifespan s)) before /\
  activeCount after = (activeCount before + Nat.min n (freeCount before))%nat /\
  (Z.of_nat (Nat.min n (freeCount before)) <= Z.max 0 burst)%Z /\
  inject_Z (Z.of_nat (Nat.min n (freeCount before))) <= 30 /\
  activeCount after = 30%nat.
Proof.
  cbv zeta.
  destruct (emit_activates_first_free
              (fun _ => 0.5) (fun _ => 0) (fun _ => 0) 3
              (fun _ _ _ => mkVec 0 0 0) 30 0 0 createWaveVisualizer)
    as (A & B & C & D).
  { split; [vm_compute; reflexivity | cbn; lra]. }
  split; [exact A|]. split; [exact B|]. split; [exact C|].
  split; [|vm_compute; reflexivity].
  apply D; [reflexivity | lra | vm_compute; reflexivity].
Defined.

(** C3 as stated fails: [emitParticles(30, 1, 0)] on the empty pool
    activates 60 slots, twice the requested count, and
    [emitParticles(45, 0.4, 0)] activates 62 (the product is a double just
    below 63). *)
Lemma emit_exceeds_count :
  let s := createWaveVisualizer in
  let emitted (count bass : Q) :=
    emitParticles (fun _ => 0.5) (fun _ => 0) (fun _ => 0) 3
                  (fun _ _ _ => mkVec 0 0 0) count bass 0 s in
  activeCount (particleLifetimes s) = 0%nat /\
  activeCount (particleLifetimes (emitted 30 1)) = 60%nat /\
  (30 < 60)%nat /\
  activeCount (particleLifetimes (emitted 45 (double 0.4))) = 62%nat /\
  (45 < 62)%nat.
Proof.
  cbn zeta.
  split; [vm_compute; reflexivity |].
  split; [vm_compute; reflexivity |].
  split; [lia |].
  split; [vm_compute; reflexivity | lia].
Qed.

Lemma emission_never_overflows_witness :
  let zero := fun _ : Q => 0 in
  let hsl := fun _ _ _ : Q => mkVec 0 0 0 in
  let s := createWaveVisualizer in
  let s1 :=
    runEvents (fun _ => 0.5) zero zero 3 hsl
              [Emit (mkEmission 30 1 0.5); Tick 0.016; Emit (mkEmission 2 0.3 0.3)]
              s in
  let s2 := emit (fun _ => 0.5) zero zero 3 hsl s1 (mkEmission 5000 1 1) in
  maxParticles s1 = maxParticles s /\
  length (particleLifetimes s1) = maxParticles s /\
  (activeCount (particleLifetimes s1) <= maxParticles s)%nat /\
  (maxParticles s = 3000%nat ->
   (activeCount (particleLifetimes s1) <= 3000)%nat) /\
  (activeCount (particleLifetimes s2)
   <= activeCount (particleLifetimes s1) + freeCount (particleLifetimes s1))%nat /\
  (activeCount (particleLifetimes s2) <= maxParticles s)%nat /\
  (freeCount (particleLifetimes s1) = 0%nat ->
   particleLifetimes s2 = particleLifetimes s1).
Proof.
  apply (emission_never_overflows (fun _ => 0.5) (fun _ => 0) (fun _ => 0) 3
           (fun _ _ _ => mkVec 0 0 0) createWaveVisualizer
           [Emit (mkEmission 30 1 0.5); Tick 0.016; Emit (mkEmission 2 0.3 0.3)]
           (mkEmission 5000 1 1)).
  split; [vm_compute; reflexivity | cbn; lra].
Defined.

End ParticleFacts.

(** ** The size of a particle over its life *)

Module EnvelopeFacts.
Import Float Particles.
Import BeatFacts FloatFacts ParticleFacts.

Lemma nine_tenths_pos : 0 < double 0.9.
Proof. vm_compute. reflexivity. Qed.

Lemma two_tenths_pos : 0 < double 0.2.
Proof. vm_compute. reflexivity. Qed.

Lemma two_tenths_below : double 0.2 <= double 0.9.
Proof. vm_compute. discriminate. Qed.

Lemma double_one : double 1.0 == 1.0.
Proof. vm_compute. reflexivity. Qed.

Lemma sizeFactor_nonneg (p : particle) : 0 <= sizeFactor p.
Proof.
  unfold sizeFactor. destruct (0 <? frameInteractions p)%nat; [|lra].
  apply double_nonneg.
  assert (0 <= double (inject_Z (Z.of_nat (frameInteractions p))
                       * double 0.1)); [|lra].
  apply double_nonneg, Qmult_le_0_compat.
  - apply inject_Z_ge0. lia.
  - vm_compute. discriminate.
Qed.

(** From its birth down to nine tenths of its life the fade-in factor
    of a particle is 1. *)
Lemma fadeIn_full (lf : Q) : double 0.9 <= lf -> fadeIn lf = 1.0.
Proof.
  intros H. unfold fadeIn. now rewrite (proj2 (Qltb_ge lf (double 0.9)) H).
Qed.

Lemma fadeOut_full (lf : Q) : double 0.2 <= lf -> fadeOut lf = 1.0.
Proof.
  intros H. unfold fadeOut. now rewrite (proj2 (Qltb_ge lf (double 0.2)) H).
Qed.

(** A factor [lf < c ? lf / c : 1.0] is between 0 and 1 and grows with
    the life factor. *)
Lemma fade_range (c lf : Q) :
  0 < c -> 0 <= lf ->
  0 <= (if Qltb lf c then double (lf / c) else 1.0) <= 1.
Proof.
  intros Hc H. destruct (Qltb lf c) eqn:E; [|lra].
  apply Qltb_lt in E. split.
  - apply double_nonneg, Qle_shift_div_l; lra.
  - apply double_le; [reflexivity|]. apply Qle_shift_div_r; lra.
Qed.

Lemma fade_mono (c a b : Q) :
  0 < c -> a <= b ->
  (if Qltb a c then double (a / c) else 1.0)
  <= (if Qltb b c then double (b / c) else 1.0).
Proof.
  intros Hc Hab.
  destruct (Qltb a c) eqn:Ea; destruct (Qltb b c) eqn:Eb;
    try apply Qltb_lt in Ea; try apply Qltb_lt in Eb;
    try apply Qltb_ge in Ea; try apply Qltb_ge in Eb.
  - apply double_mono, Qmult_le_compat_r; [exact Hab|].
    apply Qlt_le_weak, Qinv_lt_0_compat, Hc.
  - apply double_le; [exact double_one|]. apply Qle_shift_div_r; lra.
  - lra.
  - lra.
Qed.

(** There is no fade-in: while the life factor is at least 0.9 the size
    is the full [initialSize * sizeFactor]. *)
Lemma renderedSize_full (p : particle) (lf : Q) :
  double 0.9 <= lf ->
  renderedSize p lf = double (initialSize p * sizeFactor p).
Proof.
  intros H. unfold renderedSize.
  rewrite (fadeIn_full lf H).
  rewrite (fadeOut_full lf) by (pose proof two_tenths_below; lra).
  assert (Ix : double (double (initialSize p * sizeFactor p))
               = double (initialSize p * sizeFactor p)) by apply double_idem.
  set (x := double (initialSize p * sizeFactor p)) in *.
  rewrite (double_proper (x * 1.0) x) by ring.
  rewrite Ix.
  rewrite (double_proper (x * 1.0) x) by ring.
  exact Ix.
Qed.

(** The size never grows while the life factor falls. *)
Lemma renderedSize_mono (p : particle) (a b : Q) :
  0 <= initialSize p -> 0 <= a -> a <= b ->
  renderedSize p a <= renderedSize p b.
Proof.
  intros Hs Ha Hab. unfold renderedSize, fadeIn, fadeOut.
  pose proof (sizeFactor_nonneg p) as Hf.
  pose proof (fade_range (double 0.9) a nine_tenths_pos Ha) as [Ia _].
  pose proof (fade_range (double 0.2) a two_tenths_pos Ha) as [Oa _].
  pose proof (fade_mono (double 0.9) a b nine_tenths_pos Hab) as Im.
  pose proof (fade_mono (double 0.2) a b two_tenths_pos Hab) as Om.
  set (ia := if Qltb a (double 0.9) then _ else _) in *.
  set (ib := if Qltb b (double 0.9) then _ else _) in *.
  set (oa := if Qltb a (double 0.2) then _ else _) in *.
  set (ob := if Qltb b (double 0.2) then _ else _) in *.
  assert (X : 0 <= double (initialSize p * sizeFactor p))
    by (apply double_nonneg; nra).
  set (x := double (initialSize p * sizeFactor p)) in *.
  assert (Y0 : 0 <= double (x * ia)) by (apply double_nonneg; nra).
  assert (Y : double (x * ia) <= double (x * ib))
    by (apply double_mono; nra).
  apply double_mono. nra.
Qed.

(** A particle at the end of its life has size 0. *)
Lemma renderedSize_dead (p : particle) : renderedSize p 0 = 0.
Proof.
  unfold renderedSize, fadeOut.
  assert (E : Qltb 0 (double 0.2) = true) by (vm_compute; reflexivity).
  rewrite E.
  rewrite (double_proper (0 / double 0.2) 0) by reflexivity.
  change (double 0) with 0.
  now rewrite (double_proper (_ * 0) 0) by ring.
Qed.

Section WithColour.

Variable setHSL : Q -> Q -> Q -> vec3.

Lemma frameLoop_initialSize (frames : list frame) (oldZ : Q) (i : nat)
      (pos : list Q) :
  forall (j : Z) (st : particle * list Q),
    initialSize (fst (frameLoop setHSL frames j oldZ i pos st)) =
    initialSize (fst st).
Proof.
  induction frames as [|f rest IH]; intros j [p cols]; [reflexivity |].
  cbn [frameLoop]. rewrite IH.
  destruct (crossesFrame _ _ _ _ f); reflexivity.
Qed.

(** What the particle loop leaves in slot [i] of a particle that is
    alive before and after the frame. *)
Lemma updateSlot_alive (delta : Q) (s : engine) (active i : nat) (l : Q)
      (p : particle) :
  particleLifetimes s !! i = Some l ->
  0 <= l -> 0 <= fround (double (l - delta)) ->
  waveParticles s !! i = Some p ->
  (i < length (sizes s))%nat ->
  let s' := fst (updateSlot setHSL delta (s, active) i) in
  let lifeFactor :=
    double (fround (double (l - delta)) / particleLifespan s) in
  exists p' : particle,
    waveParticles s' !! i = Some p' /\
    initialSize p' = initialSize p /\
    particleLifetimes s' !! i = Some (fround (double (l - delta))) /\
    sizes s' !! i = Some (fround (renderedSize p' lifeFactor)).
Proof.
  intros Hl H0 H1 Hp Hi. unfold updateSlot. rewrite Hl.
  assert (E0 : Qltb l 0 = false) by now apply Qltb_ge.
  assert (E1 : Qltb (fround (double (l - delta))) 0 = false)
    by now apply Qltb_ge.
  rewrite E0, E1, Hp.
  match goal with
  | |- context [frameLoop setHSL ?fr ?j ?oz ?i ?pos ?st] =>
      pose proof (frameLoop_initialSize fr oz i pos j st) as Hsz;
      destruct (frameLoop setHSL fr j oz i pos st) as [p1 cols]
  end.
  cbn [fst] in Hsz. cbn zeta. cbn [fst waveParticles particleLifetimes sizes].
  eexists. split; [apply lookup_insert_eq |].
  split; [exact Hsz |].
  split.
  - apply list_lookup_insert_eq. now apply lookup_lt_Some in Hl.
  - now apply list_lookup_insert_eq.
Qed.

End WithColour.

(** C4: the size of a particle has no fade-in.  What the particle loop
    stores for a live particle is the single-precision value of
    [initialSize * sizeFactor * fadeIn * fadeOut], each product rounded to
    a double, with [fadeIn = lifeFactor < 0.9 ? lifeFactor / 0.9 : 1.0]:
    that factor is 1 from the birth of the particle (life factor 1) down
    to 0.9 and shrinks below, so the size is the full
    [initialSize * sizeFactor] where the specification has it rise from
    0, never grows while the life factor falls, and is 0 at life factor
    0.  A particle emitted with size 1.5 has size 1.5 at its emission
    and still after a first frame of 16 ms, at life factor 0.9947. *)
Theorem size_has_no_fade_in :
  let hsl := fun _ _ _ : Q => mkVec 0 0 0 in
  let zero := fun _ : Q => 0 in
  let s :=
    emitParticles (fun _ => 0.5) zero zero 3 hsl 1 0 0 createWaveVisualizer in
  let s1 := updateParticles hsl (double 0.016) s in
  (forall (setHSL : Q -> Q -> Q -> vec3) (delta : Q) (s : engine)
          (active i : nat) (l : Q) (p : particle),
      particleLifetimes s !! i = Some l ->
      0 <= l -> 0 <= fround (double (l - delta)) ->
      waveParticles s !! i = Some p ->
      (i < length (sizes s))%nat ->
      let s' := fst (updateSlot setHSL delta (s, active) i) in
      let lifeFactor :=
        double (fround (double (l - delta)) / particleLifespan s) in
      exists p' : particle,
        waveParticles s' !! i = Some p' /\
        initialSize p' = initialSize p /\
        sizes s' !! i = Some (fround (renderedSize p' lifeFactor))) /\
  (forall (p : particle) (lf : Q),
      double 0.9 <= lf ->
      fadeIn lf = 1.0 /\
      renderedSize p lf = double (initialSize p * sizeFactor p)) /\
  (forall (p : particle) (a b : Q),
      0 <= initialSize p -> 0 <= a -> a <= b ->
      renderedSize p a <= renderedSize p b) /\
  (forall p : particle, renderedSize p 0 = 0) /\
  particleLifetimes s !! 0%nat = Some (fround (particleLifespan s)) /\
  sizes s !! 0%nat = Some (3 # 2) /\
  particleLifetimes s1 !! 0%nat = Some (12515803 # 4194304) /\
  double ((12515803 # 4194304) / particleLifespan s1)
  = 8959160761363115 # 9007199254740992 /\
  sizes s1 !! 0%nat = Some (3 # 2).
Proof.
  cbn zeta.
  split.
  { intros setHSL delta s active i l p Hl H0 H1 Hp Hi.
    destruct (updateSlot_alive setHSL delta s active i l p Hl H0 H1 Hp Hi)
      as (p' & W & Z & _ & S).
    exists p'. auto. }
  split.
  { intros p lf H. split; [now apply fadeIn_full | now apply renderedSize_full]. }
  split; [exact renderedSize_mono |].
  split; [exact renderedSize_dead |].
  split; [vm_compute; reflexivity |].
  split; [vm_compute; reflexivity |].
  split; [vm_compute; reflexivity |].
  split; [vm_compute; reflexivity |].
  vm_compute; reflexivity.
Qed.

End EnvelopeFacts.

(** ** Facts about the style controller *)

Module ControllerFacts.
Import Particles Controller.
Import BandFacts.

Lemma without_nil (l : list Object3D) : without [] l = l.
Proof.
  unfold without. induction l as [|c r IH]; [reflexivity |].
  cbn [List.filter]. change (heldIn [] c) with false. cbn [negb].
  now rewrite IH.
Qed.

Lemma without_cons (o : Object3D) (os l : list Object3D) :
  without (o :: os) l
  = without os (List.filter (fun c => negb (objId c =? objId o)%nat) l).
Proof.
  unfold without. induction l as [|c r IH]; [reflexivity |].
  cbn [List.filter].
  change (heldIn (o :: os) c)
    with ((objId c =? objId o)%nat || heldIn os c).
  destruct (objId c =? objId o)%nat; cbn [orb negb List.filter].
  - exact IH.
  - destruct (heldIn os c); cbn [negb]; now rewrite IH.
Qed.

Lemma without_app (a b l : list Object3D) :
  without (a ++ b) l = without b (without a l).
Proof.
  revert l. induction a as [|o a IH]; intros l; cbn [app].
  - now rewrite without_nil.
  - now rewrite !without_cons, IH.
Qed.

Lemma without_In (os l : list Object3D) (c : Object3D) :
  In c (without os l) <-> In c l /\ heldIn os c = false.
Proof.
  unfold without. rewrite List.filter_In, negb_true_iff. reflexivity.
Qed.

(** [forEach(o => scene.remove(o))] takes the objects out of the scene
    and leaves every field alone. *)
Lemma sceneRemoveAll_without (os : list Object3D) :
  forall s : Visualizer,
    sceneRemoveAll os s = set_scene (without os (scene s)) s.
Proof.
  unfold sceneRemoveAll.
  induction os as [|o rest IH]; intros s; cbn [fold_left].
  - rewrite without_nil. now destruct s.
  - rewrite IH, without_cons. now destruct s.
Qed.

(** The scene [clearScene] leaves: the children without the objects of
    the style fields. *)
Lemma clearScene_scene (s : Visualizer) :
  scene (clearScene s) = without (styleObjects s) (scene s).
Proof.
  unfold styleObjects. rewrite !without_app.
  unfold clearScene, removeElements, removeGroundPlane, removeCloudLayers,
    removeStarfield, removePointsMesh, removeShader.
  rewrite !sceneRemoveAll_without.
  destruct s as [sc bg cam oc bs ps ts gp cl sf pm st orb sp sm stime ada
                   smo rh nid rn].
  cbn [set_scene scene bars particles towers groundPlane cloudLayers
       starfield pointsMesh shaderPlane shaderMaterial].
  destruct gp as [g|]; destruct sf as [f|]; destruct pm as [m|];
    destruct sp as [h|]; destruct sm as [k|];
    unfold option_list; cbn [option_rect]; repeat rewrite without_cons;
    repeat rewrite without_nil; reflexivity.
Qed.

Lemma sceneRemoveAll_set (os : list Object3D) :
  forall s : Visualizer,
    sceneRemoveAll os s = set_scene (scene (sceneRemoveAll os s)) s.
Proof.
  unfold sceneRemoveAll.
  induction os as [|o rest IH]; intros s; cbn [fold_left].
  - now destruct s.
  - rewrite IH. now destruct s.
Qed.

(** Each block of [clearScene] as an update of the fields it names,
    the scene apart. *)
Lemma removeElements_eq (s : Visualizer) :
  exists sc, removeElements s = set_scene sc s.
Proof.
  unfold removeElements.
  rewrite (sceneRemoveAll_set (bars s) s).
  set (s1 := set_scene _ s).
  rewrite (sceneRemoveAll_set (particles s1) s1).
  set (s2 := set_scene _ s1).
  rewrite (sceneRemoveAll_set (towers s2) s2).
  eexists. subst s2 s1. now destruct s.
Qed.

Lemma removeGroundPlane_eq (s : Visualizer) :
  exists sc, removeGroundPlane s = set_scene sc (set_groundPlane None s).
Proof.
  unfold removeGroundPlane.
  destruct s as [sc bg cam oc bs ps ts [g|] cl sf pm st orb sp sm stime ada
                   smo rh nid rn]; eexists; reflexivity.
Qed.

Lemma removeCloudLayers_eq (s : Visualizer) :
  exists sc, removeCloudLayers s = set_scene sc (set_cloudLayers [] s).
Proof.
  unfold removeCloudLayers. rewrite sceneRemoveAll_set.
  eexists. now destruct s.
Qed.

Lemma removeStarfield_eq (s : Visualizer) :
  exists sc, removeStarfield s = set_scene sc (set_starfield None s).
Proof.
  unfold removeStarfield.
  destruct s as [sc bg cam oc bs ps ts gp cl [o|] pm st orb sp sm stime ada
                   smo rh nid rn]; eexists; reflexivity.
Qed.

Lemma removePointsMesh_eq (s : Visualizer) :
  exists sc, removePointsMesh s = set_scene sc (set_pointsMesh None s).
Proof.
  unfold removePointsMesh.
  destruct s as [sc bg cam oc bs ps ts gp cl sf [o|] st orb sp sm stime ada
                   smo rh nid rn]; eexists; reflexivity.
Qed.

Lemma removeShader_eq (s : Visualizer) :
  exists sc,
    removeShader s =
    set_scene sc (set_shaderMaterial None (set_shaderPlane None s)).
Proof.
  unfold removeShader.
  destruct s as [sc bg cam oc bs ps ts gp cl sf pm st orb [o|] [m|] stime ada
                   smo rh nid rn]; eexists; reflexivity.
Qed.

(** [clearScene] empties every style field and resets the shader state;
    of the rest only the scene changes. *)
Lemma clearScene_fields (s : Visualizer) :
  exists sc : list Object3D,
    clearScene s =
    mkVisualizer sc 0x000005 (camera s) (originalCamera s)
                 [] [] [] None [] None None (currentStyle s) (orbitControls s)
                 None None 0 (audioDataArray s) Bands.zeroLevels
                 (resizeHandler s) (nextId s) (renders s).
Proof.
  unfold clearScene.
  destruct (removeElements_eq s) as [sc1 ->].
  destruct (removeGroundPlane_eq (set_scene sc1 s)) as [sc2 ->].
  destruct (removeCloudLayers_eq
              (set_scene sc2 (set_groundPlane None (set_scene sc1 s))))
    as [sc3 ->].
  match goal with
  | |- context [removeStarfield ?x] =>
      destruct (removeStarfield_eq x) as [sc4 ->]
  end.
  match goal with
  | |- context [removePointsMesh ?x] =>
      destruct (removePointsMesh_eq x) as [sc5 ->]
  end.
  match goal with
  | |- context [removeShader ?x] =>
      destruct (removeShader_eq x) as [sc6 ->]
  end.
  exists sc6. now destruct s.
Qed.







(** The array the Shaders style reads its bins into is the
    [new Uint8Array(128)] of its constructor, and a frame keeps its size. *)
Lemma shaders_array_128 (s : Visualizer) :
  forall s', createShadersVisualizer None None s = Done s' ->
             exists array, audioDataArray s' = Some array /\
                           length array = 128%nat.
Proof.
  intros s' H. exists (repeat x00 128).
  split; [| apply repeat_length].
  destruct s. vm_compute in H. injection H as <-. reflexivity.
Qed.



Section Window.

Variables innerWidth innerHeight : Q.

Local Abbreviation createVisualizer :=
  (createVisualizer innerWidth innerHeight).
Local Abbreviation onStyleChange := (onStyleChange innerWidth innerHeight).
Local Abbreviation dispatchChange := (dispatchChange innerWidth innerHeight).
Local Abbreviation selectStyle := (selectStyle innerWidth innerHeight).
Local Abbreviation newVisualizer := (newVisualizer innerWidth innerHeight).

(** C1 on the code: after Bars, Shaders, Bars the shader plane and the
    shader material are gone, but the camera is still the orthographic
    one of the Shaders style; the saved clone of the perspective camera
    is never put back. *)
Theorem bars_shaders_bars_camera :
  let s := selectStyle "bars" (selectStyle "shaders" newVisualizer) in
  currentStyle s = "bars"%string /\
  length (bars s) = 64%nat /\
  camProjection (camera s) = OrthographicCamera (-1) 1 1 (-1) 0 1 /\
  isPerspective (camera s) = false /\
  isPerspective (camera newVisualizer) = true /\
  shaderPlane s = None /\
  shaderMaterial s = None /\
  inScene ShaderPlane s = false /\
  (exists saved, originalCamera s = Some saved /\ isPerspective saved = true).
Proof.
  cbn zeta. repeat split; try (vm_compute; reflexivity).
  eexists. split; vm_compute; reflexivity.
Qed.

Lemma invalid_eqb (value : string) :
  ~ validStyle value ->
  String.eqb value "bars" = false /\ String.eqb value "points" = false /\
  String.eqb value "towers" = false /\ String.eqb value "shaders" = false.
Proof.
  unfold validStyle. intros H.
  repeat split; apply String.eqb_neq; intros E; apply H; tauto.
Qed.

(** [prepareScene] leaves no style object behind and keeps the style
    identifier and the render count. *)
Lemma prepareScene_fields (s : Visualizer) :
  let s' := prepareScene innerWidth innerHeight s in
  currentStyle s' = currentStyle s /\
  renders s' = renders s /\
  bars s' = [] /\ towers s' = [] /\ groundPlane s' = None /\
  starfield s' = None /\ pointsMesh s' = None /\
  shaderPlane s' = None /\ shaderMaterial s' = None.
Proof.
  unfold prepareScene. destruct (clearScene_fields s) as [sc ->].
  destruct (String.eqb (currentStyle s) "shaders"); cbn; repeat split.
Qed.

Lemma buildStyle_invalid (f fb : fault) (s : Visualizer) :
  ~ validStyle (currentStyle s) -> buildStyle f fb s = Done s.
Proof.
  intros Hv. destruct (invalid_eqb _ Hv) as (E1 & E2 & E3 & E4).
  unfold buildStyle. now rewrite E1, E2, E3, E4.
Qed.

Lemma createVisualizer_done (f fb : fault) (s s' : Visualizer) :
  buildStyle f fb (prepareScene innerWidth innerHeight s) = Done s' ->
  createVisualizer f fb s = Done (set_renders (S (renders s')) s').
Proof. unfold Controller.createVisualizer. now intros ->. Qed.



Lemma set_currentStyle_fields (value : string) (s : Visualizer) :
  currentStyle (set_currentStyle value s) = value /\
  renders (set_currentStyle value s) = renders s /\
  bars (set_currentStyle value s) = bars s.
Proof. now destruct s. Qed.

(** What one listener does with an identifier outside the four. *)
Lemma onStyleChange_invalid (value : string) (f fb : fault) (s : Visualizer) :
  ~ validStyle value ->
  exists s',
    onStyleChange value f fb s = Done s' /\
    currentStyle s' = value /\
    bars s' = [] /\ towers s' = [] /\ groundPlane s' = None /\
    starfield s' = None /\ pointsMesh s' = None /\
    shaderPlane s' = None /\ shaderMaterial s' = None /\
    renders s' = S (renders s).
Proof.
  intros Hv.
  pose proof (prepareScene_fields (set_currentStyle value s)) as P.
  cbn zeta in P.
  destruct (set_currentStyle_fields value s) as (F1 & F2 & _).
  rewrite F1, F2 in P.
  destruct P as (St & Rn & P1 & P2 & P3 & P4 & P5 & P6 & P7).
  set (s0 := prepareScene innerWidth innerHeight (set_currentStyle value s)) in *.
  exists (set_renders (S (renders s0)) s0).
  split.
  - apply createVisualizer_done. fold s0.
    apply buildStyle_invalid. now rewrite St.
  - rewrite <- Rn. clear Rn. now destruct s0.
Qed.

(** One listener and an identifier outside the four, with the scene
    it leaves. *)
Lemma onStyleChange_invalid_scene (value : string) (f fb : fault)
      (s : Visualizer) :
  ~ validStyle value ->
  exists s',
    onStyleChange value f fb s = Done s' /\
    currentStyle s' = value /\
    styleObjects s' = [] /\ shaderMaterial s' = None /\
    scene s' = without (styleObjects s) (scene s) /\
    renders s' = S (renders s).
Proof.
  intros Hv.
  destruct (invalid_eqb _ Hv) as (E1 & E2 & E3 & E4).
  pose proof (clearScene_scene (set_currentStyle value s)) as Hsc.
  destruct (clearScene_fields (set_currentStyle value s)) as [sc E].
  rewrite E in Hsc. cbn [scene] in Hsc.
  unfold Controller.onStyleChange, Controller.createVisualizer,
    prepareScene.
  rewrite E.
  destruct s as [sc0 bg cam oc bs ps ts gp cl sf pm st orb sp sm stime ada
                   smo rh nid rn].
  cbn [set_currentStyle currentStyle] in *.
  rewrite E4. unfold buildStyle.
  cbn [cameraLookAt cameraPositionSet set_camera set_background
       set_orbitControls currentStyle camera orbitControls].
  rewrite E1, E2, E3, E4.
  eexists. split; [reflexivity |].
  cbn. repeat split. exact Hsc.
Qed.

(** C8, as the code has it: an identifier outside the four is not
    rejected.  Both listeners return without an error and the
    identifier is stored as the current style; every object a style
    field holds (bars, particles, towers, ground plane, cloud layers,
    starfield, points mesh, shader plane) is taken out of the scene and
    the fields are emptied; every other child of the scene stays, in its
    place (the lights, also those the Points style added); nothing is
    built, and each listener renders the scene once. *)
Theorem invalid_style_clears_scene (value : string)
        (f1 fb1 f2 fb2 : fault) (s : Visualizer) :
  ~ validStyle value ->
  exists s',
    dispatchChange value f1 fb1 f2 fb2 s = Done s' /\
    currentStyle s' = value /\
    bars s' = [] /\ towers s' = [] /\ groundPlane s' = None /\
    starfield s' = None /\ pointsMesh s' = None /\
    shaderPlane s' = None /\ shaderMaterial s' = None /\
    styleObjects s' = [] /\
    scene s' = without (styleObjects s) (scene s) /\
    (forall o : Object3D,
        In o (scene s') <->
        In o (scene s) /\ heldIn (styleObjects s) o = false) /\
    renders s' = S (S (renders s)).
Proof.
  intros Hv. unfold Controller.dispatchChange.
  destruct (onStyleChange_invalid_scene value f1 fb1 s Hv)
    as (s1 & R1 & _ & O1 & _ & Sc1 & N1).
  rewrite R1. cbn [stateOf].
  destruct (onStyleChange_invalid_scene value f2 fb2 s1 Hv)
    as (s2 & R2 & St2 & O2 & M2 & Sc2 & N2).
  destruct (onStyleChange_invalid value f2 fb2 s1 Hv)
    as (s2' & R2' & _ & P2 & P3 & P4 & P5 & P6 & P7 & P8 & _).
  assert (s2' = s2) by congruence. subst s2'.
  rewrite O1, without_nil, Sc1 in Sc2. rewrite N1 in N2.
  exists s2.
  split; [exact R2 |]. split; [exact St2 |].
  split; [exact P2 |]. split; [exact P3 |]. split; [exact P4 |].
  split; [exact P5 |]. split; [exact P6 |]. split; [exact P7 |].
  split; [exact P8 |]. split; [exact O2 |]. split; [exact Sc2 |].
  split; [| exact N2].
  intros o. rewrite Sc2. apply without_In.
Qed.


End Window.

Lemma invalid_style_clears_scene_witness :
  let s := selectStyle 1920 1080 "points" (newVisualizer 1920 1080) in
  exists s',
    dispatchChange 1920 1080 "wave" None None None None s = Done s' /\
    currentStyle s' = "wave"%string /\
    bars s' = [] /\ towers s' = [] /\ groundPlane s' = None /\
    starfield s' = None /\ pointsMesh s' = None /\
    shaderPlane s' = None /\ shaderMaterial s' = None /\
    styleObjects s' = [] /\
    scene s' = without (styleObjects s) (scene s) /\
    (forall o : Object3D,
        In o (scene s') <->
        In o (scene s) /\ heldIn (styleObjects s) o = false) /\
    renders s' = S (S (renders s)).
Proof.
  apply (invalid_style_clears_scene 1920 1080 "wave" None None None None
           (selectStyle 1920 1080 "points" (newVisualizer 1920 1080))).
  unfold validStyle. intros [H | [H | [H | H]]]; discriminate H.
Defined.

(** C8 as stated fails: the identifier [wave] is accepted without an
    error, becomes the current style, and the 64 bars are removed; after
    the Points style the points mesh is removed while the two lights that
    style added stay in the scene with the two lights of [init]. *)
Lemma invalid_style_is_accepted :
  let s := newVisualizer 1920 1080 in
  let o := dispatchChange 1920 1080 "wave" None None None None s in
  let p := selectStyle 1920 1080 "points" s in
  let q := dispatchChange 1920 1080 "wave" None None None None p in
  (exists s', o = Done s') /\
  currentStyle s = "bars"%string /\
  currentStyle (stateOf o) = "wave"%string /\
  length (bars s) = 64%nat /\
  bars (stateOf o) = [] /\
  length (scene s) = 66%nat /\
  length (scene (stateOf o)) = 2%nat /\
  (exists s', q = Done s') /\
  currentStyle (stateOf q) = "wave"%string /\
  map objKind (scene p)
  = [AmbientLight; DirectionalLight; AmbientLight; DirectionalLight;
     PointsMesh; AmbientLight; DirectionalLight] /\
  map objKind (scene (stateOf q))
  = [AmbientLight; DirectionalLight; AmbientLight; DirectionalLight;
     AmbientLight; DirectionalLight].
Proof.
  cbn zeta. split; [eexists; vm_compute; reflexivity |].
  split; [vm_compute; reflexivity |].
  split; [vm_compute; reflexivity |].
  split; [vm_compute; reflexivity |].
  split; [vm_compute; reflexivity |].
  split; [vm_compute; reflexivity |].
  split; [vm_compute; reflexivity |].
  split; [eexists; vm_compute; reflexivity |].
  split; [vm_compute; reflexivity |].
  split; vm_compute; reflexivity.
Qed.



End ControllerFacts.

(** ** Accounts *)

Module AuthFacts.
Import Auth.

Local Open Scope string_scope.

Lemma nonempty_of_length (s : string) (n : nat) :
  (S n <= String.length s)%nat -> String.eqb s "" = false.
Proof. destruct s; simpl; [lia | reflexivity]. Qed.

Lemma acceptable_dec (u p : string) : acceptable u p \/ ~ acceptable u p.
Proof. unfold acceptable. lia. Qed.

Lemma validateInput_ok (u p : string) (st : page) :
  acceptable u p -> validateInput u p st = (true, st).
Proof.
  intros [Hu Hp]. unfold validateInput.
  rewrite (nonempty_of_length u 2 Hu), (nonempty_of_length p 5 Hp). simpl.
  destruct (Nat.ltb_spec (String.length u) 3); [lia|].
  destruct (Nat.ltb_spec (String.length p) 6); [lia|]. reflexivity.
Qed.

Lemma validateInput_bad (u p : string) (st : page) :
  ~ acceptable u p ->
  exists message,
    validateInput u p st = (false, showError message st) /\ message <> "".
Proof.
  intros Hn. unfold validateInput.
  destruct (String.eqb u "" || String.eqb p "").
  { eexists. split; [reflexivity | discriminate]. }
  destruct (Nat.ltb_spec (String.length u) 3).
  { eexists. split; [reflexivity | discriminate]. }
  destruct (Nat.ltb_spec (String.length p) 6).
  { eexists. split; [reflexivity | discriminate]. }
  exfalso. apply Hn. split; lia.
Qed.

Lemma validateInput_true (u p : string) (st st' : page) :
  validateInput u p st = (true, st') -> acceptable u p /\ st' = st.
Proof.
  unfold validateInput.
  destruct (String.eqb u "" || String.eqb p ""); [discriminate|].
  destruct (Nat.ltb_spec (String.length u) 3); [discriminate|].
  destruct (Nat.ltb_spec (String.length p) 6); [discriminate|].
  intros [= <-]. repeat split; lia.
Qed.

Lemma getProp_own (table : gmap string string) (name v : string) :
  table !! name = Some v -> getProp table name = Str v.
Proof. unfold getProp. now intros ->. Qed.

Lemma stored_password_accepted (table : gmap string string) (u p : string) :
  table !! u = Some p -> (6 <= String.length p)%nat ->
  truthy (getProp table u) = true /\ differs (getProp table u) p = false.
Proof.
  intros Hl Hp. rewrite (getProp_own _ _ _ Hl). simpl.
  rewrite (nonempty_of_length p 5 Hp), String.eqb_refl. auto.
Qed.

Lemma accepted_is_stored (table : gmap string string) (u p : string) :
  differs (getProp table u) p = false -> table !! u = Some p.
Proof.
  unfold getProp. destruct (table !! u) as [v|].
  - simpl. intros H. apply negb_false_iff, String.eqb_eq in H. now subst.
  - now destruct (existsb _ _).
Qed.

(** The page after a valid submit in login mode. *)
Lemma submit_login (u p : string) (st : page) :
  isLogin st = true -> acceptable (trim u) (trim p) ->
  submit u p st =
  (if negb (truthy (getProp (users st) (trim u))) then
     showError "User does not exist." (clearError st)
   else if differs (getProp (users st) (trim u)) (trim p) then
     showError "Incorrect password." (clearError st)
   else dispatchLoggedIn
          (showMainApp (setCurrentUser (trim u) (clearError st)))).
Proof.
  intros Hm Ha. unfold submit.
  rewrite (validateInput_ok _ _ (clearError st) Ha). simpl.
  rewrite Hm. unfold handleLogin. simpl.
  destruct (truthy _); simpl; [|now rewrite ?Hm].
  destruct (differs _ _); simpl; now rewrite ?Hm.
Qed.

(** The page after a valid submit in register mode. *)
Lemma submit_register (u p : string) (st : page) :
  isLogin st = false -> acceptable (trim u) (trim p) ->
  submit u p st =
  (if truthy (getProp (users st) (trim u)) then
     showError "Username already taken." (clearError st)
   else showError "Registration successful. Please log in."
          (switchMode
             (setCurrentUser (trim u)
                (saveUsers (<[trim u := trim p]> (users st))
                           (clearError st))))).
Proof.
  intros Hm Ha. unfold submit.
  rewrite (validateInput_ok _ _ (clearError st) Ha). simpl.
  rewrite Hm. unfold handleRegister. simpl.
  destruct (truthy _); simpl; now rewrite ?Hm.
Qed.

Lemma submit_invalid (u p : string) (st : page) :
  ~ acceptable (trim u) (trim p) ->
  exists message, submit u p st = showError message st /\ message <> "".
Proof.
  intros Hn. unfold submit.
  destruct (validateInput_bad _ _ (clearError st) Hn) as (m & -> & Hm).
  simpl. exists m. split; [reflexivity | exact Hm].
Qed.

(** X1. A name that is free can be registered with any acceptable
    password, and the same two field values then log in: the form is back
    in login mode after the registration, the table holds the trimmed
    password under the trimmed name, and the second submit shows the
    application and dispatches one [userLoggedIn] event. *)
Theorem register_then_login (u p : string) (st : page) :
  isLogin st = false ->
  acceptable (trim u) (trim p) ->
  truthy (getProp (users st) (trim u)) = false ->
  let registered := submit u p st in
  isLogin registered = true /\
  authError registered = "Registration successful. Please log in." /\
  users registered !! trim u = Some (trim p) /\
  appShown registered = appShown st /\
  let entered := submit u p registered in
  appShown entered = true /\
  currentUser entered = Some (trim u) /\
  loggedInEvents entered = S (loggedInEvents st) /\
  authError entered = "".
Proof.
  intros Hm Ha Hfree.
  assert (Hreg := submit_register u p st Hm Ha). rewrite Hfree in Hreg.
  cbv zeta. rewrite Hreg.
  set (st1 := showError _ _).
  assert (Hl : users st1 !! trim u = Some (trim p))
    by (subst st1; simpl; apply lookup_insert_eq).
  assert (Hm1 : isLogin st1 = true) by (subst st1; simpl; now rewrite Hm).
  split; [exact Hm1|]. split; [reflexivity|]. split; [exact Hl|].
  split; [reflexivity|].
  rewrite (submit_login u p st1 Hm1 Ha).
  destruct (stored_password_accepted _ _ _ Hl (proj2 Ha)) as [-> ->].
  simpl. auto.
Qed.

(** X2. A submit whose trimmed username has fewer than 3 characters or
    whose trimmed password has fewer than 6 only shows a message: the
    table, the session, the mode and the application are untouched. *)
Theorem invalid_input_only_reports (u p : string) (st : page) :
  ~ acceptable (trim u) (trim p) ->
  let st' := submit u p st in
  users st' = users st /\ currentUser st' = currentUser st /\
  isLogin st' = isLogin st /\ appShown st' = appShown st /\
  loggedInEvents st' = loggedInEvents st /\ authError st' <> "".
Proof.
  intros Hn. destruct (submit_invalid u p st Hn) as (m & E & Hm).
  cbv zeta. rewrite E. simpl. auto 10.
Qed.

(** X3. In login mode, with the application hidden, a submit shows the
    application exactly when the trimmed field values are acceptable and
    the table stores that password under that name. *)
Theorem login_iff_stored_password (u p : string) (st : page) :
  isLogin st = true -> appShown st = false ->
  appShown (submit u p st) = true <->
  acceptable (trim u) (trim p) /\ users st !! trim u = Some (trim p).
Proof.
  intros Hm Hs. split.
  - intros H.
    assert (Ha : acceptable (trim u) (trim p)).
    { destruct (acceptable_dec (trim u) (trim p)) as [Ha | Hn]; [exact Ha|].
      destruct (submit_invalid u p st Hn) as (m & E & _).
      rewrite E in H. simpl in H. congruence. }
    split; [exact Ha|].
    rewrite (submit_login u p st Hm Ha) in H.
    destruct (truthy _); simpl in H; [|congruence].
    destruct (differs _ _) eqn:Hd; simpl in H; [congruence|].
    now apply accepted_is_stored.
  - intros [Ha Hl]. rewrite (submit_login u p st Hm Ha).
    destruct (stored_password_accepted _ _ _ Hl (proj2 Ha)) as [-> ->].
    reflexivity.
Qed.

Lemma submit_users_login (u p : string) (st : page) :
  isLogin st = true -> users (submit u p st) = users st.
Proof.
  intros Hm. destruct (acceptable_dec (trim u) (trim p)) as [Ha | Hn].
  - rewrite (submit_login u p st Hm Ha).
    destruct (truthy _); simpl; [|reflexivity].
    now destruct (differs _ _).
  - destruct (submit_invalid u p st Hn) as (m & -> & _). reflexivity.
Qed.

(** X4. No submit changes or removes a stored password: an entry of the
    table with a non-empty password is still there afterwards, whatever
    the mode and the field values; and in login mode the table is not
    written at all. *)
Theorem stored_password_never_overwritten (u p : string) (st : page)
        (name password : string) :
  users st !! name = Some password -> password <> "" ->
  users (submit u p st) !! name = Some password /\
  (isLogin st = true -> users (submit u p st) = users st).
Proof.
  intros Hl Hne. split; [|apply submit_users_login].
  destruct (isLogin st) eqn:Hm.
  { now rewrite submit_users_login. }
  destruct (acceptable_dec (trim u) (trim p)) as [Ha | Hn].
  - rewrite (submit_register u p st Hm Ha).
    destruct (truthy _) eqn:Ht; simpl; [exact Hl|].
    destruct (decide (trim u = name)) as [E | Hd].
    + subst name. rewrite (getProp_own _ _ _ Hl) in Ht. simpl in Ht.
      apply negb_false_iff, String.eqb_eq in Ht. contradiction.
    + now rewrite lookup_insert_ne.
  - destruct (submit_invalid u p st Hn) as (m & -> & _). exact Hl.
Qed.

(** X5. A successful registration already stores the new name as the
    current user, although the application stays hidden and the message
    asks to log in: the next page load shows the application and
    dispatches [userLoggedIn] without any password being entered. *)
Theorem registration_opens_session (u p : string) (st : page) :
  isLogin st = false ->
  acceptable (trim u) (trim p) ->
  truthy (getProp (users st) (trim u)) = false ->
  let registered := submit u p st in
  currentUser registered = Some (trim u) /\
  appShown registered = appShown st /\
  loggedInEvents registered = loggedInEvents st /\
  let reloaded := load (users registered) (currentUser registered) in
  appShown reloaded = true /\ loggedInEvents reloaded = 1%nat /\
  isLogin reloaded = true.
Proof.
  intros Hm Ha Hfree.
  assert (Hreg := submit_register u p st Hm Ha). rewrite Hfree in Hreg.
  cbv zeta. rewrite Hreg. simpl.
  split; [reflexivity|]. split; [reflexivity|]. split; [reflexivity|].
  unfold load, checkLoggedIn. simpl.
  rewrite (nonempty_of_length (trim u) 2 (proj1 Ha)). simpl. auto.
Qed.

(** X6. [logout] toggles the mode instead of resetting it.  After a
    login (which can only happen in login mode) the logout leaves the
    form in register mode, with the session cleared and the application
    hidden; entering the same credentials again is then answered by
    "Username already taken." and does not show the application. *)
Theorem logout_after_login_registers (u p : string) (st : page) :
  isLogin st = true ->
  acceptable (trim u) (trim p) ->
  users st !! trim u = Some (trim p) ->
  let left := logout (submit u p st) in
  isLogin left = false /\ currentUser left = None /\
  appShown left = false /\
  let again := submit u p left in
  authError again = "Username already taken." /\
  appShown again = false /\ currentUser again = None.
Proof.
  intros Hm Ha Hl.
  assert (Hin := submit_login u p st Hm Ha).
  destruct (stored_password_accepted _ _ _ Hl (proj2 Ha)) as [Ht Hd].
  rewrite Ht, Hd in Hin. simpl in Hin.
  cbv zeta. rewrite Hin.
  set (left := logout _).
  assert (Hm' : isLogin left = false) by (subst left; simpl; now rewrite Hm).
  assert (Hu : users left = users st) by reflexivity.
  split; [exact Hm'|]. split; [reflexivity|]. split; [reflexivity|].
  rewrite (submit_register u p left Hm' Ha), Hu, Ht. simpl. auto.
Qed.

(** X7. The property names of [Object.prototype] are not usable as
    usernames: on a table without such an entry, registering one is
    answered by "Username already taken." and changes neither the table
    nor the session, and logging in with one is answered by "Incorrect
    password." rather than "User does not exist.". *)
Theorem prototype_names_are_taken (u p : string) (st : page) :
  In (trim u) objectPrototype ->
  (6 <= String.length (trim p))%nat ->
  users st !! trim u = None ->
  let st' := submit u p st in
  users st' = users st /\ currentUser st' = currentUser st /\
  appShown st' = appShown st /\
  authError st' =
    (if isLogin st then "Incorrect password." else "Username already taken.").
Proof.
  intros Hin Hp Hfree.
  assert (Ha : acceptable (trim u) (trim p)).
  { split; [|exact Hp].
    unfold objectPrototype in Hin. simpl in Hin.
    repeat (destruct Hin as [<- | Hin]; [simpl; lia|]). contradiction. }
  assert (Hg : getProp (users st) (trim u) = Inherited).
  { unfold getProp. rewrite Hfree.
    replace (existsb (String.eqb (trim u)) objectPrototype) with true;
      [reflexivity|].
    symmetry. apply existsb_exists. exists (trim u).
    split; [exact Hin | apply String.eqb_refl]. }
  cbv zeta. destruct (isLogin st) eqn:Hm.
  - rewrite (submit_login u p st Hm Ha), Hg. simpl. auto.
  - rewrite (submit_register u p st Hm Ha), Hg. simpl. auto.
Qed.

Lemma register_then_login_witness :
  let st := mkPage ∅ None false "" false 0 in
  (isLogin st = false /\ acceptable (trim " alice ") (trim "secret1")) /\
  let registered := submit " alice " "secret1" st in
  isLogin registered = true /\
  authError registered = "Registration successful. Please log in." /\
  users registered !! trim " alice " = Some (trim "secret1") /\
  appShown registered = appShown st /\
  let entered := submit " alice " "secret1" registered in
  appShown entered = true /\
  currentUser entered = Some (trim " alice ") /\
  loggedInEvents entered = S (loggedInEvents st) /\
  authError entered = "".
Proof.
  split.
  - split; [reflexivity | split; vm_compute; lia].
  - apply (register_then_login " alice " "secret1"
                               (mkPage ∅ None false "" false 0)).
    + reflexivity.
    + split; vm_compute; lia.
    + reflexivity.
Defined.

Lemma invalid_input_only_reports_witness :
  let st := mkPage ∅ None false "" false 0 in
  ~ acceptable (trim "al") (trim "secret1") /\
  let st' := submit "al" "secret1" st in
  users st' = users st /\ currentUser st' = currentUser st /\
  isLogin st' = isLogin st /\ appShown st' = appShown st /\
  loggedInEvents st' = loggedInEvents st /\ authError st' <> "".
Proof.
  assert (H : ~ acceptable (trim "al") (trim "secret1")).
  { intros [H _]. vm_compute in H. lia. }
  split; [exact H|].
  apply (invalid_input_only_reports "al" "secret1"
                                    (mkPage ∅ None false "" false 0) H).
Defined.

Lemma login_iff_stored_password_witness :
  let st := mkPage {[ "alice" := "secret1" ]} None true "" false 0 in
  appShown (submit "alice" "secret1" st) = true <->
  acceptable (trim "alice") (trim "secret1") /\
  users st !! trim "alice" = Some (trim "secret1").
Proof.
  apply (login_iff_stored_password
           "alice" "secret1"
           (mkPage {[ "alice" := "secret1" ]} None true "" false 0));
    reflexivity.
Defined.

Lemma stored_password_never_overwritten_witness :
  let st := mkPage {[ "alice" := "secret1" ]} None false "" false 0 in
  users (submit "alice" "another2" st) !! "alice" = Some "secret1" /\
  (isLogin st = true -> users (submit "alice" "another2" st) = users st).
Proof.
  apply (stored_password_never_overwritten
           "alice" "another2"
           (mkPage {[ "alice" := "secret1" ]} None false "" false 0)
           "alice" "secret1").
  - reflexivity.
  - discriminate.
Defined.

Lemma registration_opens_session_witness :
  let st := mkPage ∅ None false "" false 0 in
  let registered := submit "alice" "secret1" st in
  currentUser registered = Some (trim "alice") /\
  appShown registered = appShown st /\
  loggedInEvents registered = loggedInEvents st /\
  let reloaded := load (users registered) (currentUser registered) in
  appShown reloaded = true /\ loggedInEvents reloaded = 1%nat /\
  isLogin reloaded = true.
Proof.
  apply (registration_opens_session "alice" "secret1"
                                    (mkPage ∅ None false "" false 0)).
  - reflexivity.
  - split; vm_compute; lia.
  - reflexivity.
Defined.

Lemma logout_after_login_registers_witness :
  let st := mkPage {[ "alice" := "secret1" ]} None true "" false 0 in
  let left := logout (submit "alice" "secret1" st) in
  isLogin left = false /\ currentUser left = None /\
  appShown left = false /\
  let again := submit "alice" "secret1" left in
  authError again = "Username already taken." /\
  appShown again = false /\ currentUser again = None.
Proof.
  apply (logout_after_login_registers
           "alice" "secret1"
           (mkPage {[ "alice" := "secret1" ]} None true "" false 0)).
  - reflexivity.
  - split; vm_compute; lia.
  - reflexivity.
Defined.

Lemma prototype_names_are_taken_witness :
  let st := mkPage ∅ None false "" false 0 in
  let st' := submit "constructor" "secret1" st in
  users st' = users st /\ currentUser st' = currentUser st /\
  appShown st' = appShown st /\
  authError st' =
    (if isLogin st then "Incorrect password." else "Username already taken.").
Proof.
  apply (prototype_names_are_taken "constructor" "secret1"
                                   (mkPage ∅ None false "" false 0)).
  - vm_compute. auto.
  - vm_compute. lia.
  - reflexivity.
Defined.

End AuthFacts.

(** ** The playlist *)

Module PlayerFacts.
Import Player.

Lemma loadAndList_fields (file : option string) (s : player) :
  audioFiles (loadAndList file s) = audioFiles s /\
  currentTrackIndex (loadAndList file s) = currentTrackIndex s /\
  audioContext (loadAndList file s) = audioContext s /\
  (trackItems (loadAndList file s) = trackItems s \/
   trackItems (loadAndList file s) = length (audioFiles s)).
Proof.
  unfold loadAndList, loadAudioFile.
  destruct (audioContext s) eqn:E; simpl; [destruct file|]; simpl; auto.
Qed.

Lemma loadAndList_some (f : string) (s : player) :
  trackItems (loadAndList (Some f) s) = length (audioFiles s).
Proof.
  unfold loadAndList, loadAudioFile. now destruct (audioContext s).
Qed.

Lemma fileAt_valid (files : list string) (i : Z) :
  (0 <= i < Z.of_nat (length files))%Z -> exists f, fileAt files i = Some f.
Proof.
  intros H. unfold fileAt.
  destruct (Z.ltb_spec i 0); [lia|].
  destruct (lookup_lt_is_Some_2 files (Z.to_nat i)) as [f Hf]; [lia|].
  now exists f.
Qed.

Lemma set_index_then_list (i : Z) (s : player) :
  playlist_ok s -> audioFiles s <> [] ->
  (0 <= i < len s)%Z ->
  playlist_ok
    (loadAndList (fileAt (audioFiles (set_index i s)) i) (set_index i s)).
Proof.
  intros (H5 & _ & _) Hne Hi.
  destruct (fileAt_valid (audioFiles s) i Hi) as [f Hf].
  simpl. rewrite Hf.
  destruct (loadAndList_fields (Some f) (set_index i s)) as (E1 & E2 & _ & _).
  unfold playlist_ok, indexValid, len.
  rewrite loadAndList_some, E1, E2. simpl. auto.
Qed.

Lemma rem_next (i n : Z) :
  (0 <= i < n)%Z -> (0 <= Z.rem (i + 1) n < n)%Z.
Proof. intros H. apply Z.rem_bound_pos; lia. Qed.

Lemma rem_previous (i n : Z) :
  (0 <= i < n)%Z -> (0 <= Z.rem (i - 1 + n) n < n)%Z.
Proof. intros H. apply Z.rem_bound_pos; lia. Qed.

Lemma nonempty_length (s : player) :
  (0 <? length (audioFiles s))%nat = true <-> audioFiles s <> [].
Proof.
  destruct (audioFiles s); simpl; split; intros; try easy.
Qed.

Lemma act_ok (s : player) (a : action) : playlist_ok s -> playlist_ok (act s a).
Proof.
  intros Hok. destruct a as [files | | | index]; simpl.
  - unfold selectFiles.
    set (s1 := if (5 <? length files)%nat then _ else _).
    assert (H1 : (length (audioFiles s1) <= 5)%nat).
    { subst s1. destruct (Nat.ltb_spec 5 (length files)); simpl.
      - rewrite length_take. lia.
      - lia. }
    destruct (0 <? length (audioFiles s1))%nat eqn:Hn.
    + apply nonempty_length in Hn.
      destruct (fileAt_valid (audioFiles s1) 0) as [f Hf].
      { destruct (audioFiles s1); [easy | simpl; lia]. }
      simpl. rewrite Hf.
      destruct (loadAndList_fields (Some f) (set_index 0 s1))
        as (E1 & E2 & _ & _).
      unfold playlist_ok, indexValid, len.
      rewrite loadAndList_some, E1, E2. simpl.
      split; [exact H1|]. split; [|auto].
      intros _. destruct (audioFiles s1); [easy | simpl; lia].
    + assert (Hnil : audioFiles s1 = []).
      { destruct (audioFiles s1); [reflexivity | discriminate]. }
      unfold playlist_ok. rewrite Hnil. simpl. split; [lia|]. easy.
  - unfold playNextTrack.
    destruct (0 <? length (audioFiles s))%nat eqn:Hn; [|exact Hok].
    apply nonempty_length in Hn.
    apply set_index_then_list; auto.
    apply rem_next. now apply Hok.
  - unfold playPreviousTrack.
    destruct (0 <? length (audioFiles s))%nat eqn:Hn; [|exact Hok].
    apply nonempty_length in Hn.
    apply set_index_then_list; auto.
    apply rem_previous. now apply Hok.
  - unfold clickTrack.
    destruct (Nat.ltb_spec index (trackItems s)); [|exact Hok].
    destruct (Z.eqb_spec (Z.of_nat index) (currentTrackIndex s));
      [exact Hok|]. simpl negb. cbv iota.
    destruct (decide (audioFiles s = [])) as [Hfiles | Hne].
    + (* stale handlers over an emptied playlist: the read throws *)
      assert (Hf : fileAt (audioFiles (set_index (Z.of_nat index) s))
                          (Z.of_nat index) = None).
      { simpl. rewrite Hfiles. unfold fileAt.
        destruct (Z.ltb_spec (Z.of_nat index) 0); [lia|]. apply lookup_nil. }
      rewrite Hf.
      destruct (loadAndList_fields None (set_index (Z.of_nat index) s))
        as (E1 & _ & _ & _).
      unfold playlist_ok. rewrite E1. simpl. rewrite Hfiles. simpl.
      split; [lia | split; easy].
    + apply set_index_then_list; auto.
      destruct Hok as (_ & _ & Hitems). rewrite (Hitems Hne) in H.
      unfold len. lia.
Qed.

Lemma initial_ok : playlist_ok initialPlayer.
Proof. unfold playlist_ok. simpl. split; [lia | split; easy]. Qed.

Lemma runActions_ok (actions : list action) :
  forall s, playlist_ok s -> playlist_ok (runActions actions s).
Proof.
  unfold runActions.
  induction actions as [|a rest IH]; intros s Hok; simpl; [exact Hok|].
  apply IH, act_ok, Hok.
Qed.

(** X8. Whatever the user does (selecting files, next, previous,
    clicking a track item, in any order and number), the playlist of a
    new visualizer never holds more than five tracks, and while it holds
    any the current index names one of them. *)
Theorem playlist_index_always_valid (actions : list action) :
  let s := runActions actions initialPlayer in
  (length (audioFiles s) <= 5)%nat /\
  (audioFiles s <> [] ->
   exists f, fileAt (audioFiles s) (currentTrackIndex s) = Some f).
Proof.
  cbv zeta.
  destruct (runActions_ok actions initialPlayer initial_ok)
    as (H5 & Hidx & _).
  split; [exact H5|].
  intros Hne. apply fileAt_valid. apply (Hidx Hne).
Qed.

Lemma playNextTrack_index (s : player) :
  audioFiles s <> [] ->
  currentTrackIndex (playNextTrack s) = Z.rem (currentTrackIndex s + 1) (len s)
  /\ audioFiles (playNextTrack s) = audioFiles s.
Proof.
  intros Hne. unfold playNextTrack.
  rewrite (proj2 (nonempty_length s) Hne).
  destruct (loadAndList_fields
              (fileAt (audioFiles s)
                      (Z.rem (currentTrackIndex s + 1) (len s)))
              (set_index (Z.rem (currentTrackIndex s + 1) (len s)) s))
    as (E1 & E2 & _).
  simpl in *. now rewrite E1, E2.
Qed.

Lemma playPreviousTrack_index (s : player) :
  audioFiles s <> [] ->
  currentTrackIndex (playPreviousTrack s) =
    Z.rem (currentTrackIndex s - 1 + len s) (len s)
  /\ audioFiles (playPreviousTrack s) = audioFiles s.
Proof.
  intros Hne. unfold playPreviousTrack.
  rewrite (proj2 (nonempty_length s) Hne).
  destruct (loadAndList_fields
              (fileAt (audioFiles s)
                      (Z.rem (currentTrackIndex s - 1 + len s) (len s)))
              (set_index (Z.rem (currentTrackIndex s - 1 + len s) (len s)) s))
    as (E1 & E2 & _).
  simpl in *. now rewrite E1, E2.
Qed.

Lemma len_pos (s : player) : audioFiles s <> [] -> (0 < len s)%Z.
Proof. unfold len. destruct (audioFiles s); [easy | simpl; lia]. Qed.

Lemma rem_previous_next (i n : Z) :
  (0 <= i < n -> Z.rem (Z.rem (i + 1) n - 1 + n) n = i)%Z.
Proof.
  intros H. assert (H1 := rem_next i n H).
  rewrite (Z.rem_mod_nonneg (i + 1) n) in * by lia.
  rewrite Z.rem_mod_nonneg by lia.
  destruct (Z.eq_dec (i + 1)%Z n) as [E | E].
  - rewrite E, Z.mod_same by lia. rewrite Z.mod_small; lia.
  - rewrite (Z.mod_small (i + 1) n) by lia.
    replace (i + 1 - 1 + n)%Z with (i + 1 * n)%Z by lia.
    rewrite Z.mod_add by lia. apply Z.mod_small. lia.
Qed.

Lemma rem_next_previous (i n : Z) :
  (0 <= i < n -> Z.rem (Z.rem (i - 1 + n) n + 1) n = i)%Z.
Proof.
  intros H. assert (H1 := rem_previous i n H).
  rewrite (Z.rem_mod_nonneg (i - 1 + n) n) in * by lia.
  rewrite Z.rem_mod_nonneg by lia.
  destruct (Z.eq_dec i 0%Z) as [E | E].
  - subst i. rewrite (Z.mod_small (0 - 1 + n) n) by lia.
    replace (0 - 1 + n + 1)%Z with n by lia. apply Z.mod_same. lia.
  - replace (i - 1 + n)%Z with (i - 1 + 1 * n)%Z by lia.
    rewrite Z.mod_add by lia.
    rewrite (Z.mod_small (i - 1) n) by lia.
    rewrite Z.mod_small; lia.
Qed.

(** X9. On a playlist with a valid index, "previous" undoes "next" and
    "next" undoes "previous": the index is back where it was, also across
    the wrap-around at either end. *)
Theorem next_previous_inverse (s : player) :
  audioFiles s <> [] -> indexValid s ->
  currentTrackIndex (playPreviousTrack (playNextTrack s)) = currentTrackIndex s
  /\
  currentTrackIndex (playNextTrack (playPreviousTrack s)) = currentTrackIndex s.
Proof.
  intros Hne Hv. unfold indexValid in Hv.
  destruct (playNextTrack_index s Hne) as [En Fn].
  destruct (playPreviousTrack_index s Hne) as [Ep Fp].
  assert (Hn : audioFiles (playNextTrack s) <> []) by now rewrite Fn.
  assert (Hp : audioFiles (playPreviousTrack s) <> []) by now rewrite Fp.
  destruct (playPreviousTrack_index _ Hn) as [E1 _].
  destruct (playNextTrack_index _ Hp) as [E2 _].
  assert (Ln : len (playNextTrack s) = len s) by (unfold len; now rewrite Fn).
  assert (Lp : len (playPreviousTrack s) = len s)
    by (unfold len; now rewrite Fp).
  rewrite E1, E2, Ln, Lp, En, Ep.
  set (n := len s) in *. set (i := currentTrackIndex s) in *.
  assert (H1 := rem_next i n Hv). assert (H2 := rem_previous i n Hv).
  split; [apply rem_previous_next | apply rem_next_previous]; exact Hv.
Qed.

Lemma pressNext_index (k : nat) (s : player) :
  audioFiles s <> [] -> indexValid s ->
  audioFiles (pressNext k s) = audioFiles s /\
  currentTrackIndex (pressNext k s) =
    ((currentTrackIndex s + Z.of_nat k) mod len s)%Z.
Proof.
  intros Hne Hv. unfold indexValid in Hv.
  induction k as [|k [IHf IHi]].
  - simpl. split; [reflexivity|]. rewrite Z.add_0_r.
    symmetry. apply Z.mod_small. exact Hv.
  - unfold pressNext in *. rewrite Nat.iter_succ.
    assert (Hk : audioFiles (Nat.iter k playNextTrack s) <> [])
      by now rewrite IHf.
    destruct (playNextTrack_index _ Hk) as [E F].
    split; [now rewrite F|].
    rewrite E, IHi.
    assert (L : len (Nat.iter k playNextTrack s) = len s)
      by (unfold len; now rewrite IHf).
    rewrite L.
    set (n := len s) in *. set (i := currentTrackIndex s) in *.
    assert (Hm : (0 <= (i + Z.of_nat k) mod n < n)%Z)
      by (apply Z.mod_pos_bound; lia).
    rewrite Z.rem_mod_nonneg by lia.
    rewrite Z.add_mod_idemp_l by lia.
    f_equal. lia.
Qed.

(** X10. Pressing "next" [k] times on a playlist of [n] tracks moves the
    index from [i] to [(i + k) mod n]; in particular [n] presses come back
    to the same track, and the list of files is never changed. *)
Theorem next_cycles_through_playlist (k : nat) (s : player) :
  audioFiles s <> [] -> indexValid s ->
  currentTrackIndex (pressNext k s) =
    ((currentTrackIndex s + Z.of_nat k) mod len s)%Z /\
  currentTrackIndex (pressNext (length (audioFiles s)) s) = currentTrackIndex s
  /\ audioFiles (pressNext k s) = audioFiles s.
Proof.
  intros Hne Hv.
  destruct (pressNext_index k s Hne Hv) as [F E].
  destruct (pressNext_index (length (audioFiles s)) s Hne Hv) as [_ E'].
  split; [exact E|]. split; [|exact F].
  rewrite E'. unfold indexValid, len in *.
  replace (currentTrackIndex s + Z.of_nat (length (audioFiles s)))%Z
    with (currentTrackIndex s + 1 * Z.of_nat (length (audioFiles s)))%Z
    by lia.
  rewrite Z.mod_add by lia. apply Z.mod_small. exact Hv.
Qed.

Lemma next_previous_inverse_witness :
  let s := mkPlayer true ["a.mp3"; "b.mp3"; "c.mp3"]%string 2 [] 3 0 in
  currentTrackIndex (playPreviousTrack (playNextTrack s)) = currentTrackIndex s
  /\
  currentTrackIndex (playNextTrack (playPreviousTrack s)) = currentTrackIndex s.
Proof.
  apply (next_previous_inverse
           (mkPlayer true ["a.mp3"; "b.mp3"; "c.mp3"]%string 2 [] 3 0)).
  - discriminate.
  - unfold indexValid, len. simpl. lia.
Defined.

Lemma next_cycles_through_playlist_witness :
  let s := mkPlayer true ["a.mp3"; "b.mp3"; "c.mp3"]%string 1 [] 3 0 in
  currentTrackIndex (pressNext 7 s) =
    ((currentTrackIndex s + Z.of_nat 7) mod len s)%Z /\
  currentTrackIndex (pressNext (length (audioFiles s)) s) = currentTrackIndex s
  /\ audioFiles (pressNext 7 s) = audioFiles s.
Proof.
  apply (next_cycles_through_playlist
           7 (mkPlayer true ["a.mp3"; "b.mp3"; "c.mp3"]%string 1 [] 3 0)).
  - discriminate.
  - unfold indexValid, len. simpl. lia.
Defined.

End PlayerFacts.

(** ** Beat intensities *)

Module IntensityFacts.
Import Bands Beat Wave.
Import BandFacts BeatFacts ParticleFacts.

Local Ltac zdiv := Z.div_mod_to_equations; lia.

Lemma inject_nat_succ (n : nat) :
  inject_Z (Z.of_nat (S n)) == inject_Z (Z.of_nat n) + 1.
Proof. rewrite Nat2Z.inj_succ, <- Z.add_1_r, inject_Z_plus. reflexivity. Qed.

Lemma fold_sum_bounds (bins : list byte) :
  forall e : Q,
    e <= fold_left (fun e b => e + normalized b) bins e /\
    fold_left (fun e b => e + normalized b) bins e
    <= e + inject_Z (Z.of_nat (length bins)).
Proof.
  induction bins as [|b rest IH]; intros e.
  - cbn [fold_left length]. change (inject_Z (Z.of_nat 0)) with 0. lra.
  - cbn [fold_left length]. destruct (IH (e + normalized b)) as [L U].
    assert (Hb := normalized_unit b). rewrite inject_nat_succ. lra.
Qed.

Lemma sumBins_bounds (bins : list byte) :
  0 <= sumBins bins <= inject_Z (Z.of_nat (length bins)).
Proof. unfold sumBins. destruct (fold_sum_bounds bins 0). lra. Qed.

Lemma fold_sum_silent (bins : list byte) :
  silent bins ->
  forall e : Q, fold_left (fun e b => e + normalized b) bins e == e.
Proof.
  induction 1 as [|b rest Hb _ IH]; intros e; [reflexivity|].
  cbn [fold_left]. rewrite IH. subst b. rewrite normalized_zero. lra.
Qed.

Lemma sumBins_silent (bins : list byte) : silent bins -> sumBins bins == 0.
Proof. intros H. apply (fold_sum_silent bins H 0). Qed.

Lemma rawBass_unit (data : list byte) :
  (5 <= length data)%nat -> in_unit (rawBass data).
Proof.
  intros H. unfold rawBass. rewrite floor_fifth. unfold len.
  set (k := (Z.of_nat (length data) / 5)%Z).
  assert (Hk : (1 <= k <= Z.of_nat (length data))%Z) by (subst k; zdiv).
  apply div_in_unit; [lia|].
  destruct (sumBins_bounds (take (Z.to_nat k) data)) as [L U].
  rewrite length_take in U.
  replace (Z.of_nat (Z.to_nat k `min` length data)) with k in U by lia.
  lra.
Qed.

Lemma rawTreble_unit (data : list byte) :
  (5 <= length data)%nat -> in_unit (rawTreble data).
Proof.
  intros H. unfold rawTreble. rewrite floor_three_fifths. unfold len.
  set (k := (3 * Z.of_nat (length data) / 5)%Z).
  assert (Hk : (0 <= k < Z.of_nat (length data))%Z) by (subst k; zdiv).
  apply div_in_unit; [lia|].
  destruct (sumBins_bounds (drop (Z.to_nat k) data)) as [L U].
  rewrite length_drop in U.
  replace (Z.of_nat (length data - Z.to_nat k))
    with (Z.of_nat (length data) - k)%Z in U by lia.
  lra.
Qed.

Lemma silent_take (n : nat) (data : list byte) :
  silent data -> silent (take n data).
Proof. unfold silent. apply Forall_take. Qed.

Lemma silent_drop (n : nat) (data : list byte) :
  silent data -> silent (drop n data).
Proof. unfold silent. apply Forall_drop. Qed.

Lemma rawBass_silent (data : list byte) :
  (5 <= length data)%nat -> silent data -> is_zero (rawBass data).
Proof.
  intros H Hs. unfold rawBass. rewrite floor_fifth. unfold len.
  apply div_is_zero; [zdiv|]. apply sumBins_silent, silent_take, Hs.
Qed.

Lemma rawTreble_silent (data : list byte) :
  (5 <= length data)%nat -> silent data -> is_zero (rawTreble data).
Proof.
  intros H Hs. unfold rawTreble. rewrite floor_three_fifths. unfold len.
  apply div_is_zero; [zdiv|]. apply sumBins_silent, silent_drop, Hs.
Qed.

Lemma in_unit_nonneg (a : jsnum) : in_unit a -> nonneg a.
Proof. destruct a; simpl; tauto. Qed.

Lemma is_zero_nonneg (a : jsnum) : is_zero a -> nonneg a.
Proof. destruct a; simpl; try tauto. intros ->. lra. Qed.

Lemma min_one_unit (x k : Q) :
  0 <= x -> 0 <= k -> in_unit (min (mul (Fin x) (Fin k)) (Fin 1.0)).
Proof.
  intros Hx Hk. cbn [mul min lt].
  assert (0 <= x * k) by nra.
  destruct (Qltb 1.0 (x * k)) eqn:E; cbn [in_unit].
  - lra.
  - apply Qltb_ge in E. lra.
Qed.

Lemma fold_add_nonneg (h : list jsnum) :
  forall a, Forall nonneg h -> nonneg a -> nonneg (fold_left add h a).
Proof.
  induction h as [|e rest IH]; intros a Hh Ha; [exact Ha|].
  cbn [fold_left]. inversion Hh as [|? ? He Hrest]; subst.
  apply IH; [exact Hrest|].
  destruct a, e; try contradiction. cbn in *. lra.
Qed.

Lemma pushEnergy_nonneg (h : list jsnum) (e : jsnum) :
  Forall nonneg h -> nonneg e ->
  Forall nonneg (pushEnergy h e) /\ (0 < length (pushEnergy h e))%nat.
Proof.
  intros Hh He. unfold pushEnergy.
  assert (Hall : Forall nonneg (h ++ [e])).
  { apply Forall_app. split; [exact Hh | now constructor]. }
  assert (Hlen : length (h ++ [e]) = S (length h))
    by (rewrite length_app; simpl; lia).
  destruct (Nat.ltb_spec 30 (length (h ++ [e]))).
  - split.
    + destruct (h ++ [e]); [constructor | now inversion Hall].
    + destruct (h ++ [e]); simpl in *; lia.
  - split; [exact Hall | lia].
Qed.

Lemma averageEnergy_nonneg (h : list jsnum) :
  Forall nonneg h -> (0 < length h)%nat -> nonneg (averageEnergy h).
Proof.
  intros Hh Hl. unfold averageEnergy, averageDivisor.
  assert (Hs : nonneg (fold_left add h (Fin 0)))
    by (apply fold_add_nonneg; [exact Hh | simpl; lra]).
  destruct (fold_left add h (Fin 0)) as [x| | |]; try contradiction.
  cbn [nonneg] in Hs. unfold div.
  assert (Hq : 0 < inject_Z (Z.of_nat (length h)))
    by (change 0 with (inject_Z 0); rewrite <- Zlt_Qlt; lia).
  destruct (Qeq_bool _ 0) eqn:E.
  - apply Qeq_bool_eq in E. lra.
  - cbn [nonneg]. apply Qle_shift_div_l; lra.
Qed.

Lemma gt_zero_nonneg (a b : jsnum) : is_zero a -> nonneg b -> gt a b = false.
Proof.
  destruct a as [x| | |], b as [y| | |]; try contradiction.
  cbn [is_zero eqv nonneg gt lt]. intros Hx Hy.
  apply Qltb_ge. lra.
Qed.

Lemma mul_zero_fin (a : jsnum) (k : Q) : is_zero a -> is_zero (mul a (Fin k)).
Proof.
  destruct a as [x| | |]; try contradiction.
  cbn [is_zero eqv mul]. intros ->. lra.
Qed.

Section WithPow.

Variable pow : Q -> Q -> Q.

(** What a tick on a silent spectrum does to a detector without
    negative energies: nothing fires and both intensities only decay. *)
Lemma silent_step (b : beatDetectionVars) (t : tick) :
  energies_nonneg b -> silentTick t ->
  firesOn (tickData t) (tickTime t) b = false /\
  energies_nonneg (step pow b t) /\
  bassBeat (step pow b t) =
    mul (bassBeat b) (Fin (pow 0.7 (tickDelta t * 10))) /\
  trebleBeat (step pow b t) =
    mul (trebleBeat b) (Fin (pow 0.5 (tickDelta t * 15))).
Proof.
  intros (Hh & Ht & Hth) [Hn Hs].
  assert (Hb := rawBass_silent _ Hn Hs).
  assert (Hr := rawTreble_silent _ Hn Hs).
  destruct (pushEnergy_nonneg (energyHistory b) (rawBass (tickData t)) Hh
                              (is_zero_nonneg _ Hb)) as [Hh' Hl'].
  assert (Havg := averageEnergy_nonneg _ Hh' Hl').
  assert (Hthr : nonneg (mul (averageEnergy
                                (pushEnergy (energyHistory b)
                                            (rawBass (tickData t))))
                             (Fin (beatThreshold b)))).
  { destruct (averageEnergy _) as [x| | |]; try contradiction.
    cbn in *. nra. }
  assert (Hf : firesOn (tickData t) (tickTime t) b = false).
  { unfold firesOn, bassBeatFires.
    now rewrite (gt_zero_nonneg _ _ Hb Hthr). }
  assert (Hte : nonneg (add (mul (trebleEnergy b) (Fin 0.9))
                            (mul (rawTreble (tickData t)) (Fin 0.1)))).
  { destruct (trebleEnergy b) as [x| | |]; try contradiction.
    destruct (rawTreble (tickData t)) as [y| | |]; try contradiction.
    cbn in *. lra. }
  assert (Hte13 : nonneg (mul (add (mul (trebleEnergy b) (Fin 0.9))
                                   (mul (rawTreble (tickData t)) (Fin 0.1)))
                              (Fin 1.3))).
  { destruct (add _ _) as [x| | |]; try contradiction. cbn in *. lra. }
  split; [exact Hf|].
  unfold step, detectBeats. fold (firesOn (tickData t) (tickTime t) b).
  rewrite Hf, (gt_zero_nonneg _ _ Hr Hte13).
  cbn [energyHistory trebleEnergy beatThreshold bassBeat trebleBeat].
  repeat split; assumption.
Qed.

(** X12. Silence never triggers a beat.  On a detector whose history
    and treble energy are not negative (as [createWaveVisualizer]
    leaves them), over any number of ticks on silent spectra of at least
    five bins, the bass beat fires on no tick, and an intensity that is
    zero stays zero. *)
Theorem silence_never_fires (ticks : list tick) (b : beatDetectionVars) :
  energies_nonneg b -> Forall silentTick ticks ->
  Forall (fun r => snd r = false) (firings pow ticks b) /\
  (is_zero (bassBeat b) -> is_zero (bassBeat (run pow ticks b))) /\
  (is_zero (trebleBeat b) -> is_zero (trebleBeat (run pow ticks b))).
Proof.
  intros Hb Ht. revert b Hb.
  induction Ht as [|t rest Hs _ IH]; intros b Hb.
  - simpl. split; [constructor | tauto].
  - destruct (silent_step b t Hb Hs) as (Hf & Hb' & Ebass & Etreble).
    destruct (IH (step pow b t) Hb') as (F & Zb & Zt).
    cbn [firings]. unfold run in *. cbn [fold_left].
    split; [constructor; [exact Hf | exact F]|].
    split; intros Hz.
    + apply Zb. rewrite Ebass. now apply mul_zero_fin.
    + apply Zt. rewrite Etreble. now apply mul_zero_fin.
Qed.

Hypothesis pow_unit :
  forall x y : Q, 0 <= x <= 1 -> 0 <= y -> 0 <= pow x y <= 1.

Lemma decay_unit (a : jsnum) (x y : Q) :
  in_unit a -> 0 <= x <= 1 -> 0 <= y -> in_unit (mul a (Fin (pow x y))).
Proof.
  intros Ha Hx Hy. destruct a as [q| | |]; try contradiction.
  cbn in *. assert (Hp := pow_unit x y Hx Hy). nra.
Qed.

Lemma detectBeats_unit (data : list byte) (delta now : Q)
      (b : beatDetectionVars) :
  (5 <= length data)%nat -> 0 <= delta -> beat_unit b ->
  beat_unit (detectBeats pow data delta now b).
Proof.
  intros Hn Hd (Hbe & Hte & Hbb & Htb).
  assert (Hb := rawBass_unit _ Hn). assert (Hr := rawTreble_unit _ Hn).
  unfold detectBeats, beat_unit.
  cbn [bassEnergy trebleEnergy bassBeat trebleBeat].
  destruct (rawBass data) as [rb| | |]; try contradiction.
  destruct (rawTreble data) as [rt| | |]; try contradiction.
  cbn [in_unit] in Hb, Hr.
  split; [|split; [|split]].
  - destruct (bassEnergy b) as [x| | |]; try contradiction.
    cbn in *. lra.
  - destruct (trebleEnergy b) as [x| | |]; try contradiction.
    cbn in *. lra.
  - destruct (bassBeatFires _ _ _ _).
    + apply min_one_unit; lra.
    + apply decay_unit; [exact Hbb | lra | lra].
  - destruct (gt _ _).
    + apply min_one_unit; lra.
    + apply decay_unit; [exact Htb | lra | lra].
Qed.

(** X11. The detector's outputs are normalised.  With [Math.pow]
    mapping a base in [0,1] and an exponent that is not negative into
    [0,1], over any number of ticks on spectra of at least five bins
    with frame times that are not negative, the smoothed bass and treble
    energies and the two beat intensities stay finite and inside [0,1]
    when they started there. *)
Theorem beat_intensities_stay_in_unit (ticks : list tick)
        (b : beatDetectionVars) :
  beat_unit b -> Forall regularTick ticks -> beat_unit (run pow ticks b).
Proof.
  intros Hb Ht. revert b Hb.
  induction Ht as [|t rest [Hn Hd] _ IH]; intros b Hb; [exact Hb|].
  unfold run in *. cbn [fold_left]. apply IH.
  now apply detectBeats_unit.
Qed.

End WithPow.

Lemma silence_never_fires_witness :
  let ticks := [mkTick (repeat x00 128) 0.016 0.016;
                mkTick (repeat x00 128) 0.016 0.032] in
  let pow := fun x _ : Q => x in
  Forall (fun r => snd r = false) (firings pow ticks initialBeat) /\
  (is_zero (bassBeat initialBeat) ->
   is_zero (bassBeat (run pow ticks initialBeat))) /\
  (is_zero (trebleBeat initialBeat) ->
   is_zero (trebleBeat (run pow ticks initialBeat))).
Proof.
  apply (silence_never_fires
           (fun x _ : Q => x)
           [mkTick (repeat x00 128) 0.016 0.016;
            mkTick (repeat x00 128) 0.016 0.032] initialBeat).
  - split; [|split].
    + unfold initialBeat. cbn [energyHistory].
      apply List.Forall_forall. intros e He. apply repeat_spec in He. subst e.
      simpl. lra.
    + simpl. lra.
    + simpl. lra.
  - repeat constructor; simpl; try lia;
      apply List.Forall_forall; intros e He; now apply repeat_spec in He.
Defined.

Lemma beat_intensities_stay_in_unit_witness :
  let ticks := [mkTick bassSpike 0.016 1; mkTick (repeat x00 128) 0.016 1.016] in
  let pow := fun x _ : Q => x in
  beat_unit (run pow ticks initialBeat).
Proof.
  apply (beat_intensities_stay_in_unit
           (fun x _ : Q => x)
           (fun x y H _ => H)
           [mkTick bassSpike 0.016 1; mkTick (repeat x00 128) 0.016 1.016]
           initialBeat).
  - unfold beat_unit, initialBeat. simpl. lra.
  - repeat constructor; simpl; try lia; lra.
Defined.

End IntensityFacts.

(** ** The bands of the shader uniforms *)

Module BandSumFacts.
Import Bands.
Import BandFacts.

Lemma smooth_of_nan (raw : jsnum) :
  in_unit raw -> in_unit (smooth NaN raw).
Proof.
  destruct raw as [y| | |]; try contradiction.
  unfold smooth, or. cbn. unfold smoothingFactor. lra.
Qed.

Lemma smooth_to_nan (s : jsnum) : smooth s NaN = NaN.
Proof.
  unfold smooth, or. destruct (truthy s); [|reflexivity].
  destruct s; reflexivity.
Qed.

(** X14. The smoothing recovers from a frame without bins.  On a
    zero-length snapshot every smoothed level becomes [NaN], whatever it
    was; [NaN] being falsy, the next frame on a snapshot of at least five
    bins replaces it by the raw level, and all four smoothed levels are
    back inside [0,1]. *)
Theorem smoothing_recovers_from_nan (prev : levels) (data : list byte) :
  (5 <= length data)%nat ->
  let broken := shaderSmoothed prev [] in
  (low broken = NaN /\ mid broken = NaN /\ high broken = NaN /\
   level broken = NaN) /\
  levels_in_unit (shaderSmoothed broken data).
Proof.
  intros Hn. cbv zeta.
  assert (Hb : shaderSmoothed prev [] = mkLevels NaN NaN NaN NaN).
  { unfold shaderSmoothed.
    change (shaderRaw []) with (mkLevels NaN NaN NaN NaN).
    cbn [low mid high level]. now rewrite !smooth_to_nan. }
  rewrite Hb. split; [auto|].
  destruct (shaderRaw_unit data Hn) as (U1 & U2 & U3 & U4).
  unfold shaderSmoothed, levels_in_unit. cbn [low mid high level].
  repeat split; now apply smooth_of_nan.
Qed.

Lemma smoothing_recovers_from_nan_witness :
  let data := Beat.bassSpike in
  let broken := shaderSmoothed zeroLevels [] in
  (low broken = NaN /\ mid broken = NaN /\ high broken = NaN /\
   level broken = NaN) /\
  levels_in_unit (shaderSmoothed broken data).
Proof.
  apply (smoothing_recovers_from_nan zeroLevels Beat.bassSpike). simpl. lia.
Defined.

End BandSumFacts.

(** ** The particle loop *)

Module TickFacts.
Import Float Particles Wave.
Import BeatFacts FloatFacts ParticleFacts.

Lemma activeCount_app (a b : list Q) :
  activeCount (a ++ b) = (activeCount a + activeCount b)%nat.
Proof. unfold activeCount. now rewrite List.filter_app, length_app. Qed.

Lemma aged_inactive (delta l : Q) : l < 0 -> aged delta l = l.
Proof. intros H. unfold aged. now rewrite (proj2 (Qltb_lt l 0) H). Qed.

Lemma aged_active (delta l : Q) :
  0 <= l -> aged delta l = fround (double (l - delta)).
Proof. intros H. unfold aged. now rewrite (proj2 (Qltb_ge l 0) H). Qed.

(** A frame never revives a slot: what is inactive stays inactive. *)
Lemma aged_stays_inactive (delta l : Q) :
  isActive l = false -> isActive (aged delta l) = false.
Proof.
  unfold isActive, aged. intros H. apply negb_false_iff in H.
  now rewrite H, H.
Qed.

Lemma activeCount_aged (delta : Q) (L : list Q) :
  (activeCount (map (aged delta) L) <= activeCount L)%nat.
Proof.
  unfold activeCount. induction L as [|l r IH]; [reflexivity |].
  cbn [map List.filter].
  destruct (isActive l) eqn:E.
  - destruct (isActive (aged delta l)); cbn [length]; lia.
  - rewrite (aged_stays_inactive delta l E). exact IH.
Qed.

Lemma agedBy_inactive (deltas : list Q) (l : Q) :
  l < 0 -> agedBy deltas l = l.
Proof.
  intros H. unfold agedBy. induction deltas as [|d r IH]; [reflexivity |].
  cbn [fold_left]. now rewrite aged_inactive.
Qed.

Section WithColour.

Variable setHSL : Q -> Q -> Q -> vec3.

Local Abbreviation updateSlot := (updateSlot setHSL).
Local Abbreviation updateParticles := (updateParticles setHSL).

(** What one iteration of the particle loop does to slot [i] and to
    the other slots. *)
Lemma updateSlot_effect (delta : Q) (s : engine) (active i : nat) (l : Q) :
  particleLifetimes s !! i = Some l ->
  let st' := updateSlot delta (s, active) i in
  particleLifetimes (fst st') = <[i := aged delta l]> (particleLifetimes s)
  /\ snd st' = (active + if isActive (aged delta l) then 1 else 0)%nat
  /\ length (sizes (fst st')) = length (sizes s)
  /\ (forall j, j <> i -> sizes (fst st') !! j = sizes s !! j)
  /\ (forall j, j <> i ->
                waveParticles (fst st') !! j = waveParticles s !! j)
  /\ (l < 0 -> sizes (fst st') = sizes s /\
               waveParticles (fst st') = waveParticles s)
  /\ (0 <= l -> aged delta l < 0 ->
      sizes (fst st') = <[i := 0]> (sizes s)).
Proof.
  intros Hl. cbv zeta. unfold Particles.updateSlot. rewrite Hl.
  unfold aged, isActive.
  destruct (Qltb l 0) eqn:E0.
  { cbn [fst snd]. rewrite E0. cbn [negb].
    rewrite list_insert_id by exact Hl.
    apply Qltb_lt in E0.
    split; [reflexivity|]. split; [lia|]. split; [reflexivity|].
    split; [reflexivity|]. split; [reflexivity|].
    split; [auto|]. intros H. lra. }
  apply Qltb_ge in E0.
  destruct (Qltb (fround (double (l - delta))) 0) eqn:E1.
  { cbn [fst snd negb particleLifetimes sizes waveParticles].
    rewrite length_insert.
    split; [reflexivity|]. split; [lia|]. split; [reflexivity|].
    split; [intros j Hj; now rewrite list_lookup_insert_ne|].
    split; [reflexivity|].
    split; [intros H; lra | reflexivity]. }
  assert (H1 := proj1 (Qltb_ge _ _) E1).
  destruct (waveParticles s !! i) as [p|].
  - destruct (frameLoop setHSL _ _ _ _ _ _) as [p1 cols].
    cbn [fst snd negb particleLifetimes sizes waveParticles].
    rewrite length_insert.
    split; [reflexivity|]. split; [lia|]. split; [reflexivity|].
    split; [intros j Hj; now rewrite list_lookup_insert_ne|].
    split; [intros j Hj; now rewrite lookup_insert_ne|].
    split; [intros H; lra | intros _ H; lra].
  - cbn [fst snd negb particleLifetimes sizes waveParticles].
    split; [reflexivity|]. split; [lia|]. split; [reflexivity|].
    split; [reflexivity|]. split; [reflexivity|].
    split; [intros H; lra | intros _ H; lra].
Qed.

(** The state of the particle loop after the first [k] slots. *)
Lemma fold_slots (delta : Q) (s : engine) (k : nat) :
  (k <= length (particleLifetimes s))%nat ->
  let L := particleLifetimes s in
  let st := fold_left (updateSlot delta) (seq 0 k) (s, 0%nat) in
  particleLifetimes (fst st) = map (aged delta) (take k L) ++ drop k L
  /\ snd st = activeCount (map (aged delta) (take k L))
  /\ length (sizes (fst st)) = length (sizes s)
  /\ (forall j l, L !! j = Some l -> l < 0 \/ (k <= j)%nat ->
        sizes (fst st) !! j = sizes s !! j /\
        waveParticles (fst st) !! j = waveParticles s !! j)
  /\ (forall j l, L !! j = Some l -> (j < k)%nat -> 0 <= l ->
        aged delta l < 0 -> (j < length (sizes s))%nat ->
        sizes (fst st) !! j = Some 0).
Proof.
  cbv zeta. induction k as [|k IH]; intros Hk.
  - cbn [seq fold_left fst snd]. rewrite take_0, drop_0.
    split; [reflexivity|]. split; [reflexivity|]. split; [reflexivity|].
    split; [auto|]. intros j l _ Hj. lia.
  - rewrite seq_S, fold_left_app. cbn [fold_left Nat.add].
    destruct IH as (IL & IA & IS & IU & ID); [lia|].
    destruct (fold_left (updateSlot delta) (seq 0 k) (s, 0%nat))
      as [sk ak].
    cbn [fst snd] in *.
    destruct (lookup_lt_is_Some_2 (particleLifetimes s) k) as [l Hl];
      [lia|].
    assert (Hlk : particleLifetimes sk !! k = Some l).
    { rewrite IL, lookup_app_r; rewrite length_map, length_take;
        [|lia].
      replace (k - k `min` length (particleLifetimes s))%nat with 0%nat
        by lia.
      now rewrite lookup_drop, Nat.add_0_r. }
    destruct (updateSlot_effect delta sk ak k l Hlk)
      as (EL & EA & ES & EO & EW & EI & ED).
    destruct (updateSlot delta (sk, ak) k) as [s' a'].
    cbn [fst snd] in *.
    split; [|split; [|split; [|split]]].
    + rewrite EL, IL.
      rewrite (take_S_r _ _ _ Hl), map_app, <- app_assoc. cbn [map app].
      rewrite insert_app_r_alt; rewrite length_map, length_take; [|lia].
      replace (k - k `min` length (particleLifetimes s))%nat with 0%nat
        by lia.
      rewrite (drop_S _ _ _ Hl). reflexivity.
    + rewrite EA, IA, (take_S_r _ _ _ Hl), map_app, activeCount_app.
      f_equal. unfold activeCount. cbn [map List.filter].
      now destruct (isActive (aged delta l)).
    + now rewrite ES.
    + intros j lj Hj Hc.
      destruct (decide (j = k)) as [-> | Hne].
      * assert (lj = l) by congruence. subst lj.
        destruct Hc as [Hneg | Hge]; [|lia].
        destruct (EI Hneg) as [-> ->].
        apply (IU k l Hj). right. lia.
      * rewrite (EO j Hne), (EW j Hne).
        apply (IU j lj Hj). destruct Hc as [Hneg | Hge]; [now left|].
        right. lia.
    + intros j lj Hj Hlt H0 Hd Hsz.
      destruct (decide (j = k)) as [-> | Hne].
      * assert (lj = l) by congruence. subst lj.
        rewrite (ED H0 Hd). apply list_lookup_insert_eq. lia.
      * rewrite (EO j Hne). apply (ID j lj Hj); auto. lia.
Qed.

(** The particle loop as a whole, on a pool with [maxParticles]
    slots. *)
Lemma updateParticles_effect (delta : Q) (s : engine) :
  length (particleLifetimes s) = maxParticles s ->
  let s' := updateParticles delta s in
  particleLifetimes s' = map (aged delta) (particleLifetimes s)
  /\ particleCount s' = activeCount (particleLifetimes s')
  /\ length (sizes s') = length (sizes s)
  /\ (forall j l, particleLifetimes s !! j = Some l -> l < 0 ->
        sizes s' !! j = sizes s !! j /\
        waveParticles s' !! j = waveParticles s !! j)
  /\ (forall j l, particleLifetimes s !! j = Some l -> 0 <= l ->
        aged delta l < 0 -> (j < length (sizes s))%nat ->
        sizes s' !! j = Some 0).
Proof.
  intros Hlen. cbv zeta. unfold Particles.updateParticles.
  destruct (fold_slots delta s (maxParticles s)) as (IL & IA & IS & IU & ID);
    [lia|].
  destruct (fold_left (updateSlot delta) (seq 0 (maxParticles s))
                      (s, 0%nat)) as [s' a'].
  cbn [fst snd] in *.
  cbn [particleLifetimes particleCount sizes waveParticles].
  rewrite <- Hlen, firstn_all, drop_all, app_nil_r in IL.
  rewrite <- Hlen, firstn_all in IA.
  split; [exact IL|]. split; [now rewrite IL|]. split; [exact IS|].
  split.
  - intros j l Hj Hneg. apply (IU j l Hj). now left.
  - intros j l Hj H0 Hd Hsz. apply (ID j l Hj); auto.
    apply lookup_lt_Some in Hj. lia.
Qed.

(** X15. After every frame [particleCount] is exactly the number of
    active slots of the pool, hence never above [maxParticles]. *)
Theorem tick_counts_active_slots (delta : Q) (s : engine) :
  pool_ok s ->
  let s' := updateParticles delta s in
  particleCount s' = activeCount (particleLifetimes s') /\
  (particleCount s' <= maxParticles s')%nat.
Proof.
  intros Hok. cbv zeta.
  destruct (updateParticles_effect delta s (proj1 Hok)) as (_ & E & _).
  destruct (updateParticles_pool_ok setHSL delta s Hok) as [[Hl _] _].
  split; [exact E|]. rewrite E, <- Hl. apply activeCount_le_length.
Qed.

(** X16. A frame never revives a slot.  After a frame of length
    [delta] the lifetime of every active slot is the single-precision
    value of its lifetime minus [delta] (what the [Float32Array] keeps
    of the difference), an inactive slot keeps its lifetime, its size
    and its particle record, and the number of active slots does not
    grow. *)
Theorem tick_ages_and_never_revives (delta : Q) (s : engine) :
  pool_ok s ->
  let s' := updateParticles delta s in
  particleLifetimes s' = map (aged delta) (particleLifetimes s) /\
  (forall j l,
      particleLifetimes s !! j = Some l -> 0 <= l ->
      particleLifetimes s' !! j = Some (fround (double (l - delta)))) /\
  (forall j l,
      particleLifetimes s !! j = Some l -> l < 0 ->
      particleLifetimes s' !! j = Some l /\
      sizes s' !! j = sizes s !! j /\
      waveParticles s' !! j = waveParticles s !! j) /\
  (activeCount (particleLifetimes s')
   <= activeCount (particleLifetimes s))%nat.
Proof.
  intros Hok. cbv zeta.
  destruct (updateParticles_effect delta s (proj1 Hok))
    as (EL & _ & _ & EU & _).
  split; [exact EL|].
  split.
  { intros j l Hj H0.
    rewrite EL, list_lookup_fmap, Hj. cbn. now rewrite aged_active. }
  split.
  { intros j l Hj Hneg. split; [|now apply (EU j l)].
    rewrite EL, list_lookup_fmap, Hj. cbn. now rewrite aged_inactive. }
  rewrite EL. apply activeCount_aged.
Qed.

Variable random : nat -> Q.
Variables cos sin : Q -> Q.
Variable PI : Q.

Local Abbreviation runEvents := (runEvents random cos sin PI setHSL).

Lemma runEvents_tick (delta : Q) (rest : list Q) (s : engine) :
  runEvents (ticksOf (delta :: rest)) s =
  runEvents (ticksOf rest) (updateParticles delta s).
Proof. reflexivity. Qed.

Lemma inactive_stays (deltas : list Q) :
  forall (s : engine) (j : nat) (l : Q),
    pool_ok s -> particleLifetimes s !! j = Some l -> l < 0 ->
    particleLifetimes (runEvents (ticksOf deltas) s) !! j = Some l /\
    sizes (runEvents (ticksOf deltas) s) !! j = sizes s !! j.
Proof.
  induction deltas as [|d rest IH]; intros s j l Hok Hj Hneg.
  - now split.
  - rewrite runEvents_tick.
    destruct (updateParticles_effect d s (proj1 Hok))
      as (EL & _ & _ & EU & _).
    destruct (updateParticles_pool_ok setHSL d s Hok) as [Hok' _].
    assert (Hj' : particleLifetimes (updateParticles d s) !! j = Some l).
    { rewrite EL, list_lookup_fmap, Hj. cbn. now rewrite aged_inactive. }
    destruct (IH _ j l Hok' Hj' Hneg) as [A B].
    split; [exact A|]. rewrite B. now apply (EU j l).
Qed.

(** X17. A dead particle stays dead.  With no emission in between,
    after any sequence of frames the lifetime of a slot is what the
    frames make of it one after the other, each storing the
    single-precision value of the difference; if that is negative, the
    slot is inactive, its size is 0, and any further frames leave the
    lifetime and the size as they are. *)
Theorem particle_dies_for_good (deltas more : list Q) (s : engine)
        (j : nat) (l : Q) :
  pool_ok s -> length (sizes s) = maxParticles s ->
  particleLifetimes s !! j = Some l -> 0 <= l ->
  let s' := runEvents (ticksOf deltas) s in
  let s'' := runEvents (ticksOf more) s' in
  particleLifetimes s' !! j = Some (agedBy deltas l) /\
  (agedBy deltas l < 0 ->
   sizes s' !! j = Some 0 /\
   particleLifetimes s'' !! j = Some (agedBy deltas l) /\
   sizes s'' !! j = Some 0).
Proof.
  intros Hok Hsz Hj H0. cbv zeta.
  assert (Main : forall ds s l,
             pool_ok s -> length (sizes s) = maxParticles s ->
             particleLifetimes s !! j = Some l -> 0 <= l ->
             particleLifetimes (runEvents (ticksOf ds) s) !! j
             = Some (agedBy ds l) /\
             (agedBy ds l < 0 ->
              sizes (runEvents (ticksOf ds) s) !! j = Some 0)).
  { clear. induction ds as [|d rest IH]; intros s l Hok Hsz Hj H0.
    - cbn. split; [exact Hj | intros H; lra].
    - rewrite runEvents_tick. unfold agedBy. cbn [fold_left].
      fold (agedBy rest (aged d l)).
      destruct (updateParticles_effect d s (proj1 Hok))
        as (EL & _ & ES & _ & ED).
      destruct (updateParticles_pool_ok setHSL d s Hok) as [Hok' Hmax].
      assert (Hj' : particleLifetimes (updateParticles d s) !! j
                    = Some (aged d l))
        by (rewrite EL, list_lookup_fmap, Hj; reflexivity).
      assert (Hjs : (j < length (sizes s))%nat).
      { rewrite Hsz, <- (proj1 Hok). now apply lookup_lt_Some in Hj. }
      destruct (Qlt_le_dec (aged d l) 0) as [Hdead | Halive].
      + destruct (inactive_stays rest _ j (aged d l) Hok' Hj' Hdead)
          as [A B].
        rewrite (agedBy_inactive rest _ Hdead).
        split; [exact A|]. intros _. rewrite B. now apply (ED j l).
      + apply (IH (updateParticles d s) (aged d l) Hok'
                  ltac:(now rewrite ES, Hmax) Hj' Halive). }
  destruct (Main deltas s l Hok Hsz Hj H0) as [A B].
  split; [exact A|]. intros Hdead. specialize (B Hdead).
  split; [exact B|].
  destruct (runEvents_pool_ok random cos sin PI setHSL (ticksOf deltas) s
                              Hok) as [Hok' _].
  destruct (inactive_stays more _ j _ Hok' A Hdead) as [C D].
  split; [exact C|]. now rewrite D.
Qed.

End WithColour.

Section WithOracles.

Variable random : nat -> Q.
Variables cos sin : Q -> Q.
Variable PI : Q.
Variable setHSL : Q -> Q -> Q -> vec3.

Hypothesis random_unit : forall k : nat, 0 <= random k <= 1.

Local Abbreviation activate := (activate random cos sin PI setHSL).
Local Abbreviation emitLoop := (emitLoop random cos sin PI setHSL).
Local Abbreviation emitParticles :=
  (emitParticles random cos sin PI setHSL).

Lemma activate_arrays (b t : Q) (idx : nat) (s : engine) :
  arrays_ok s -> arrays_ok (activate b t idx s).
Proof.
  intros (A1 & A2 & A3). unfold Particles.activate.
  destruct (patternVelocity random cos sin PI _ _ _) as [v used].
  unfold arrays_ok.
  cbn [particleLifetimes sizes positions maxParticles].
  now rewrite !length_insert.
Qed.

Lemma activate_fresh (b t : Q) (idx : nat) (s : engine) :
  arrays_ok s -> (idx < maxParticles s)%nat -> 0 <= b ->
  freshAt b (activate b t idx s) idx.
Proof.
  intros (A1 & A2 & A3) Hidx Hb. unfold Particles.activate.
  destruct (patternVelocity random cos sin PI _ _ _) as [v used].
  set (r := random (draws s + used + 2)).
  assert (Hr := random_unit (draws s + used + 2)). fold r in Hr.
  eexists.
  cbn [waveParticles sizes particleLifetimes particleLifespan positions
       frameInteractions initialSize].
  split; [apply lookup_insert_eq|]. split; [reflexivity|].
  cbn [initialSize]. fold (baseSizeOf b).
  assert (B0 : 0 <= baseSizeOf b).
  { apply double_nonneg.
    assert (0 <= double (b * 2.5)) by (apply double_nonneg; lra). lra. }
  assert (P4 : 0 <= double 0.4) by (vm_compute; discriminate).
  assert (R0 : 0 <= double (r * double 0.4))
    by (apply double_nonneg; nra).
  assert (R1 : double (r * double 0.4) <= double 0.4).
  { apply double_le; [now rewrite double_idem | nra]. }
  assert (F0 : double 0.8 <= double (double 0.8 + double (r * double 0.4))).
  { apply double_ge; [now rewrite double_idem | lra]. }
  assert (F1 : double (double 0.8 + double (r * double 0.4))
               <= double (double 0.8 + double 0.4)).
  { apply double_mono. lra. }
  assert (P8 : 0 <= double 0.8) by (vm_compute; discriminate).
  split; [split; apply double_mono; nra|].
  split; [apply list_lookup_insert_eq; lia|].
  split; [apply list_lookup_insert_eq; lia|].
  split; [|split].
  - rewrite !list_lookup_insert_ne by lia.
    apply list_lookup_insert_eq. lia.
  - rewrite list_lookup_insert_ne by lia.
    apply list_lookup_insert_eq. rewrite length_insert. lia.
  - apply list_lookup_insert_eq. rewrite !length_insert. lia.
Qed.

Lemma activate_other (b t : Q) (idx i : nat) (s : engine) :
  i <> idx -> freshAt b s i -> freshAt b (activate b t idx s) i.
Proof.
  intros Hne (p & W & F & B & S & L & P0 & P1 & P2).
  unfold Particles.activate.
  destruct (patternVelocity random cos sin PI _ _ _) as [v used].
  exists p.
  cbn [waveParticles sizes particleLifetimes particleLifespan positions].
  rewrite lookup_insert_ne by auto.
  rewrite !list_lookup_insert_ne by lia.
  auto 10.
Qed.

Lemma findFreeFrom_free (L : list Q) :
  forall j0 bound j,
    findFreeFrom L j0 bound = Some j ->
    (j0 <= j < bound)%nat /\
    exists l, L !! (j - j0)%nat = Some l /\ l < 0.
Proof.
  induction L as [|l rest IH]; intros j0 bound j; cbn [findFreeFrom];
    [discriminate|].
  destruct (Nat.ltb_spec j0 bound); [|discriminate].
  destruct (Qltb l 0) eqn:E.
  - intros [= <-]. split; [lia|]. exists l.
    rewrite Nat.sub_diag. split; [reflexivity | now apply Qltb_lt].
  - intros Hf. destruct (IH _ _ _ Hf) as [Hj (l' & Hl & Hneg)].
    split; [lia|]. exists l'. split; [|exact Hneg].
    replace (j - j0)%nat with (S (j - S j0)) by lia. exact Hl.
Qed.

Lemma findFree_free (s : engine) (j : nat) :
  findFree s = Some j ->
  (j < maxParticles s)%nat /\
  exists l, particleLifetimes s !! j = Some l /\ l < 0.
Proof.
  unfold findFree. intros Hf.
  destruct (findFreeFrom_free _ _ _ _ Hf) as [Hj (l & Hl & Hneg)].
  rewrite Nat.sub_0_r in Hl. split; [lia | now exists l].
Qed.

Lemma emitLoop_keeps_fresh (b t : Q) (n : nat) :
  forall (s : engine) (i : nat),
    0 <= particleLifespan s -> freshAt b s i ->
    freshAt b (emitLoop n b t s) i.
Proof.
  induction n as [|n IH]; intros s i Hls Hf; [exact Hf|].
  cbn [Particles.emitLoop].
  destruct (findFree s) as [j|] eqn:Ej; [|exact Hf].
  destruct (findFree_free s j Ej) as [_ (l & Hl & Hneg)].
  assert (Hne : i <> j).
  { intros ->. destruct Hf as (p & _ & _ & _ & _ & L & _).
    rewrite Hl in L. injection L as ->.
    pose proof (fround_nonneg _ Hls). lra. }
  apply IH.
  - now rewrite (proj1 (proj2 (proj2 (activate_fields
                                        random cos sin PI setHSL b t j s)))).
  - now apply activate_other.
Qed.

Lemma emitLoop_fresh (b t : Q) (n : nat) :
  forall (s : engine) (i : nat) (l l' : Q),
    arrays_ok s -> 0 <= particleLifespan s -> 0 <= b ->
    particleLifetimes s !! i = Some l -> l < 0 ->
    particleLifetimes (emitLoop n b t s) !! i = Some l' -> 0 <= l' ->
    freshAt b (emitLoop n b t s) i.
Proof.
  induction n as [|n IH]; intros s i l l' Ha Hls Hb Hl Hneg Hl' Hact.
  - cbn [Particles.emitLoop] in Hl'. rewrite Hl in Hl'.
    injection Hl' as ->. lra.
  - cbn [Particles.emitLoop] in *.
    destruct (findFree s) as [j|] eqn:Ej.
    + destruct (findFree_free s j Ej) as [Hj _].
      destruct (activate_fields random cos sin PI setHSL b t j s)
        as (EL & _ & ELS & _).
      destruct (decide (i = j)) as [-> | Hne].
      * apply emitLoop_keeps_fresh; [now rewrite ELS|].
        now apply activate_fresh.
      * apply (IH _ i l l'); auto.
        -- now apply activate_arrays.
        -- now rewrite ELS.
        -- now rewrite EL, list_lookup_insert_ne.
    + rewrite Hl in Hl'. injection Hl' as ->. lra.
Qed.

(** X18. What an emission puts into a slot.  With [Math.random] in
    [0,1] and a bass intensity that is not negative, every slot that a
    call of [emitParticles] turns from inactive to active holds a new
    particle at the origin, with no frame interaction, with the
    lifespan as its lifetime and an initial size between 0.8 and
    [0.8 + 0.4] times the base size [1.5 + 2.5 * bassIntensity], all
    computed in doubles; the size uploaded for rendering and the
    lifetime are the single-precision values of the two. *)
Theorem emitted_particles_are_fresh (count bass treble : Q) (s : engine)
        (i : nat) (l l' : Q) :
  arrays_ok s -> 0 <= particleLifespan s -> 0 <= bass ->
  particleLifetimes s !! i = Some l -> l < 0 ->
  particleLifetimes (emitParticles count bass treble s) !! i = Some l' ->
  0 <= l' ->
  freshAt bass (emitParticles count bass treble s) i.
Proof.
  unfold Particles.emitParticles. apply emitLoop_fresh.
Qed.

End WithOracles.

Lemma tick_counts_active_slots_witness :
  let setHSL := fun h s l : Q => mkVec h s l in
  let s := updateParticles setHSL (double 0.016) examplePool in
  (particleCount s = activeCount (particleLifetimes s) /\
   (particleCount s <= maxParticles s)%nat) /\
  activeCount (particleLifetimes examplePool) = 3%nat /\
  particleCount s = 1%nat.
Proof.
  cbv zeta. split.
  - apply (tick_counts_active_slots (fun h s l : Q => mkVec h s l)
                                    (double 0.016) examplePool).
    split; [vm_compute; reflexivity | vm_compute; discriminate].
  - split; vm_compute; reflexivity.
Defined.

Lemma tick_ages_and_never_revives_witness :
  let setHSL := fun h s l : Q => mkVec h s l in
  let s := examplePool in
  let s' := updateParticles setHSL (double 0.016) s in
  (particleLifetimes s' = map (aged (double 0.016)) (particleLifetimes s) /\
   (forall j l,
       particleLifetimes s !! j = Some l -> 0 <= l ->
       particleLifetimes s' !! j
       = Some (fround (double (l - double 0.016)))) /\
   (forall j l,
       particleLifetimes s !! j = Some l -> l < 0 ->
       particleLifetimes s' !! j = Some l /\
       sizes s' !! j = sizes s !! j /\
       waveParticles s' !! j = waveParticles s !! j) /\
   (activeCount (particleLifetimes s')
    <= activeCount (particleLifetimes s))%nat) /\
  take 4 (particleLifetimes s)
  = [5368709 # 536870912; 5368709 # 536870912; 3; -1] /\
  take 4 (particleLifetimes s')
  = [-6442451 # 1073741824; -6442451 # 1073741824;
     12515803 # 4194304; -1].
Proof.
  cbv zeta. split.
  - apply (tick_ages_and_never_revives (fun h s l : Q => mkVec h s l)
                                       (double 0.016) examplePool).
    split; [vm_compute; reflexivity | vm_compute; discriminate].
  - split; vm_compute; reflexivity.
Defined.

Lemma particle_dies_for_good_witness :
  let setHSL := fun h s l : Q => mkVec h s l in
  let random := fun _ : nat => 0.5 in
  let cos := fun _ : Q => 1 in
  let sin := fun _ : Q => 0 in
  let s := emitParticles random cos sin 3 setHSL 1 0 0 createWaveVisualizer in
  let deltas := [double 2.3; double 0.7] in
  let s' := runEvents random cos sin 3 setHSL (ticksOf deltas) s in
  let s'' :=
    runEvents random cos sin 3 setHSL (ticksOf [double 0.016]) s' in
  particleLifetimes s' !! 0%nat = Some (agedBy deltas 3) /\
  sizes s' !! 0%nat = Some 0 /\
  particleLifetimes s'' !! 0%nat = Some (agedBy deltas 3) /\
  sizes s'' !! 0%nat = Some 0 /\
  agedBy deltas 3 = -13421773 # 1125899906842624 /\
  double 2.3 + double 0.7 <= 3.
Proof.
  cbv zeta.
  destruct (particle_dies_for_good
              (fun h s l : Q => mkVec h s l) (fun _ : nat => 0.5)
              (fun _ : Q => 1) (fun _ : Q => 0) 3
              [double 2.3; double 0.7] [double 0.016]
              (emitParticles (fun _ : nat => 0.5) (fun _ : Q => 1)
                             (fun _ : Q => 0) 3
                             (fun h s l : Q => mkVec h s l) 1 0 0
                             createWaveVisualizer) 0%nat 3)
    as [A B].
  - split; [vm_compute; reflexivity | vm_compute; discriminate].
  - vm_compute; reflexivity.
  - vm_compute; reflexivity.
  - vm_compute; discriminate.
  - destruct B as (B1 & B2 & B3); [vm_compute; reflexivity|].
    split; [exact A|]. split; [exact B1|]. split; [exact B2|].
    split; [exact B3|].
    split; [vm_compute; reflexivity | vm_compute; discriminate].
Defined.

Lemma emitted_particles_are_fresh_witness :
  let setHSL := fun h s l : Q => mkVec h s l in
  let random := fun _ : nat => 0.3 in
  let cos := fun _ : Q => 1 in
  let sin := fun _ : Q => 0 in
  let s := createWaveVisualizer in
  let s' := emitParticles random cos sin 3 setHSL 1 0 0 s in
  freshAt 0 s' 0%nat /\
  initialSize <$> waveParticles s' !! 0%nat
  = Some (6214967485771285 # 4503599627370496) /\
  sizes s' !! 0%nat = Some (11576279 # 8388608).
Proof.
  cbv zeta. split.
  - apply (emitted_particles_are_fresh
             (fun _ : nat => 0.3) (fun _ : Q => 1) (fun _ : Q => 0) 3
             (fun h s l : Q => mkVec h s l)
             (fun _ => conj (ltac:(vm_compute; discriminate) : 0 <= 0.3)
                            (ltac:(vm_compute; discriminate) : 0.3 <= 1))
             1 0 0 createWaveVisualizer 0%nat (-1) 3).
    + repeat split.
    + vm_compute; discriminate.
    + vm_compute; discriminate.
    + reflexivity.
    + reflexivity.
    + vm_compute; reflexivity.
    + vm_compute; discriminate.
  - split; vm_compute; reflexivity.
Defined.

End TickFacts.

(** ** The frames of the bars and of the towers *)

Module FrameFacts.
Import Float Particles Controller Frames.
Import BandFacts BeatFacts FloatFacts ParticleFacts IntensityFacts.

Lemma inject_pos (d : Z) : (0 < d)%Z -> 0 < inject_Z d.
Proof. intros H. change 0 with (inject_Z 0). rewrite <- Zlt_Qlt. lia. Qed.

Lemma valueAt_unit (data : list byte) (i : nat) :
  (i < length data)%nat -> between 0 1 (valueAt data i).
Proof.
  intros H. unfold valueAt.
  destruct (lookup_lt_is_Some_2 data i H) as [b ->].
  apply normalized_unit.
Qed.

Lemma valueAt_beyond (data : list byte) (i : nat) :
  (length data <= i)%nat -> valueAt data i = NaN.
Proof.
  intros H. unfold valueAt. now rewrite (lookup_ge_None_2 data i H).
Qed.

Lemma valueAtMod_unit (data : list byte) (index : nat) :
  (0 < length data)%nat -> between 0 1 (valueAtMod data index).
Proof.
  intros H. unfold valueAtMod.
  destruct (length data) as [|n] eqn:E; [lia|].
  apply valueAt_unit. rewrite E. apply Nat.mod_upper_bound. lia.
Qed.

Lemma averageLevel_unit (data : list byte) :
  (0 < length data)%nat -> between 0 1 (averageLevel data).
Proof.
  intros H. unfold averageLevel, Bands.len.
  assert (U := div_in_unit (Beat.sumBins data) (Z.of_nat (length data))
                           ltac:(lia) (sumBins_bounds data)).
  destruct (div _ _); try contradiction. exact U.
Qed.

Lemma mod1_range (x : Q) : 0 <= x -> 0 <= mod1 x /\ mod1 x < 1.
Proof.
  intros H. unfold mod1. rewrite (proj2 (Qltb_ge x 0) H).
  assert (L := Qfloor_le x). assert (U := Qlt_floor x).
  rewrite inject_Z_plus in U. change (inject_Z 1) with 1 in U. lra.
Qed.

Lemma rem1_range (a : jsnum) (hi : Q) :
  between 0 hi a -> within 0 1 (rem1 a).
Proof.
  destruct a as [x| | |]; try contradiction.
  cbn [between rem1 within]. intros [H _]. now apply mod1_range.
Qed.

Lemma within_between (lo hi : Q) (a : jsnum) :
  within lo hi a -> between lo hi a.
Proof. destruct a; cbn; try tauto. intros [? ?]. lra. Qed.

(** [lo + value * k] for [value] in the unit interval. *)
Lemma affine_between (a : jsnum) (lo k : Q) :
  between 0 1 a -> 0 <= k ->
  between lo (lo + k) (add (Fin lo) (mul a (Fin k))).
Proof.
  destruct a as [x| | |]; try contradiction.
  cbn [between add mul]. intros [H0 H1] Hk. nra.
Qed.

Lemma between_weaken (lo hi lo' hi' : Q) (a : jsnum) :
  between lo hi a -> lo' <= lo -> hi <= hi' -> between lo' hi' a.
Proof. destruct a; cbn; try tauto. intros [? ?] ? ?. lra. Qed.

Lemma updateBar_range (data : list byte) (count i : nat) :
  (i < count)%nat -> (count <= length data)%nat ->
  between 1 11 (barScaleY (updateBar data count i)) /\
  within 0.5 0.8 (hue (barColor (updateBar data count i))) /\
  saturation (barColor (updateBar data count i)) = Fin 1 /\
  lightness (barColor (updateBar data count i)) = Fin 0.5.
Proof.
  intros Hi Hc. unfold updateBar. cbn [barScaleY barColor hue saturation lightness].
  split; [|split; [|split; reflexivity]].
  - apply (between_weaken 1 (1 + 10)); [|lra|lra].
    apply affine_between; [|lra]. apply valueAt_unit. lia.
  - unfold div.
    assert (Hq : 0 < inject_Z (Z.of_nat count)) by (apply inject_pos; lia).
    destruct (Qeq_bool (inject_Z (Z.of_nat count)) 0) eqn:E.
    { apply Qeq_bool_eq in E. lra. }
    cbn [mul add within].
    assert (H0 : 0 <= inject_Z (Z.of_nat i))
      by (change 0 with (inject_Z 0); rewrite <- Zle_Qle; lia).
    assert (H1 : inject_Z (Z.of_nat i) < inject_Z (Z.of_nat count))
      by (rewrite <- Zlt_Qlt; lia).
    assert (D0 : 0 <= inject_Z (Z.of_nat i) / inject_Z (Z.of_nat count))
      by (apply Qle_shift_div_l; lra).
    assert (D1 : inject_Z (Z.of_nat i) / inject_Z (Z.of_nat count) < 1)
      by (apply Qlt_shift_div_r; lra).
    lra.
Qed.

(** X19. The bars stay in range.  When there are no more bars than
    bins (64 bars on 128 bins in the program), [updateBars] gives every
    bar a [scale.y] between 1 and 11 and a hue in [0.5, 0.8) at full
    saturation; a bar beyond the last bin would get the height [NaN]. *)
Theorem bars_stay_in_range (data : list byte) (count : nat) :
  (count <= length data)%nat ->
  length (updateBars data count) = count /\
  Forall (fun b => between 1 11 (barScaleY b) /\
                   within 0.5 0.8 (hue (barColor b)) /\
                   saturation (barColor b) = Fin 1 /\
                   lightness (barColor b) = Fin 0.5)
         (updateBars data count) /\
  forall total i : nat,
    (length data <= i)%nat -> barScaleY (updateBar data total i) = NaN.
Proof.
  intros Hc. unfold updateBars.
  split; [now rewrite length_map, length_seq|]. split.
  - apply List.Forall_forall. intros b Hb.
    apply in_map_iff in Hb as (i & <- & Hi). apply in_seq in Hi.
    apply updateBar_range; lia.
  - intros total i Hi. unfold updateBar. cbn [barScaleY].
    now rewrite (valueAt_beyond data i Hi).
Qed.

(** A double below 8 in absolute value is within [2 ^ -51] of the
    number it rounds, one below 256 within [2 ^ -46]. *)
Lemma double_near_8 (x : Q) :
  -8 < x < 8 ->
  - (1 # 2251799813685248) <= double x - x <= 1 # 2251799813685248.
Proof. intros H. apply (double_error x (-50)); [lia | exact H]. Qed.

Lemma double_near_256 (x : Q) :
  -256 < x < 256 ->
  - (1 # 70368744177664) <= double x - x <= 1 # 70368744177664.
Proof. intros H. apply (double_error x (-45)); [lia | exact H]. Qed.

Lemma tenth_range : 0 < double 0.1 /\ double 0.1 < 0.11.
Proof. split; vm_compute; reflexivity. Qed.

(** [position.y] as the three rounded operations leave it. *)
Lemma towerY_near (sy : Q) :
  1 <= sy <= 51 ->
  let b := double 0.1 in
  let y := double (double (double (b * sy) / 2) + - double (b / 2)) in
  - (1 # 100000000000000) <= y - b * (sy - 1) / 2 <= 1 # 100000000000000.
Proof.
  intros Hs. cbv zeta. destruct tenth_range as [B0 B1].
  set (b := double 0.1) in *.
  change (b * (sy - 1) / 2) with (b * (sy - 1) * (1 # 2)).
  change (b / 2) with (b * (1 # 2)).
  assert (P : 0 <= b * sy < 6) by nra.
  pose proof (double_near_8 (b * sy) ltac:(lra)) as E1.
  set (u := double (b * sy)) in *.
  change (u / 2) with (u * (1 # 2)).
  pose proof (double_near_8 (u * (1 # 2)) ltac:(lra)) as E2.
  set (v := double (u * (1 # 2))) in *.
  pose proof (double_near_8 (b * (1 # 2)) ltac:(lra)) as E3.
  set (w := double (b * (1 # 2))) in *.
  pose proof (double_near_8 (v + - w) ltac:(lra)) as E4.
  set (y := double (v + - w)) in *.
  lra.
Qed.

Lemma updateTower_ok (data : list byte) (delta : Q) (index : nat)
      (t : tower) :
  (0 < length data)%nat -> tower_ok towerGridSettings t ->
  tower_ok towerGridSettings
           (updateTower towerGridSettings data delta index t).
Proof.
  intros Hn ((sy & y & Es & Hs & _ & _) & _).
  assert (Hv := valueAtMod_unit data index Hn).
  assert (Ha := averageLevel_unit data Hn).
  unfold updateTower. cbv zeta.
  destruct (valueAtMod data index) as [v| | |]; try contradiction.
  destruct (averageLevel data) as [a| | |]; try contradiction.
  cbn [between] in Hv, Ha.
  set (wraps := Qltb _ _).
  assert (H0 : exists s0, (if wraps then Fin 1.0 else towerScaleY t) = Fin s0
                          /\ 1 <= s0 <= 51).
  { destruct wraps; [exists 1.0; split; [reflexivity | lra]|].
    exists sy. now split. }
  destruct H0 as (s0 & -> & Hs0).
  unfold tower_ok.
  cbn [towerScaleY towerY towerColor towerEmissive emissiveIntensity
       add mul sub neg div rounded towerGridSettings baseTowerHeight].
  assert (E2 : Qeq_bool 2 0 = false) by reflexivity. rewrite E2.
  cbn [rounded].
  assert (Hbase : within 0 1 (rem1 (Fin (0.6 + a * 0.4)))).
  { apply (rem1_range _ 1). cbn. lra. }
  destruct (rem1 (Fin (0.6 + a * 0.4))) as [bh| | |]; try contradiction.
  cbn [within] in Hbase. cbn [add].
  assert (Hhue : within 0 1 (rem1 (Fin (bh + v * 0.3)))).
  { apply (rem1_range _ 1.3). cbn. lra. }
  assert (Hem : within 0 1 (rem1 (add (rem1 (Fin (bh + v * 0.3))) (Fin 0.5)))).
  { destruct (rem1 (Fin (bh + v * 0.3))) as [th| | |]; try contradiction.
    cbn [within] in Hhue. apply (rem1_range _ 1.5). cbn. lra. }
  split; [|split; [|split]].
  - eexists _, _. split; [reflexivity|]. split; [nra|].
    split; [reflexivity|].
    apply (towerY_near (s0 + (1 + v * 50 + - s0) * 0.1)). nra.
  - unfold hsl_ok. cbn [hue saturation lightness between].
    split; [exact Hhue|]. split; lra.
  - unfold hsl_ok. cbn [hue saturation lightness between].
    split; [exact Hem|]. split; lra.
  - cbn [between]. lra.
Qed.

Lemma updateTowersFrom_ok (data : list byte) (delta : Q) (ts : list tower) :
  (0 < length data)%nat -> Forall (tower_ok towerGridSettings) ts ->
  forall index,
    Forall (tower_ok towerGridSettings)
           (updateTowersFrom towerGridSettings data delta index ts) /\
    length (updateTowersFrom towerGridSettings data delta index ts)
    = length ts.
Proof.
  intros Hn Hts. induction Hts as [|t rest Ht _ IH]; intros index.
  - split; [constructor | reflexivity].
  - cbn [updateTowersFrom length]. destruct (IH (S index)) as [A B].
    split; [|now rewrite B].
    constructor; [now apply updateTower_ok | exact A].
Qed.

(** The treadmill on one tower: the column is never touched; the tower
    moves by the step, and back by 150 when that brings it beyond the
    wrap line at 37.5. *)
Lemma updateTower_position (data : list byte) (delta : Q) (index : nat)
      (t : tower) :
  let t' := updateTower towerGridSettings data delta index t in
  let z1 := double (towerZ t + double (10 * delta)) in
  towerX t' = towerX t /\
  (37.5 < z1 -> towerZ t' = double (z1 - 150)) /\
  (z1 <= 37.5 -> towerZ t' = z1).
Proof.
  cbv zeta. unfold updateTower. cbv zeta. cbn [towerX towerZ].
  cbn [towerGridSettings wrapDistanceZ gridSize spacing].
  split; [reflexivity|].
  change (double (75 / 2)) with (75 # 2).
  change (double (20 * (150 / 20))) with (150 # 1).
  rewrite (double_proper (10.0 * delta) (10 * delta)) by ring.
  set (z1 := double (towerZ t + double (10 * delta))).
  destruct (Qltb (75 # 2) z1) eqn:E.
  - apply Qltb_lt in E.
    split; intros H; [now apply double_proper | lra].
  - apply Qltb_ge in E.
    split; intros H; [lra | reflexivity].
Qed.

Lemma updateTower_x (gs : gridSettings) (data : list byte) (delta : Q)
      (index : nat) (t : tower) :
  towerX (updateTower gs data delta index t) = towerX t.
Proof. reflexivity. Qed.

(** The step of the treadmill. *)
Lemma step_range (delta reach : Q) :
  double reach == reach -> 0 <= delta -> 10 * delta <= reach ->
  0 <= double (10 * delta) <= reach.
Proof.
  intros Hr H0 H1. split.
  - apply double_nonneg. lra.
  - now apply double_le.
Qed.

(** A tower of the grid as built stays between the far end of the grid
    and the wrap line once a frame has passed. *)
Lemma updateTower_band (data : list byte) (delta : Q) (index : nat)
      (t : tower) :
  0 <= delta -> 10 * delta <= 41.25 ->
  -146.25 <= towerZ t <= 146.25 ->
  -146.25
  <= towerZ (updateTower towerGridSettings data delta index t) <= 37.5.
Proof.
  intros H0 H1 Hz.
  destruct (step_range delta 41.25 ltac:(reflexivity) H0 H1) as [T0 T1].
  destruct (updateTower_position data delta index t) as (_ & W & N).
  cbv zeta in W, N.
  assert (L1 : -146.25 <= double (towerZ t + double (10 * delta))).
  { apply double_ge; [reflexivity | lra]. }
  assert (U1 : double (towerZ t + double (10 * delta)) <= 187.5).
  { apply double_le; [reflexivity | lra]. }
  set (z1 := double (towerZ t + double (10 * delta))) in *.
  destruct (Qlt_le_dec 37.5 z1) as [Hw | Hn].
  - rewrite (W Hw). split.
    + apply double_ge; [reflexivity | lra].
    + apply double_le; [reflexivity | lra].
  - rewrite (N Hn). lra.
Qed.

Lemma updateTowersFrom_lookup (gs : gridSettings) (data : list byte)
      (delta : Q) (ts : list tower) :
  forall index k,
    updateTowersFrom gs data delta index ts !! k =
    updateTower gs data delta (index + k) <$> ts !! k.
Proof.
  induction ts as [|t rest IH]; intros index k; [now destruct k|].
  destruct k as [|k]; cbn [updateTowersFrom].
  - cbn. now rewrite Nat.add_0_r.
  - rewrite !lookup_cons_ne_0 by lia. cbn [Nat.pred].
    rewrite (IH (S index) k).
    now replace (S index + k)%nat with (index + S k)%nat by lia.
Qed.

Lemma updateTowersFrom_x (gs : gridSettings) (data : list byte)
      (delta : Q) (ts : list tower) :
  forall index,
    map towerX (updateTowersFrom gs data delta index ts) = map towerX ts /\
    length (updateTowersFrom gs data delta index ts) = length ts.
Proof.
  induction ts as [|t rest IH]; intros index; [now split|].
  cbn [updateTowersFrom map length]. destruct (IH (S index)) as [A B].
  now rewrite A, B.
Qed.

Lemma updateTowersFrom_band (data : list byte) (delta : Q)
      (ts : list tower) :
  0 <= delta -> 10 * delta <= 41.25 ->
  towersWithin (-146.25) 146.25 ts ->
  forall index,
    towersWithin (-146.25) 37.5
                 (updateTowersFrom towerGridSettings data delta index ts).
Proof.
  intros H0 H1 Hts. induction Hts as [|t rest Ht _ IH]; intros index.
  - constructor.
  - cbn [updateTowersFrom]. constructor; [|apply IH].
    now apply updateTower_band.
Qed.

Lemma towersWithin_weaken (lo hi hi' : Q) (ts : list tower) :
  hi <= hi' -> towersWithin lo hi ts -> towersWithin lo hi' ts.
Proof.
  intros H. unfold towersWithin. apply List.Forall_impl. intros t Ht. lra.
Qed.

(** The steps of a constructor without a fault. *)
Lemma runSteps_none (steps : list (Visualizer -> Visualizer)) :
  forall s, runSteps steps None s = Done (fold_left (fun s f => f s) steps s).
Proof.
  induction steps as [|f rest IH]; intros s; [reflexivity|].
  cbn [runSteps fold_left]. apply IH.
Qed.

(** The position of the tower of column [x] and row [z] of the grid. *)
Lemma towerSteps_positions (grid : list (Z * Z)) :
  forall s,
    map objPosition
        (towers (fold_left (fun s f => f s) (map towerStep grid) s)) =
    map objPosition (towers s) ++
    map (fun xz : Z * Z =>
           mkVec ((inject_Z (fst xz) - 20 / 2 + 0.5) * (150 / 20)) 0
                 ((inject_Z (snd xz) - 20 + 0.5) * (150 / 20))) grid.
Proof.
  induction grid as [|[x z] rest IH]; intros s.
  - cbn [map fold_left]. now rewrite app_nil_r.
  - cbn [map fold_left]. rewrite IH.
    assert (E : towers (towerStep (x, z) s) =
                towers s ++
                [mkObject (nextId s) Tower
                   (mkVec ((inject_Z x - 20 / 2 + 0.5) * (150 / 20)) 0
                          ((inject_Z z - 20 + 0.5) * (150 / 20)))])
      by now destruct s.
    rewrite E, map_app, <- app_assoc. reflexivity.
Qed.

Lemma createTowers_positions (s : Visualizer) :
  map objPosition (towers (stateOf (createTowersVisualizer None s))) =
  map (fun xz : Z * Z =>
         mkVec ((inject_Z (fst xz) - 20 / 2 + 0.5) * (150 / 20)) 0
               ((inject_Z (snd xz) - 20 + 0.5) * (150 / 20))) towerGrid.
Proof.
  unfold createTowersVisualizer. rewrite runSteps_none.
  unfold stateOf, createTowersSteps.
  rewrite (fold_left_app (fun (s : Visualizer) f => f s)).
  rewrite (fold_left_app (fun (s : Visualizer) f => f s)).
  match goal with
  | |- context [fold_left ?g (map towerStep towerGrid) ?b] =>
      generalize (towerSteps_positions towerGrid b);
      assert (Hb : towers b = []) by now destruct s
  end.
  rewrite Hb. clear Hb.
  match goal with
  | |- context [fold_left ?g (map towerStep towerGrid) ?b] =>
      generalize (fold_left g (map towerStep towerGrid) b)
  end.
  intros grown Hg. etransitivity; [|exact Hg]. now destruct grown.
Qed.

Lemma nth_error_is_lookup {A : Type} (l : list A) :
  forall i, nth_error l i = l !! i.
Proof. induction l as [|a l IH]; intros [|i]; cbn; auto. Qed.

Lemma lookup_flat_map_block {A B : Type} (f : A -> list B) (n : nat)
      (l : list A) :
  (forall a, length (f a) = n) ->
  forall i j a,
    l !! i = Some a -> (j < n)%nat ->
    flat_map f l !! (i * n + j)%nat = f a !! j.
Proof.
  intros Hlen. induction l as [|a0 rest IH]; intros i j a Hi Hj;
    [discriminate|].
  cbn [flat_map]. destruct i as [|i].
  - injection Hi as ->. cbn [Nat.mul Nat.add].
    apply lookup_app_l. now rewrite Hlen.
  - rewrite lookup_app_r; rewrite Hlen; [|lia].
    replace (S i * n + j - n)%nat with (i * n + j)%nat by lia.
    now apply IH.
Qed.

Lemma towerGrid_lookup (x row : nat) :
  (x < 20)%nat -> (row < 40)%nat ->
  towerGrid !! (x * 40 + row)%nat = Some (Z.of_nat x, Z.of_nat row).
Proof.
  intros Hx Hr. unfold towerGrid.
  rewrite (lookup_flat_map_block
             (fun x : nat => map (fun z : nat => (Z.of_nat x, Z.of_nat z))
                                 (seq 0 40))
             40 (seq 0 20)
             (fun a => eq_trans (length_map _ _) (length_seq _ _))
             x row x).
  - rewrite list_lookup_fmap, lookup_seq_lt by lia. reflexivity.
  - now rewrite lookup_seq_lt by lia.
  - exact Hr.
Qed.

(** The tower of column [x] and row [row] as the constructor places it. *)
Lemma created_tower (s : Visualizer) (x row : nat) :
  (x < 20)%nat -> (row < 40)%nat ->
  exists t,
    towersOf (towersSceneOf (stateOf (createTowersVisualizer None s)))
      !! (x * 40 + row)%nat = Some t /\
    towerX t = (inject_Z (Z.of_nat x) - 20 / 2 + 0.5) * (150 / 20) /\
    towerZ t = (inject_Z (Z.of_nat row) - 20 + 0.5) * (150 / 20).
Proof.
  intros Hx Hr.
  assert (P := createTowers_positions s).
  revert P.
  generalize (stateOf (createTowersVisualizer None s)). intros built P.
  assert (L : nth_error (map objPosition (towers built)) (x * 40 + row)
              = Some (mkVec ((inject_Z (Z.of_nat x) - 20 / 2 + 0.5)
                             * (150 / 20)) 0
                            ((inject_Z (Z.of_nat row) - 20 + 0.5)
                             * (150 / 20)))).
  { rewrite P.
    exact (@map_nth_error
             _ _
             (fun xz : Z * Z =>
                mkVec ((inject_Z (fst xz) - 20 / 2 + 0.5) * (150 / 20)) 0
                      ((inject_Z (snd xz) - 20 + 0.5) * (150 / 20)))
             (x * 40 + row) towerGrid (Z.of_nat x, Z.of_nat row)
             (eq_trans (nth_error_is_lookup towerGrid (x * 40 + row))
                       (towerGrid_lookup x row Hx Hr))). }
  clear P. rewrite nth_error_map in L.
  unfold towersSceneOf. cbn [towersOf].
  destruct (nth_error (towers built) (x * 40 + row)) as [o|] eqn:Eo;
    [|discriminate].
  cbn [option_map] in L. injection L as L.
  exists (newTower o).
  split; [now rewrite <- nth_error_is_lookup, nth_error_map, Eo|]. unfold newTower. cbn [towerX towerZ].
  rewrite L. cbn [vx vz fst snd]. split; reflexivity.
Qed.

(** The grid as built: 40 rows from [z = -146.25] to [z = 146.25]. *)
Lemma built_towers_within (s : Visualizer) :
  towersWithin (-146.25) 146.25
    (towersOf (towersSceneOf (stateOf (createTowersVisualizer None s)))).
Proof.
  assert (P := createTowers_positions s). revert P.
  generalize (stateOf (createTowersVisualizer None s)). intros built P.
  unfold towersWithin, towersSceneOf. cbn [towersOf].
  apply List.Forall_forall. intros t Hin.
  apply in_map_iff in Hin as (o & <- & Ho).
  assert (Hp : In (objPosition o) (map objPosition (towers built)))
    by now apply in_map.
  rewrite P in Hp. apply in_map_iff in Hp as ([x z] & E & Hg).
  unfold towerGrid in Hg. apply in_flat_map in Hg as (x0 & _ & Hz).
  apply in_map_iff in Hz as (z0 & [= <- <-] & Hz0).
  apply in_seq in Hz0.
  unfold newTower. cbn [towerZ]. rewrite <- E. cbn [vz snd].
  assert (C : 150 / 20 == 7.5) by (vm_compute; reflexivity).
  assert (R0 : 0 <= inject_Z (Z.of_nat z0))
    by (change 0 with (inject_Z 0); rewrite <- Zle_Qle; lia).
  assert (R1 : inject_Z (Z.of_nat z0) <= 39)
    by (change 39 with (inject_Z 39); rewrite <- Zle_Qle; lia).
  rewrite C. lra.
Qed.

Section Clock.

Variable sin : Q -> Q.

(** A frame keeps the columns, the number of towers and the
    settings, whatever the frame. *)
Lemma towersFrame_x (sc : towersScene) (f : frameInput) :
  map towerX (towersOf (towersFrame sin sc f)) = map towerX (towersOf sc)
  /\ length (towersOf (towersFrame sin sc f)) = length (towersOf sc)
  /\ settings (towersFrame sin sc f) = settings sc.
Proof.
  unfold towersFrame, updateTowersVisualizer.
  destruct (settings sc) as [gs|] eqn:E; [|now rewrite E].
  cbn [towersOf settings].
  destruct (updateTowersFrom_x gs (frameData f) (frameDelta f)
                               (towersOf sc) 0%nat) as [A B].
  now rewrite A, B.
Qed.

Lemma runTowers_x (frames : list frameInput) :
  forall sc,
    map towerX (towersOf (runTowers sin frames sc))
    = map towerX (towersOf sc)
    /\ length (towersOf (runTowers sin frames sc)) = length (towersOf sc)
    /\ settings (runTowers sin frames sc) = settings sc.
Proof.
  induction frames as [|f rest IH]; intros sc; [now repeat split|].
  unfold runTowers in *. cbn [fold_left].
  destruct (IH (towersFrame sin sc f)) as (A & B & C).
  destruct (towersFrame_x sc f) as (A0 & B0 & C0).
  now rewrite A, B, C, A0, B0, C0.
Qed.

Lemma towersFrame_fields (gs : gridSettings) (sc : towersScene)
      (f : frameInput) :
  settings sc = Some gs ->
  settings (towersFrame sin sc f) = Some gs /\
  towersOf (towersFrame sin sc f) =
    updateTowersFrom gs (frameData f) (frameDelta f) 0 (towersOf sc) /\
  cameraOf (towersFrame sin sc f) =
    moveCamera sin (frameDelta f) (frameTime f) (cameraOf sc).
Proof.
  intros Hs. unfold towersFrame, updateTowersVisualizer. rewrite Hs.
  repeat split.
Qed.

(** X20. The towers follow the audio within bounds.  With the grid
    settings of the program, over any number of frames on snapshots
    with at least one bin, every tower keeps a [scale.y] between 1 and
    51 (towers start at 1); its [position.y], computed in doubles, is
    within [1e-14] of [baseTowerHeight * (scale.y - 1) / 2], so that
    its base stays on the ground plane; its colours are given by hues
    in [0,1) with saturation and lightness in [0,1], and its emissive
    intensity stays between 0 and 2; no tower is added or removed. *)
Theorem towers_follow_audio_in_bounds (frames : list frameInput)
        (sc : towersScene) :
  settings sc = Some towerGridSettings ->
  Forall (tower_ok towerGridSettings) (towersOf sc) ->
  Forall audibleFrame frames ->
  let sc' := runTowers sin frames sc in
  Forall (tower_ok towerGridSettings) (towersOf sc') /\
  length (towersOf sc') = length (towersOf sc) /\
  settings sc' = Some towerGridSettings.
Proof.
  intros Hs Hts Hf. cbv zeta. revert sc Hs Hts.
  induction Hf as [|f rest Hf0 _ IH]; intros sc Hs Hts.
  - now repeat split.
  - unfold runTowers in *. cbn [fold_left].
    destruct (towersFrame_fields towerGridSettings sc f Hs)
      as (E1 & E2 & _).
    destruct (updateTowersFrom_ok (frameData f) (frameDelta f)
                                  (towersOf sc) Hf0 Hts 0%nat) as [A B].
    destruct (IH (towersFrame sin sc f) E1) as (I1 & I2 & I3).
    { now rewrite E2. }
    split; [exact I1|]. split; [|exact I3]. now rewrite I2, E2, B.
Qed.

Lemma moveCamera_range (delta time : Q) (c : Camera) :
  0 <= delta -> vz (camPosition c) <= 30 ->
  let c' := moveCamera sin delta time c in
  -50 <= vz (camPosition c') <= 30 /\
  vy (camPosition c') == 0.5 /\
  vx (camPosition c') == sin (time * 0.5) * 2 /\
  camProjection c' = camProjection c /\ camId c' = camId c.
Proof.
  intros Hd Hz. cbv zeta. unfold moveCamera.
  cbn [camPosition vx vy vz camProjection camId].
  split; [|split; [reflexivity | split; [|split; reflexivity]]].
  - destruct (Qltb (vz (camPosition c) - 5.0 * delta) (-50)) eqn:E.
    + lra.
    + apply Qltb_ge in E. lra.
  - lra.
Qed.

Lemma runTowers_band (frames : list frameInput) :
  forall sc,
    settings sc = Some towerGridSettings ->
    Forall (steadyFrame 41.25) frames ->
    towersWithin (-146.25) 146.25 (towersOf sc) ->
    towersWithin (-146.25) 146.25 (towersOf (runTowers sin frames sc)) /\
    (frames <> [] ->
     towersWithin (-146.25) 37.5 (towersOf (runTowers sin frames sc))).
Proof.
  induction frames as [|f rest IH]; intros sc Hs Hf Hts.
  - split; [exact Hts | intros H; now contradiction H].
  - inversion Hf as [|? ? [H0 H1] Hrest]; subst.
    unfold runTowers in *. cbn [fold_left].
    destruct (towersFrame_fields towerGridSettings sc f Hs)
      as (E1 & E2 & _).
    pose proof (updateTowersFrom_band (frameData f) (frameDelta f)
                                      (towersOf sc) H0 H1 Hts 0%nat) as A.
    rewrite <- E2 in A.
    assert (A' : towersWithin (-146.25) 146.25
                              (towersOf (towersFrame sin sc f))).
    { apply (towersWithin_weaken _ 37.5); [lra | exact A]. }
    destruct (IH (towersFrame sin sc f) E1 Hrest A') as [I1 I2].
    split; [exact I1|]. intros _.
    destruct rest as [|f2 rest]; [exact A | apply I2; discriminate].
Qed.

(** X22. The treadmill keeps the towers in a band.  No frame ever
    changes the column of a tower, or the number of towers.  The grid
    is built from [z = -146.25] to [z = 146.25]; with the grid settings
    of the program, over any number of frames that each move the
    treadmill forward by at most 41.25, towers within these bounds stay
    within them, and after the first frame every tower is at or before
    the wrap line [z = 37.5]. *)
Theorem treadmill_keeps_towers_in_band (frames : list frameInput)
        (sc : towersScene) (s : Visualizer) :
  let sc' := runTowers sin frames sc in
  let built := towersSceneOf (stateOf (createTowersVisualizer None s)) in
  map towerX (towersOf sc') = map towerX (towersOf sc) /\
  length (towersOf sc') = length (towersOf sc) /\
  towersWithin (-146.25) 146.25 (towersOf built) /\
  (settings sc = Some towerGridSettings ->
   Forall (steadyFrame 41.25) frames ->
   towersWithin (-146.25) 146.25 (towersOf sc) ->
   towersWithin (-146.25) 146.25 (towersOf sc') /\
   (frames <> [] -> towersWithin (-146.25) 37.5 (towersOf sc'))).
Proof.
  cbv zeta.
  destruct (runTowers_x frames sc) as (A & B & _).
  split; [exact A|]. split; [exact B|].
  split; [apply built_towers_within|].
  apply runTowers_band.
Qed.

(** X23. The wrap distance is half the depth of the grid.  The
    constructor lays out 40 rows, 7.5 apart, but the treadmill wraps by
    [gridSize * spacing = 150], the depth of 20 rows.  So on the first
    frame after the towers are built (frame time not negative and at
    most 4.125, that is a treadmill step of at most 41.25), every tower
    of the rows 25 to 39 is moved onto the place of the tower 20 rows
    nearer in its column: the two have the same [x], and their [z]
    differ by no more than the rounding of the three additions,
    [1e-13]. *)
Theorem far_rows_land_on_near_rows (s : Visualizer) (f : frameInput)
        (x row : nat) :
  0 <= frameDelta f -> 10 * frameDelta f <= 41.25 ->
  (x < 20)%nat -> (25 <= row < 40)%nat ->
  let built := stateOf (createTowersVisualizer None s) in
  let sc := towersFrame sin (towersSceneOf built) f in
  exists far near : tower,
    towersOf sc !! (x * 40 + row)%nat = Some far /\
    towersOf sc !! (x * 40 + (row - 20))%nat = Some near /\
    towerX far == towerX near /\
    - (1 # 10000000000000) <= towerZ far - towerZ near
    <= 1 # 10000000000000.
Proof.
  intros H0 H1 Hx Hr. cbv zeta.
  destruct (created_tower s x row Hx ltac:(lia)) as (t1 & L1 & X1 & Z1).
  destruct (created_tower s x (row - 20) Hx ltac:(lia))
    as (t2 & L2 & X2 & Z2).
  revert L1 L2.
  generalize (stateOf (createTowersVisualizer None s)). intros built L1 L2.
  destruct (towersFrame_fields towerGridSettings (towersSceneOf built)
                               f eq_refl) as (_ & -> & _).
  rewrite !updateTowersFrom_lookup, L1, L2. cbn [fmap option_fmap option_map].
  eexists _, _. split; [reflexivity|]. split; [reflexivity|].
  destruct (updateTower_position (frameData f) (frameDelta f)
                                 (0 + (x * 40 + row)) t1) as (E1 & W1 & _).
  destruct (updateTower_position (frameData f) (frameDelta f)
                                 (0 + (x * 40 + (row - 20))) t2)
    as (E2 & _ & N2).
  cbv zeta in E1, W1, E2, N2.
  destruct (step_range (frameDelta f) 41.25 ltac:(reflexivity) H0 H1)
    as [T0 T1].
  set (T := double (10 * frameDelta f)) in *.
  assert (R1 : 25 <= inject_Z (Z.of_nat row))
    by (change 25 with (inject_Z 25); rewrite <- Zle_Qle; lia).
  assert (R2 : inject_Z (Z.of_nat row) <= 39)
    by (change 39 with (inject_Z 39); rewrite <- Zle_Qle; lia).
  assert (R3 : inject_Z (Z.of_nat (row - 20)) == inject_Z (Z.of_nat row) - 20).
  { replace (Z.of_nat (row - 20)) with (Z.of_nat row - 20)%Z by lia.
    unfold Zminus. rewrite inject_Z_plus. reflexivity. }
  assert (C : 150 / 20 == 7.5) by (vm_compute; reflexivity).
  assert (F : 41.25 <= towerZ t1 <= 146.25) by (rewrite Z1, C; lra).
  assert (N : towerZ t2 == towerZ t1 - 150) by (rewrite Z1, Z2, R3, C; lra).
  assert (Ff : 41.25 <= double (towerZ t1 + T) <= 187.5).
  { split; [apply double_ge | apply double_le]; try reflexivity; lra. }
  assert (Fn : double (towerZ t2 + T) <= 37.5).
  { apply double_le; [reflexivity | lra]. }
  pose proof (double_near_256 (towerZ t1 + T) ltac:(lra)) as D1.
  pose proof (double_near_256 (towerZ t2 + T) ltac:(lra)) as D2.
  set (zf := double (towerZ t1 + T)) in *.
  set (zn := double (towerZ t2 + T)) in *.
  pose proof (double_near_256 (zf - 150) ltac:(lra)) as D3.
  split.
  - rewrite E1, E2, X1, X2. reflexivity.
  - rewrite (W1 ltac:(lra)), (N2 Fn). lra.
Qed.

Hypothesis sin_bounded : forall x : Q, -1 <= sin x <= 1.

(** X21. The ride of the camera through the towers.  From a camera no
    farther back than [z = 30] (the towers start it at [z = 10]), over
    any number of frames with frame times that are not negative, the
    camera stays between [z = -50] and [z = 30]; after a frame it is at
    height 0.5 and, [Math.sin] being within [-1, 1], within 2 of the
    centre line; its projection is never touched. *)
Theorem towers_camera_stays_on_track (frames : list frameInput)
        (gs : gridSettings) (sc : towersScene) :
  settings sc = Some gs ->
  vz (camPosition (cameraOf sc)) <= 30 ->
  Forall (fun f => 0 <= frameDelta f) frames ->
  frames <> [] ->
  let c' := cameraOf (runTowers sin frames sc) in
  -50 <= vz (camPosition c') <= 30 /\
  vy (camPosition c') == 0.5 /\
  -2 <= vx (camPosition c') <= 2 /\
  camProjection c' = camProjection (cameraOf sc).
Proof.
  intros Hs Hz Hf Hne. cbv zeta.
  destruct frames as [|f0 rest]; [contradiction|]. clear Hne.
  revert f0 sc Hs Hz Hf.
  induction rest as [|f1 rest IH]; intros f0 sc Hs Hz Hf.
  - unfold runTowers. cbn [fold_left].
    destruct (towersFrame_fields gs sc f0 Hs) as (_ & _ & ->).
    inversion Hf as [|? ? Hd _]; subst.
    destruct (moveCamera_range (frameDelta f0) (frameTime f0)
                               (cameraOf sc) Hd Hz) as (A & B & C & D & _).
    split; [exact A|]. split; [exact B|]. split; [|exact D].
    assert (S := sin_bounded (frameTime f0 * 0.5)). lra.
  - inversion Hf as [|? ? Hd Hrest]; subst.
    destruct (towersFrame_fields gs sc f0 Hs) as (E1 & _ & E3).
    destruct (moveCamera_range (frameDelta f0) (frameTime f0)
                               (cameraOf sc) Hd Hz) as (A & _ & _ & D & _).
    rewrite <- E3 in A, D.
    destruct (IH f1 (towersFrame sin sc f0) E1 (proj2 A) Hrest)
      as (I1 & I2 & I3 & I4).
    unfold runTowers in *. cbn [fold_left] in *.
    split; [exact I1|]. split; [exact I2|]. split; [exact I3|].
    now rewrite I4.
Qed.

End Clock.

Lemma bars_stay_in_range_witness :
  let data := Beat.bassSpike in
  length (updateBars data 64) = 64%nat /\
  Forall (fun b => between 1 11 (barScaleY b) /\
                   within 0.5 0.8 (hue (barColor b)) /\
                   saturation (barColor b) = Fin 1 /\
                   lightness (barColor b) = Fin 0.5)
         (updateBars data 64) /\
  forall total i : nat,
    (length data <= i)%nat -> barScaleY (updateBar data total i) = NaN.
Proof.
  apply (bars_stay_in_range Beat.bassSpike 64). simpl. lia.
Defined.

Lemma towers_follow_audio_in_bounds_witness :
  let sin := fun _ : Q => 0 in
  let sc := mkTowersScene
              (Some towerGridSettings) None None
              [newTower (mkObject 0 Tower (mkVec 3.75 0 (-3.75)));
               newTower (mkObject 1 Tower (mkVec 3.75 0 33.75))]
              (mkCamera 0 (OrthographicCamera (-1) 1 1 (-1) 0 1)
                        (mkVec 0 2 10) (mkVec 0 1 0)) in
  let sc' := runTowers sin [mkFrameInput Beat.bassSpike (double 0.016) 1;
                            mkFrameInput Beat.bassSpike (double 0.5) 2] sc in
  (Forall (tower_ok towerGridSettings) (towersOf sc') /\
   length (towersOf sc') = length (towersOf sc) /\
   settings sc' = Some towerGridSettings) /\
  map towerY (towersOf sc')
  = [Fin (8556839292003943 # 18014398509481984);
     Fin (4503599627370497 # 18014398509481984)] /\
  map towerZ (towersOf sc')
  = [396879717162025 # 281474976710656;
     -3908631895348347 # 35184372088832].
Proof.
  cbv zeta. split.
  - apply (towers_follow_audio_in_bounds
             (fun _ : Q => 0)
             [mkFrameInput Beat.bassSpike (double 0.016) 1;
              mkFrameInput Beat.bassSpike (double 0.5) 2]
             (mkTowersScene
                (Some towerGridSettings) None None
                [newTower (mkObject 0 Tower (mkVec 3.75 0 (-3.75)));
                 newTower (mkObject 1 Tower (mkVec 3.75 0 33.75))]
                (mkCamera 0 (OrthographicCamera (-1) 1 1 (-1) 0 1)
                          (mkVec 0 2 10) (mkVec 0 1 0)))).
    + reflexivity.
    + constructor; [|constructor; [|constructor]].
      * split; [exists 1, 0; cbn; repeat split; vm_compute; congruence|].
        cbn. repeat split; vm_compute; congruence.
      * split; [exists 1, 0; cbn; repeat split; vm_compute; congruence|].
        cbn. repeat split; vm_compute; congruence.
    + constructor; [|constructor; [|constructor]];
        unfold audibleFrame; simpl; lia.
  - split; vm_compute; reflexivity.
Defined.

Lemma towers_camera_stays_on_track_witness :
  let sin := fun _ : Q => 0 in
  let sc := mkTowersScene
              (Some towerGridSettings) None None []
              (mkCamera 0 (OrthographicCamera (-1) 1 1 (-1) 0 1)
                        (mkVec 0 2 10) (mkVec 0 1 0)) in
  let c' := cameraOf (runTowers sin [mkFrameInput Beat.bassSpike 0.016 1] sc) in
  -50 <= vz (camPosition c') <= 30 /\
  vy (camPosition c') == 0.5 /\
  -2 <= vx (camPosition c') <= 2 /\
  camProjection c' = camProjection (cameraOf sc).
Proof.
  cbv zeta.
  apply (towers_camera_stays_on_track
           (fun _ : Q => 0)
           (fun _ => conj (ltac:(vm_compute; discriminate) : -1 <= 0)
                          (ltac:(vm_compute; discriminate) : 0 <= 1))
           [mkFrameInput Beat.bassSpike 0.016 1] towerGridSettings
           (mkTowersScene
              (Some towerGridSettings) None None []
              (mkCamera 0 (OrthographicCamera (-1) 1 1 (-1) 0 1)
                        (mkVec 0 2 10) (mkVec 0 1 0)))).
  - reflexivity.
  - vm_compute; discriminate.
  - constructor; [vm_compute; discriminate | constructor].
  - discriminate.
Defined.

Lemma treadmill_keeps_towers_in_band_witness :
  let sin := fun _ : Q => 0 in
  let built :=
    towersSceneOf (stateOf (createTowersVisualizer None
                                                   (constructed 1920 1080))) in
  let frames := [mkFrameInput Beat.bassSpike (double 0.016) 1;
                 mkFrameInput Beat.bassSpike 4 5] in
  let sc' := runTowers sin frames built in
  map towerX (towersOf sc') = map towerX (towersOf built) /\
  length (towersOf sc') = 800%nat /\
  towersWithin (-146.25) 146.25 (towersOf built) /\
  towersWithin (-146.25) 146.25 (towersOf sc') /\
  towersWithin (-146.25) 37.5 (towersOf sc').
Proof.
  cbv zeta.
  destruct (treadmill_keeps_towers_in_band
              (fun _ : Q => 0)
              [mkFrameInput Beat.bassSpike (double 0.016) 1;
               mkFrameInput Beat.bassSpike 4 5]
              (towersSceneOf
                 (stateOf (createTowersVisualizer None
                                                  (constructed 1920 1080))))
              (constructed 1920 1080)) as (A & B & C & D).
  destruct D as [D1 D2].
  - reflexivity.
  - constructor; [|constructor; [|constructor]];
      split; vm_compute; discriminate.
  - exact C.
  - split; [exact A|]. split; [|split; [exact C|split; [exact D1|]]].
    + rewrite B. vm_compute. reflexivity.
    + apply D2. discriminate.
Defined.

Lemma far_rows_land_on_near_rows_witness :
  let sin := fun _ : Q => 0 in
  let f := mkFrameInput Beat.bassSpike (double 0.016) 1 in
  let built := stateOf (createTowersVisualizer None (constructed 1920 1080)) in
  let sc := towersFrame sin (towersSceneOf built) f in
  (exists far near : tower,
      towersOf sc !! (3 * 40 + 39)%nat = Some far /\
      towersOf sc !! (3 * 40 + (39 - 20))%nat = Some near /\
      towerX far == towerX near /\
      - (1 # 10000000000000) <= towerZ far - towerZ near
      <= 1 # 10000000000000) /\
  towerZ (updateTower towerGridSettings [] (double 0.016) 0
                      (newTower (mkObject 0 Tower (mkVec 0 0 146.25))))
  = -126311895798907 # 35184372088832 /\
  towerZ (updateTower towerGridSettings [] (double 0.016) 0
                      (newTower (mkObject 0 Tower (mkVec 0 0 (-3.75)))))
  = -1010495166391255 # 281474976710656.
Proof.
  cbv zeta. split.
  - apply (far_rows_land_on_near_rows
             (fun _ : Q => 0) (constructed 1920 1080)
             (mkFrameInput Beat.bassSpike (double 0.016) 1) 3 39).
    + vm_compute; discriminate.
    + vm_compute; discriminate.
    + lia.
    + lia.
  - split; vm_compute; reflexivity.
Defined.

End FrameFacts.

(** ** The styles over time *)

Module StyleFacts.
Import Particles Controller Animation.
Import BandFacts ControllerFacts FrameFacts.

Local Open Scope string_scope.

(** What every statement of a constructor keeps, the constructor keeps,
    wherever it fails. *)
Lemma runSteps_invariant (P : Visualizer -> Prop)
      (steps : list (Visualizer -> Visualizer)) :
  Forall (fun step => forall s, P s -> P (step s)) steps ->
  forall (f : fault) (s : Visualizer),
    P s -> P (stateOf (runSteps steps f s)).
Proof.
  induction 1 as [|step rest Hstep _ IH]; intros f s HP; [exact HP|].
  cbn [runSteps]. destruct f as [[|k]|].
  - exact HP.
  - apply IH, Hstep, HP.
  - apply IH, Hstep, HP.
Qed.

Lemma Forall_map_steps {A : Type} (P : Visualizer -> Prop)
      (step : A -> Visualizer -> Visualizer) (l : list A) :
  (forall a s, P s -> P (step a s)) ->
  Forall (fun st => forall s, P s -> P (st s)) (map step l).
Proof.
  intros H. apply List.Forall_forall. intros st Hin.
  apply in_map_iff in Hin as (a & <- & _). apply H.
Qed.

(** The camera through the constructors of the bars, the points and
    the towers. *)
Lemma barsSteps_camera (c : Visualizer) :
  Forall (fun st => forall s, sameCamera s c -> sameCamera (st s) c)
         createBarsSteps.
Proof.
  apply Forall_map_steps. intros i s H. now destruct s.
Qed.

Lemma pointsSteps_camera (c : Visualizer) :
  Forall (fun st => forall s, sameCamera s c -> sameCamera (st s) c)
         createPointsSteps.
Proof.
  unfold createPointsSteps.
  repeat (apply List.Forall_cons; [intros s H |]); try apply List.Forall_nil.
  all: try (now destruct s).
  destruct s as [sc bg cam oc bs ps ts gp cl sf [o|] st orb sp sm stime ada
                 lv rh nid rn]; exact H.
Qed.

Lemma towersSteps_camera (c : Visualizer) :
  Forall (fun st => forall s, sameCamera s c -> sameCamera (st s) c)
         createTowersSteps.
Proof.
  unfold createTowersSteps. apply Forall_app. split; [|apply Forall_app; split].
  - repeat (apply List.Forall_cons; [intros s H |]); try apply List.Forall_nil.
    all: try (now destruct s).
    destruct s as [sc bg cam oc bs ps ts gp cl [o|] pm st orb sp sm stime ada
                   lv rh nid rn]; exact H.
  - apply Forall_map_steps. intros [x z] s H. now destruct s.
  - apply List.Forall_cons; [|apply List.Forall_nil].
    intros s H. now destruct s.
Qed.

Lemma heldIn_In (os : list Object3D) (o : Object3D) :
  In o os -> heldIn os o = true.
Proof.
  intros H. unfold heldIn. apply existsb_exists.
  exists o. split; [exact H | apply Nat.eqb_refl].
Qed.

(** The loop of [createBars] and the loop of [createTowersVisualizer]:
    each iteration makes one object, adds it to the scene and to the
    field of the style. *)
Lemma barStep_eq (i : nat) (s : Visualizer) :
  exists o : Object3D,
    barStep i s
    = mkVisualizer (scene s ++ [o])%list (background s) (camera s) (originalCamera s)
        (bars s ++ [o])%list (particles s) (towers s) (groundPlane s) (cloudLayers s)
        (starfield s) (pointsMesh s) (currentStyle s) (orbitControls s)
        (shaderPlane s) (shaderMaterial s) (shaderTime s)
        (audioDataArray s) (smoothed s) (resizeHandler s)
        (S (nextId s)) (renders s).
Proof.
  exists (mkObject (nextId s) Bar
                   (mkVec (- ((64 - 1) * (0.2 + 0.3)) / 2
                           + inject_Z (Z.of_nat i) * (0.2 + 0.3)) 0 0)).
  now destruct s.
Qed.

Lemma barSteps_made (l : list nat) :
  forall s : Visualizer,
  exists made : list Object3D,
    fold_left (fun s f => f s) (map barStep l) s
    = mkVisualizer (scene s ++ made)%list (background s) (camera s) (originalCamera s)
        (bars s ++ made)%list (particles s) (towers s) (groundPlane s) (cloudLayers s)
        (starfield s) (pointsMesh s) (currentStyle s) (orbitControls s)
        (shaderPlane s) (shaderMaterial s) (shaderTime s)
        (audioDataArray s) (smoothed s) (resizeHandler s)
        (length l + nextId s) (renders s).
Proof.
  induction l as [|a l IH]; intros s.
  - exists []. cbn [map fold_left length Nat.add].
    rewrite (app_nil_r (scene s)), (app_nil_r (bars s)). now destruct s.
  - cbn [map fold_left length]. destruct (barStep_eq a s) as [o ->].
    match goal with
    | |- context [fold_left _ (map barStep l) ?x] =>
        destruct (IH x) as [made ->]
    end.
    exists (o :: made).
    cbn [scene background camera originalCamera bars particles towers
         groundPlane cloudLayers starfield pointsMesh currentStyle
         orbitControls shaderPlane shaderMaterial shaderTime audioDataArray
         smoothed resizeHandler nextId renders].
    rewrite <- (app_assoc (scene s)), <- (app_assoc (bars s)). cbn [app].
    f_equal. lia.
Qed.

Lemma towerStep_eq (xz : Z * Z) (s : Visualizer) :
  exists o : Object3D,
    towerStep xz s
    = mkVisualizer (scene s ++ [o])%list (background s) (camera s) (originalCamera s)
        (bars s) (particles s) (towers s ++ [o])%list (groundPlane s) (cloudLayers s)
        (starfield s) (pointsMesh s) (currentStyle s) (orbitControls s)
        (shaderPlane s) (shaderMaterial s) (shaderTime s)
        (audioDataArray s) (smoothed s) (resizeHandler s)
        (S (nextId s)) (renders s).
Proof.
  destruct xz as [x z].
  exists (mkObject (nextId s) Tower
                   (mkVec ((inject_Z x - 20 / 2 + 0.5) * (150 / 20)) 0
                          ((inject_Z z - 20 + 0.5) * (150 / 20)))).
  now destruct s.
Qed.

Lemma towerSteps_made (l : list (Z * Z)) :
  forall s : Visualizer,
  exists made : list Object3D,
    fold_left (fun s f => f s) (map towerStep l) s
    = mkVisualizer (scene s ++ made)%list (background s) (camera s) (originalCamera s)
        (bars s) (particles s) (towers s ++ made)%list (groundPlane s) (cloudLayers s)
        (starfield s) (pointsMesh s) (currentStyle s) (orbitControls s)
        (shaderPlane s) (shaderMaterial s) (shaderTime s)
        (audioDataArray s) (smoothed s) (resizeHandler s)
        (length l + nextId s) (renders s).
Proof.
  induction l as [|a l IH]; intros s.
  - exists []. cbn [map fold_left length Nat.add].
    rewrite (app_nil_r (scene s)), (app_nil_r (towers s)). now destruct s.
  - cbn [map fold_left length]. destruct (towerStep_eq a s) as [o ->].
    match goal with
    | |- context [fold_left _ (map towerStep l) ?x] =>
        destruct (IH x) as [made ->]
    end.
    exists (o :: made).
    cbn [scene background camera originalCamera bars particles towers
         groundPlane cloudLayers starfield pointsMesh currentStyle
         orbitControls shaderPlane shaderMaterial shaderTime audioDataArray
         smoothed resizeHandler nextId renders].
    rewrite <- (app_assoc (scene s)), <- (app_assoc (towers s)). cbn [app].
    f_equal. lia.
Qed.

Section Window.

Variables innerWidth innerHeight : Q.

Local Abbreviation prepareScene := (prepareScene innerWidth innerHeight).
Local Abbreviation createVisualizer :=
  (createVisualizer innerWidth innerHeight).
Local Abbreviation onStyleChange := (onStyleChange innerWidth innerHeight).
Local Abbreviation dispatchChange :=
  (dispatchChange innerWidth innerHeight).

Lemma prepareScene_camera (s : Visualizer) :
  currentStyle s <> "shaders" ->
  sameCamera (prepareScene s) s /\
  currentStyle (prepareScene s) = currentStyle s.
Proof.
  intros Hne. apply String.eqb_neq in Hne.
  unfold Controller.prepareScene. destruct (clearScene_fields s) as [sc ->].
  rewrite Hne. unfold sameCamera. cbn. auto.
Qed.

Lemma buildStyle_camera (f fb : fault) (s : Visualizer) :
  currentStyle s <> "shaders" ->
  sameCamera (stateOf (buildStyle f fb s)) s.
Proof.
  intros Hne. apply String.eqb_neq in Hne.
  assert (Hrefl : sameCamera s s) by (split; reflexivity).
  unfold buildStyle.
  destruct (String.eqb (currentStyle s) "bars").
  { apply (runSteps_invariant _ _ (barsSteps_camera s) f s Hrefl). }
  destruct (String.eqb (currentStyle s) "points").
  { apply (runSteps_invariant _ _ (pointsSteps_camera s) f s Hrefl). }
  destruct (String.eqb (currentStyle s) "towers").
  { assert (H := runSteps_invariant _ _ (towersSteps_camera s) f s Hrefl).
    unfold createTowersVisualizer.
    destruct (runSteps createTowersSteps f s) as [s' | s'];
      cbn [stateOf] in *; [|exact H].
    now destruct s'. }
  rewrite Hne. exact Hrefl.
Qed.

Lemma onStyleChange_camera (value : string) (f fb : fault)
      (s : Visualizer) :
  value <> "shaders" ->
  sameCamera (stateOf (onStyleChange value f fb s)) s.
Proof.
  intros Hne. unfold Controller.onStyleChange, Controller.createVisualizer.
  assert (Hv : currentStyle (set_currentStyle value s) = value)
    by now destruct s.
  assert (Hc : sameCamera (set_currentStyle value s) s)
    by (destruct s; split; reflexivity).
  destruct (prepareScene_camera (set_currentStyle value s)) as [P1 P2];
    [now rewrite Hv|].
  assert (B := buildStyle_camera f fb (prepareScene (set_currentStyle value s))).
  rewrite P2, Hv in B. specialize (B Hne).
  destruct (buildStyle f fb _) as [s' | s']; cbn [stateOf] in *.
  - assert (E : sameCamera (set_renders (S (renders s')) s') s')
      by (destruct s'; split; reflexivity).
    unfold sameCamera in *. intuition congruence.
  - unfold sameCamera in *. intuition congruence.
Qed.

(** X24. Only a change to the Shaders style ever replaces the camera.
    A change event for any other value, valid or not, and whether or
    not a constructor fails, leaves [this.camera] the same object with
    the same projection; in particular the orthographic camera of the
    Shaders style stays in place when the style is left. *)
Theorem camera_kept_outside_shaders (value : string)
        (f1 fb1 f2 fb2 : fault) (s : Visualizer) :
  value <> "shaders" ->
  let s' := stateOf (dispatchChange value f1 fb1 f2 fb2 s) in
  camId (camera s') = camId (camera s) /\
  camProjection (camera s') = camProjection (camera s) /\
  isPerspective (camera s') = isPerspective (camera s).
Proof.
  intros Hne. cbv zeta. unfold Controller.dispatchChange.
  destruct (onStyleChange_camera value f1 fb1 s Hne) as [A1 A2].
  destruct (onStyleChange_camera value f2 fb2
              (stateOf (onStyleChange value f1 fb1 s)) Hne) as [B1 B2].
  unfold isPerspective.
  rewrite B1, B2, A1, A2. auto.
Qed.


(** The same, with the scene: the children without the objects of the
    style fields, and the new shader plane. *)
Lemma shaders_listener (s : Visualizer) :
  onStyleChange "shaders" None None s =
  Done (mkVisualizer
          (without (styleObjects s) (scene s)
           ++ [mkObject (3 + nextId s) ShaderPlane origin])%list
          0x000000
          (mkCamera (4 + nextId s)
                    (OrthographicCamera (-1) 1 1 (-1) 0 1) origin origin)
          (Some (mkCamera (1 + nextId s)
                          (defaultProjection innerWidth innerHeight)
                          (mkVec 0 10 20) origin))
          [] [] [] None [] None None "shaders"
          (mkOrbit (nextId s) false origin)
          (Some (mkObject (3 + nextId s) ShaderPlane origin))
          (Some (2 + nextId s)%nat) 0
          (Some (repeat x00 128)) Bands.zeroLevels true
          (5 + nextId s) (S (renders s))).
Proof.
  pose proof (clearScene_scene (set_currentStyle "shaders" s)) as Hsc.
  unfold Controller.onStyleChange, Controller.createVisualizer,
    Controller.prepareScene.
  destruct (clearScene_fields (set_currentStyle "shaders" s)) as [sc E].
  rewrite E in Hsc |- *. cbn [scene] in Hsc. subst sc.
  destruct s as [sc0 bg cam oc bs ps ts gp cl sf pm st orb sp sm stime ada
                 lv rh nid rn].
  vm_compute. reflexivity.
Qed.

(** X25. Entering the Shaders style.  A change event to "shaders"
    without a failure, from any state, runs both listeners, and each
    builds the style anew.  It ends with the orthographic camera
    [(-1, 1, 1, -1, 0, 1)] as [this.camera], the shader plane in the
    scene and the material in place, a 128-byte array to read the
    spectrum into, zero time and smoothed levels, and two renders.
    The default perspective camera is built anew on entry (the branch
    meant for leaving Shaders runs there): the orbit controls are bound
    to that camera, [originalCamera] is a clone of it, not of the
    camera the user had, and neither is the camera that renders. *)
Theorem entering_shaders (s : Visualizer) :
  exists (s' : Visualizer) (plane : Object3D) (oc : Camera),
    dispatchChange "shaders" None None None None s = Done s' /\
    camera s' = mkCamera (9 + nextId s)
                         (OrthographicCamera (-1) 1 1 (-1) 0 1)
                         origin origin /\
    originalCamera s' = Some oc /\
    camId oc = (6 + nextId s)%nat /\
    camProjection oc = defaultProjection innerWidth innerHeight /\
    camPosition oc = mkVec 0 10 20 /\
    orbitControls s' = mkOrbit (5 + nextId s) false origin /\
    shaderPlane s' = Some plane /\ objKind plane = ShaderPlane /\
    In plane (scene s') /\
    shaderMaterial s' = Some (7 + nextId s)%nat /\
    audioDataArray s' = Some (repeat x00 128) /\
    smoothed s' = Bands.zeroLevels /\ shaderTime s' = 0 /\
    currentStyle s' = "shaders" /\
    nextId s' = (10 + nextId s)%nat /\
    renders s' = S (S (renders s)).
Proof.
  unfold Controller.dispatchChange.
  rewrite (shaders_listener s). cbn [stateOf].
  rewrite shaders_listener.
  cbn [nextId renders].
  eexists _, _, _. split; [reflexivity|].
  cbn [camera originalCamera orbitControls shaderPlane shaderMaterial
       audioDataArray smoothed shaderTime currentStyle nextId renders
       scene camId camProjection camPosition objKind].
  split; [reflexivity|]. split; [reflexivity|]. split; [reflexivity|].
  split; [reflexivity|]. split; [reflexivity|]. split; [reflexivity|].
  split; [reflexivity|]. split; [reflexivity|].
  split; [apply in_or_app; right; now left|].
  repeat split.
Qed.

(** One listener and a valid identifier: the style fields. *)
Lemma onStyleChange_valid (value : string) (s : Visualizer) :
  validStyle value ->
  exists s',
    onStyleChange value None None s = Done s' /\
    currentStyle s' = value /\
    length (bars s') = (if String.eqb value "bars" then 64 else 0)%nat /\
    length (towers s') = (if String.eqb value "towers" then 800 else 0)%nat
    /\
    present (groundPlane s') = String.eqb value "towers" /\
    present (starfield s') = String.eqb value "towers" /\
    present (pointsMesh s') = String.eqb value "points" /\
    present (shaderPlane s') = String.eqb value "shaders" /\
    present (shaderMaterial s') = String.eqb value "shaders" /\
    particles s' = [] /\ cloudLayers s' = [] /\
    renders s' = S (renders s).
Proof.
  intros Hv.
  unfold Controller.onStyleChange, Controller.createVisualizer,
    Controller.prepareScene.
  destruct Hv as [-> | [-> | [-> | ->]]].
  - destruct (clearScene_fields (set_currentStyle "bars" s)) as [sc ->].
    destruct s as [sc0 bg cam oc bs ps ts gp cl sf pm st orb sp sm stime
                   ada lv rh nid rn].
    eexists. split; [vm_compute; reflexivity|].
    cbn [currentStyle bars towers groundPlane starfield pointsMesh
         shaderPlane shaderMaterial particles cloudLayers renders present].
    repeat split.
  - destruct (clearScene_fields (set_currentStyle "points" s)) as [sc ->].
    destruct s as [sc0 bg cam oc bs ps ts gp cl sf pm st orb sp sm stime
                   ada lv rh nid rn].
    eexists. split; [vm_compute; reflexivity|].
    cbn [currentStyle bars towers groundPlane starfield pointsMesh
         shaderPlane shaderMaterial particles cloudLayers renders present].
    repeat split.
  - destruct (clearScene_fields (set_currentStyle "towers" s)) as [sc ->].
    destruct s as [sc0 bg cam oc bs ps ts gp cl sf pm st orb sp sm stime
                   ada lv rh nid rn].
    eexists. split; [vm_compute; reflexivity|].
    cbn [currentStyle bars towers groundPlane starfield pointsMesh
         shaderPlane shaderMaterial particles cloudLayers renders present].
    repeat split.
  - destruct (clearScene_fields (set_currentStyle "shaders" s)) as [sc ->].
    destruct s as [sc0 bg cam oc bs ps ts gp cl sf pm st orb sp sm stime
                   ada lv rh nid rn].
    eexists. split; [vm_compute; reflexivity|].
    cbn [currentStyle bars towers groundPlane starfield pointsMesh
         shaderPlane shaderMaterial particles cloudLayers renders present].
    repeat split.
Qed.

(** The scene as [createVisualizer] prepares it for a style other
    than the one it takes for the style left. *)
Lemma prepared (value : string) (s : Visualizer) :
  String.eqb value "shaders" = false ->
  prepareScene (set_currentStyle value s)
  = mkVisualizer
      (without (styleObjects s) (scene s)) 0x000005
      (mkCamera (camId (camera s)) (camProjection (camera s))
                (mkVec 0 10 20) origin)
      (originalCamera s) [] [] [] None [] None None value
      (mkOrbit (orbObject (orbitControls s)) false origin) None None 0
      (audioDataArray s) Bands.zeroLevels (resizeHandler s) (nextId s)
      (renders s).
Proof.
  intros Hne.
  pose proof (clearScene_scene (set_currentStyle value s)) as Hsc.
  unfold Controller.prepareScene.
  destruct (clearScene_fields (set_currentStyle value s)) as [sc E].
  rewrite E in Hsc |- *. cbn [scene] in Hsc. subst sc.
  destruct s as [sc0 bg cam oc bs ps ts gp cl sf pm st orb sp sm stime ada
                 lv rh nid rn].
  cbn [set_currentStyle currentStyle]. rewrite Hne. reflexivity.
Qed.

(** One listener and a valid identifier: the scene.  The children
    that no style field held stay, in their order, and the objects the
    constructor makes follow: the objects of the style, and for the
    Points style two lights. *)
Lemma listener_scene (value : string) (s : Visualizer) :
  validStyle value ->
  exists (s' : Visualizer) (created : list Object3D),
    onStyleChange value None None s = Done s' /\
    scene s' = (without (styleObjects s) (scene s) ++ created)%list /\
    (forall o, In o created ->
               isLight o = true \/ In o (styleObjects s')) /\
    (forall o, In o (styleObjects s') -> In o created).
Proof.
  intros [-> | [-> | [-> | ->]]].
  - unfold Controller.onStyleChange, Controller.createVisualizer.
    rewrite prepared by reflexivity.
    unfold buildStyle. cbn [currentStyle].
    change (String.eqb "bars" "bars") with true. cbv iota.
    unfold createBars, createBarsSteps. rewrite runSteps_none.
    match goal with
    | |- context [fold_left _ (map barStep ?l) ?x] =>
        destruct (barSteps_made l x) as [made ->]
    end.
    unfold set_renders.
    cbn [scene background camera originalCamera bars particles towers
         groundPlane cloudLayers starfield pointsMesh currentStyle
         orbitControls shaderPlane shaderMaterial shaderTime
         audioDataArray smoothed resizeHandler nextId renders app].
    eexists _, made. split; [reflexivity|].
    unfold styleObjects, option_list.
    cbn [scene bars particles towers groundPlane cloudLayers starfield
         pointsMesh shaderPlane option_rect app].
    rewrite ?app_nil_r.
    split; [reflexivity|]. split; [intros o H; now right | auto].
  - unfold Controller.onStyleChange, Controller.createVisualizer.
    rewrite prepared by reflexivity.
    set (rest := without (styleObjects s) (scene s)).
    destruct s as [sc0 bg cam oc bs ps ts gp cl sf pm st orb sp sm stime
                   ada lv rh nid rn].
    cbn [camera originalCamera orbitControls audioDataArray resizeHandler
         nextId renders].
    clearbody rest.
    eexists _, [mkObject nid PointsMesh (mkVec 0 0 0);
                mkObject (S nid) AmbientLight (mkVec 0 0 0);
                mkObject (S (S nid)) DirectionalLight (mkVec 1 1 1)].
    split; [cbv -[app]; reflexivity|].
    unfold styleObjects, option_list.
    cbn [scene bars particles towers groundPlane cloudLayers starfield
         pointsMesh shaderPlane option_rect app].
    split; [now rewrite <- (app_assoc rest), <- (app_assoc rest)|].
    split.
    + intros o [<- | [<- | [<- | []]]];
        [right; now left | now left | now left].
    + intros o [<- | []]. now left.
  - unfold Controller.onStyleChange, Controller.createVisualizer.
    rewrite prepared by reflexivity.
    unfold buildStyle. cbn [currentStyle].
    change (String.eqb "towers" "bars") with false.
    change (String.eqb "towers" "points") with false.
    change (String.eqb "towers" "towers") with true. cbv iota.
    unfold createTowersVisualizer, createTowersSteps.
    rewrite runSteps_none.
    rewrite (fold_left_app (fun (s : Visualizer) f => f s)).
    rewrite (fold_left_app (fun (s : Visualizer) f => f s)).
    set (rest := without (styleObjects s) (scene s)).
    destruct s as [sc0 bg cam oc bs ps ts gp cl sf pm st orb sp sm stime
                   ada lv rh nid rn].
    cbn [camera originalCamera orbitControls audioDataArray resizeHandler
         nextId renders].
    clearbody rest.
    set (plane := mkObject nid GroundPlane (mkVec 0 (- 0.1 / 2) 0)).
    set (stars := mkObject (S nid) Starfield origin).
    match goal with
    | |- context [fold_left ?F (?a :: ?b :: ?c :: ?d :: ?e :: nil) ?r] =>
        change (fold_left F (a :: b :: c :: d :: e :: nil) r)
          with (mkVisualizer
                  ((rest ++ [plane]) ++ [stars])%list 0
                  (mkCamera (camId cam) (camProjection cam)
                            (mkVec 0 10 20) origin)
                  oc [] [] [] (Some plane) [] (Some stars) None "towers"
                  (mkOrbit (orbObject orb) false origin) None None 0
                  ada Bands.zeroLevels rh (S (S nid)) rn)
    end.
    match goal with
    | |- context [fold_left _ (map towerStep towerGrid) ?x] =>
        destruct (towerSteps_made towerGrid x) as [made ->]
    end.
    cbv [fold_left cameraLookAt cameraPositionSet set_camera set_renders
         scene background camera originalCamera bars particles towers
         groundPlane cloudLayers starfield pointsMesh currentStyle
         orbitControls shaderPlane shaderMaterial shaderTime
         audioDataArray smoothed resizeHandler nextId renders
         camId camProjection camPosition camLookAt].
    eexists _, (plane :: stars :: made). split; [reflexivity|].
    unfold styleObjects, option_list.
    cbn [scene bars particles towers groundPlane cloudLayers starfield
         pointsMesh shaderPlane option_rect app].
    split; [now rewrite <- (app_assoc rest), <- (app_assoc rest)|].
    split.
    + intros o [<- | [<- | H]]; right; rewrite in_app_iff; cbn [In];
        auto.
    + intros o H. rewrite in_app_iff in H. cbn [In] in H.
      destruct H as [H | [<- | [<- | []]]]; cbn [In]; auto.
  - rewrite shaders_listener.
    eexists _, _. split; [reflexivity|].
    unfold styleObjects, option_list.
    cbn [scene bars particles towers groundPlane cloudLayers starfield
         pointsMesh shaderPlane option_rect app].
    split; [reflexivity|].
    split; intros o [<- | []]; [right |]; now left.
Qed.

(** A listener keeps the scene tidy and puts the objects of the style
    into it. *)
Lemma listener_tidy (value : string) (s s' : Visualizer) :
  validStyle value -> tidy s ->
  onStyleChange value None None s = Done s' ->
  tidy s' /\ (forall o, In o (styleObjects s') -> In o (scene s')).
Proof.
  intros Hv Ht E.
  destruct (listener_scene value s Hv) as (s2 & created & E2 & Sc & C1 & C2).
  assert (s2 = s') by congruence. subst s2.
  split.
  - intros o Hin. rewrite Sc in Hin. apply in_app_or in Hin as [Hin | Hin].
    + apply without_In in Hin as [Hin Hh].
      destruct (Ht o Hin) as [L | Hs]; [now left|].
      rewrite (heldIn_In _ _ Hs) in Hh. discriminate.
    + now apply C1.
  - intros o Hin. rewrite Sc. apply in_or_app. right. now apply C2.
Qed.

(** X26. One style at a time.  A change event for one of the four
    valid identifiers without a failure runs both listeners and ends
    with exactly the objects of that style in the style fields: 64 bars
    for "bars", the points mesh for "points", 800 towers with the
    ground plane and the starfield for "towers", the shader plane and
    material for "shaders"; every field of the other styles is empty.
    Every object of the style fields is in the scene, and if every
    child of the scene was a light or an object of a style field
    before, it is so afterwards: the scene holds the objects of the
    one style and, besides them, only lights.  The scene is rendered
    twice, once by each listener. *)
Theorem one_style_at_a_time (value : string) (s : Visualizer) :
  validStyle value -> tidy s ->
  exists s',
    dispatchChange value None None None None s = Done s' /\
    currentStyle s' = value /\
    length (bars s') = (if String.eqb value "bars" then 64 else 0)%nat /\
    length (towers s') = (if String.eqb value "towers" then 800 else 0)%nat
    /\
    present (groundPlane s') = String.eqb value "towers" /\
    present (starfield s') = String.eqb value "towers" /\
    present (pointsMesh s') = String.eqb value "points" /\
    present (shaderPlane s') = String.eqb value "shaders" /\
    present (shaderMaterial s') = String.eqb value "shaders" /\
    particles s' = [] /\ cloudLayers s' = [] /\
    (forall o, In o (styleObjects s') -> In o (scene s')) /\
    tidy s' /\
    renders s' = S (S (renders s)).
Proof.
  intros Hv Ht. unfold Controller.dispatchChange.
  destruct (onStyleChange_valid value s Hv)
    as (s1 & E1 & _ & _ & _ & _ & _ & _ & _ & _ & _ & _ & R1).
  rewrite E1. cbn [stateOf].
  destruct (listener_tidy value s s1 Hv Ht E1) as [T1 _].
  destruct (onStyleChange_valid value s1 Hv)
    as (s2 & E2 & P1 & P2 & P3 & P4 & P5 & P6 & P7 & P8 & P9 & P10 & R2).
  destruct (listener_tidy value s1 s2 Hv T1 E2) as [T2 I2].
  exists s2. rewrite R1 in R2.
  split; [exact E2|]. split; [exact P1|]. split; [exact P2|].
  split; [exact P3|]. split; [exact P4|]. split; [exact P5|].
  split; [exact P6|]. split; [exact P7|]. split; [exact P8|].
  split; [exact P9|]. split; [exact P10|]. split; [exact I2|].
  split; [exact T2 | exact R2].
Qed.



End Window.

Lemma camera_kept_outside_shaders_witness :
  let s := selectStyle 1920 1080 "shaders" (newVisualizer 1920 1080) in
  let s' := stateOf (dispatchChange 1920 1080 "towers" None None None None s) in
  camId (camera s') = camId (camera s) /\
  camProjection (camera s') = camProjection (camera s) /\
  isPerspective (camera s') = isPerspective (camera s).
Proof.
  cbv zeta.
  apply (camera_kept_outside_shaders
           1920 1080 "towers" None None None None
           (selectStyle 1920 1080 "shaders" (newVisualizer 1920 1080))).
  discriminate.
Defined.

Lemma one_style_at_a_time_witness :
  let s := selectStyle 1920 1080 "points" (newVisualizer 1920 1080) in
  (exists s',
      dispatchChange 1920 1080 "towers" None None None None s = Done s' /\
      currentStyle s' = "towers" /\
      length (bars s') = (if String.eqb "towers" "bars" then 64 else 0)%nat /\
      length (towers s')
      = (if String.eqb "towers" "towers" then 800 else 0)%nat /\
      present (groundPlane s') = String.eqb "towers" "towers" /\
      present (starfield s') = String.eqb "towers" "towers" /\
      present (pointsMesh s') = String.eqb "towers" "points" /\
      present (shaderPlane s') = String.eqb "towers" "shaders" /\
      present (shaderMaterial s') = String.eqb "towers" "shaders" /\
      particles s' = [] /\ cloudLayers s' = [] /\
      (forall o, In o (styleObjects s') -> In o (scene s')) /\
      tidy s' /\
      renders s' = S (S (renders s))) /\
  map objKind (scene s)
  = [AmbientLight; DirectionalLight; AmbientLight; DirectionalLight;
     PointsMesh; AmbientLight; DirectionalLight] /\
  length (scene (selectStyle 1920 1080 "towers" s)) = 808%nat.
Proof.
  cbv zeta. split.
  - apply (one_style_at_a_time
             1920 1080 "towers"
             (selectStyle 1920 1080 "points" (newVisualizer 1920 1080))).
    + unfold validStyle. auto.
    + intros o Hin.
      assert (E : scene (selectStyle 1920 1080 "points"
                                     (newVisualizer 1920 1080))
                  = [mkObject 1 AmbientLight (mkVec 0 0 0);
                     mkObject 2 DirectionalLight (mkVec (-100) 50 100);
                     mkObject 132 AmbientLight (mkVec 0 0 0);
                     mkObject 133 DirectionalLight (mkVec 1 1 1);
                     mkObject 134 PointsMesh (mkVec 0 0 0);
                     mkObject 135 AmbientLight (mkVec 0 0 0);
                     mkObject 136 DirectionalLight (mkVec 1 1 1)])
        by (vm_compute; reflexivity).
      rewrite E in Hin.
      destruct Hin as [<- | [<- | [<- | [<- | [<- | [<- | [<- | []]]]]]]];
        try (left; reflexivity).
      right. vm_compute. now left.
  - split; vm_compute; reflexivity.
Defined.

Lemma entering_shaders_example :
  let s := newVisualizer 1920 1080 in
  let s' := selectStyle 1920 1080 "shaders" s in
  nextId s = 131%nat /\ renders s = 3%nat /\
  camId (camera s) = 0%nat /\
  camId (camera s') = 140%nat /\
  orbObject (orbitControls s') = 136%nat /\
  (camId <$> originalCamera s') = Some 137%nat /\
  renders s' = 5%nat.
Proof. cbv zeta. repeat split; vm_compute; reflexivity. Qed.

End StyleFacts.

(** ** Frames of the wave style *)

Module WaveFacts.
Import Bands Beat Particles Wave WaveFrame.
Import BandFacts BeatFacts ParticleFacts IntensityFacts TickFacts.

Local Ltac zdiv := Z.div_mod_to_equations; lia.

Lemma inject_Z_pos (d : Z) : (0 < d)%Z -> 0 < inject_Z d.
Proof. intros H. change 0 with (inject_Z 0). rewrite <- Zlt_Qlt. lia. Qed.

(** A mean [sum / n] over [n] bins is finite, or [NaN] when [n = 0]. *)
Lemma mean_fin_or_nan (x : Q) (d : Z) :
  (0 <= d)%Z -> (d = 0%Z -> x = 0) ->
  div (Fin x) (Fin (inject_Z d)) = NaN \/
  exists q, div (Fin x) (Fin (inject_Z d)) = Fin q.
Proof.
  intros Hd H0. destruct (Z.eq_dec d 0%Z) as [-> | Hne].
  - rewrite (H0 eq_refl). now left.
  - right. unfold div.
    assert (Hq := inject_Z_pos d ltac:(lia)).
    destruct (Qeq_bool (inject_Z d) 0) eqn:E.
    + apply Qeq_bool_eq in E. lra.
    + now eexists.
Qed.

Lemma rawBass_fin_or_nan (data : list byte) :
  rawBass data = NaN \/ exists q, rawBass data = Fin q.
Proof.
  unfold rawBass. rewrite floor_fifth. unfold len.
  apply mean_fin_or_nan; [zdiv|]. now intros ->.
Qed.

Lemma rawTreble_fin_or_nan (data : list byte) :
  rawTreble data = NaN \/ exists q, rawTreble data = Fin q.
Proof.
  unfold rawTreble. rewrite floor_three_fifths. unfold len.
  apply mean_fin_or_nan; [zdiv|].
  intros H. assert (Hn : length data = 0%nat) by zdiv.
  destruct data; [reflexivity | discriminate].
Qed.

Lemma average_fin_or_nan (data : list byte) :
  div (Fin (sumBins data)) (Fin (inject_Z (len data))) = NaN \/
  exists q, div (Fin (sumBins data)) (Fin (inject_Z (len data))) = Fin q.
Proof.
  unfold len. apply mean_fin_or_nan; [lia|].
  intros H. destruct data; [reflexivity | discriminate].
Qed.

Lemma gt_true_fin (a b : jsnum) :
  (a = NaN \/ exists q, a = Fin q) -> JsNum.gt a b = true -> exists q, a = Fin q.
Proof.
  intros [-> | H] Hg; [|exact H].
  unfold JsNum.gt in Hg. destruct b; discriminate.
Qed.

Lemma min_one_fin (q k : Q) : exists x, min (mul (Fin q) (Fin k)) (Fin 1.0) = Fin x.
Proof. cbn [mul min lt]. destruct (Qltb _ _); now eexists. Qed.

Section Frame.

Variable pow : Q -> Q -> Q.
Variable random : nat -> Q.
Variables cos sin : Q -> Q.
Variable PI : Q.
Variable setHSL : Q -> Q -> Q -> vec3.

Local Abbreviation detected := (detected pow).
Local Abbreviation emitNumbers := (emitNumbers random cos sin PI setHSL).
Local Abbreviation primaryEmission :=
  (primaryEmission random cos sin PI setHSL).
Local Abbreviation trebleEmission :=
  (trebleEmission random cos sin PI setHSL).
Local Abbreviation levelEmission :=
  (levelEmission random cos sin PI setHSL).
Local Abbreviation updateWaveVisualizer :=
  (updateWaveVisualizer pow random cos sin PI setHSL).
Local Abbreviation runWave := (runWave pow random cos sin PI setHSL).
Local Abbreviation bursts := (bursts pow random cos sin PI setHSL).

Lemma detectBeats_finite (data : list byte) (delta now : Q)
      (b : beatDetectionVars) :
  intensities_finite b ->
  intensities_finite (detectBeats pow data delta now b).
Proof.
  intros [(x & Hx) (y & Hy)]. unfold detectBeats, intensities_finite.
  cbn [bassBeat trebleBeat]. rewrite Hx, Hy. split.
  - unfold bassBeatFires.
    destruct (JsNum.gt (rawBass data) _) eqn:G; cbn [andb].
    + destruct (gt_true_fin _ _ (rawBass_fin_or_nan data) G) as [q ->].
      destruct (Qltb _ _); [apply min_one_fin | now eexists].
    + now eexists.
  - destruct (JsNum.gt (rawTreble data) _) eqn:G.
    + destruct (gt_true_fin _ _ (rawTreble_fin_or_nan data) G) as [q ->].
      apply min_one_fin.
    + now eexists.
Qed.


Lemma set_time_pool (t : Q) (s : engine) :
  pool_ok s -> pool_ok (set_time t s) /\
               maxParticles (set_time t s) = maxParticles s.
Proof. intros H. split; [exact H | reflexivity]. Qed.

Lemma set_draws_pool (d : nat) (s : engine) :
  pool_ok s -> pool_ok (set_draws d s) /\
               maxParticles (set_draws d s) = maxParticles s.
Proof. intros H. split; [exact H | reflexivity]. Qed.

Lemma emitNumbers_ok (c b t : Q) (s : engine) :
  exists s',
    emitNumbers (Fin c) (Fin b) (Fin t) s = Some s' /\
    (pool_ok s -> pool_ok s' /\ maxParticles s' = maxParticles s).
Proof.
  eexists. split; [reflexivity|]. apply emitParticles_pool_ok.
Qed.

Lemma primaryEmission_ok (s : engine) (b : beatDetectionVars) :
  intensities_finite b ->
  exists s',
    primaryEmission (s, b) =
      Some (s', if primaryBurst b then set_emitCooldown 0.1 b else b) /\
    (pool_ok s -> pool_ok s' /\ maxParticles s' = maxParticles s) /\
    (primaryBurst b = false -> s' = s).
Proof.
  intros [(x & Hx) (y & Hy)]. unfold WaveFrame.primaryEmission.
  destruct (primaryBurst b).
  - rewrite Hx, Hy. cbn [mul floor].
    destruct (emitNumbers_ok (inject_Z (Qfloor (emissionRate s * x))) x y s)
      as (s' & -> & Hp).
    exists s'. split; [reflexivity|]. split; [exact Hp | discriminate].
  - exists s. split; [reflexivity|]. split; [now split | reflexivity].
Qed.

Lemma trebleEmission_ok (s : engine) (b : beatDetectionVars) :
  intensities_finite b ->
  exists s',
    trebleEmission (s, b) = Some (s', b) /\
    (pool_ok s -> pool_ok s' /\ maxParticles s' = maxParticles s) /\
    (JsNum.gt (trebleBeat b) (Fin 0.5) = false -> s' = s).
Proof.
  intros [(x & Hx) (y & Hy)]. unfold WaveFrame.trebleEmission.
  destruct (JsNum.gt (trebleBeat b) (Fin 0.5)).
  - destruct (JsNum.lt _ _).
    + rewrite Hx, Hy. cbn [mul floor].
      destruct (emitNumbers_ok (inject_Z (Qfloor (3 * y))) (x * 0.4) y
                               (set_draws (S (draws s)) s))
        as (s' & -> & Hp).
      exists s'. split; [reflexivity|]. split; [|discriminate].
      intros Hok. apply Hp. exact Hok.
    + eexists. split; [reflexivity|]. split; [|discriminate].
      apply set_draws_pool.
  - exists s. split; [reflexivity|]. split; [now split | reflexivity].
Qed.

Lemma levelEmission_ok (average : jsnum) (s : engine)
      (b : beatDetectionVars) :
  (average = NaN \/ exists q, average = Fin q) ->
  exists s',
    levelEmission average (s, b) = Some (s', b) /\
    (pool_ok s -> pool_ok s' /\ maxParticles s' = maxParticles s) /\
    (JsNum.lt (Fin (random (draws s))) (mul average (Fin 0.1)) = false ->
     s' = set_draws (S (draws s)) s).
Proof.
  intros Ha. unfold WaveFrame.levelEmission.
  destruct (JsNum.lt _ _) eqn:E.
  - destruct Ha as [-> | [q ->]]; [discriminate|]. cbn [mul floor].
    destruct (emitNumbers_ok (inject_Z (Qfloor (2 * q))) q q
                             (set_draws (S (draws s)) s))
      as (s' & -> & Hp).
    exists s'. split; [reflexivity|]. split; [|discriminate].
    intros Hok. apply Hp. exact Hok.
  - eexists. split; [reflexivity|]. split; [|reflexivity].
    apply set_draws_pool.
Qed.

(** A frame of the wave style on a detector with finite intensities. *)
Lemma frame_ok (t : tick) (w : wave) :
  particleSystem w = true -> intensities_finite (beat w) ->
  exists w',
    updateWaveVisualizer t w = Some w' /\
    particleSystem w' = true /\
    intensities_finite (beat w') /\
    emitCooldown (beat w') =
      (if primaryBurst (detected t w) then 0.1
       else emitCooldown (detected t w)) /\
    (pool_ok (pool w) ->
     pool_ok (pool w') /\
     maxParticles (pool w') = maxParticles (pool w) /\
     particleCount (pool w') = activeCount (particleLifetimes (pool w'))).
Proof.
  intros Hps Hfin. unfold WaveFrame.updateWaveVisualizer.
  rewrite Hps. cbn [negb].
  assert (Hd : intensities_finite (detected t w)).
  { destruct (detectBeats_finite (tickData t) (tickDelta t) (tickTime t)
                                 (beat w) Hfin) as [A B].
    split; [exact A | exact B]. }
  set (s0 := set_time _ _).
  destruct (primaryEmission_ok s0 (detected t w) Hd) as (s1 & -> & P1 & _).
  set (b1 := if primaryBurst (detected t w) then _ else _).
  assert (Hb1 : intensities_finite b1).
  { subst b1. destruct (primaryBurst _); [|exact Hd].
    destruct Hd as [A B]. split; [exact A | exact B]. }
  destruct (trebleEmission_ok s1 b1 Hb1) as (s2 & -> & P2 & _).
  destruct (levelEmission_ok _ s2 b1 (average_fin_or_nan (tickData t)))
    as (s3 & -> & P3 & _).
  eexists. split; [reflexivity|]. cbn [particleSystem beat pool].
  split; [reflexivity|]. split; [exact Hb1|].
  split; [subst b1; now destruct (primaryBurst _)|].
  intros Hok.
  destruct (set_time_pool (Float.double (time (pool w) + tickDelta t))
                          (pool w) Hok)
    as [Q0 M0]. fold s0 in Q0, M0.
  destruct (P1 Q0) as [Q1 M1]. destruct (P2 Q1) as [Q2 M2].
  destruct (P3 Q2) as [Q3 M3].
  destruct (updateParticles_pool_ok setHSL (tickDelta t) s3 Q3)
    as [Q4 M4].
  destruct (updateParticles_effect setHSL (tickDelta t) s3 (proj1 Q3))
    as (_ & E & _).
  split; [exact Q4|]. split; [|exact E]. congruence.
Qed.

(** X28. The frames of the wave style compose.  From any state whose
    pool has [maxParticles] lifetime slots and whose two beat
    intensities are finite (both are 0 at the start), any number of
    frames on any spectra and frame times goes through: every call of
    [emitParticles] gets finite arguments, the pool keeps its shape, the
    intensities stay finite, and after the last frame [particleCount] is
    the number of active slots, at most [maxParticles]. *)
Theorem wave_frames_keep_the_pool (ticks : list tick) (w : wave) :
  particleSystem w = true -> pool_ok (pool w) ->
  intensities_finite (beat w) ->
  exists w',
    runWave ticks w = Some w' /\
    pool_ok (pool w') /\
    maxParticles (pool w') = maxParticles (pool w) /\
    intensities_finite (beat w') /\
    (ticks <> [] ->
     particleCount (pool w') = activeCount (particleLifetimes (pool w'))
     /\ (particleCount (pool w') <= maxParticles (pool w'))%nat).
Proof.
  revert w. induction ticks as [|t rest IH]; intros w Hps Hok Hfin.
  - exists w. cbn [WaveFrame.runWave].
    split; [reflexivity|]. split; [exact Hok|]. split; [reflexivity|].
    split; [exact Hfin|]. intros H. now contradiction H.
  - destruct (frame_ok t w Hps Hfin) as (w1 & E & Hps1 & Hfin1 & _ & Hp).
    destruct (Hp Hok) as (Hok1 & M1 & C1).
    destruct (IH w1 Hps1 Hok1 Hfin1) as (w' & R & Hok' & M' & Hfin' & C').
    exists w'. cbn [WaveFrame.runWave]. rewrite E.
    split; [exact R|]. split; [exact Hok'|]. split; [congruence|].
    split; [exact Hfin'|]. intros _.
    destruct rest as [|t2 rest].
    + cbn [WaveFrame.runWave] in R. injection R as <-.
      split; [exact C1|]. rewrite C1, <- (proj1 Hok1).
      apply activeCount_le_length.
    + apply C'. discriminate.
Qed.








Hypothesis random_nonneg : forall k : nat, 0 <= random k.

Lemma is_zero_fin (a : jsnum) : is_zero a -> exists q, a = Fin q /\ q == 0.
Proof. destruct a; cbn; try tauto. intros H. now eexists. Qed.

Lemma aged_all_inactive (delta : Q) (L : list Q) :
  Forall (fun l => l < 0) L -> map (aged delta) L = L.
Proof.
  induction 1 as [|l rest Hl _ IH]; [reflexivity|].
  cbn [map]. now rewrite IH, aged_inactive.
Qed.

Lemma activeCount_all_inactive (L : list Q) :
  Forall (fun l => l < 0) L -> activeCount L = 0%nat.
Proof.
  unfold activeCount.
  induction 1 as [|l rest Hl _ IH]; [reflexivity|].
  cbn [List.filter]. unfold isActive at 1.
  now rewrite (proj2 (Qltb_lt l 0) Hl).
Qed.

(** A frame on a silent spectrum leaves a wave style at rest at
    rest. *)
Lemma quiet_frame (t : tick) (w : wave) :
  quiet w -> silentTick t ->
  exists w',
    updateWaveVisualizer t w = Some w' /\ quiet w' /\
    particleLifetimes (pool w') = particleLifetimes (pool w) /\
    particleCount (pool w') = 0%nat /\
    primaryBurst (detected t w) = false.
Proof.
  intros (Hps & Hen & Zb & Zt & Hok & Hin) Hs.
  destruct (silent_step pow (beat w) t Hen Hs) as (_ & Hen' & Eb & Et).
  unfold step in Hen', Eb, Et.
  set (b0 := detectBeats pow (tickData t) (tickDelta t) (tickTime t)
                         (beat w)) in *.
  assert (Zb0 : is_zero (bassBeat b0))
    by (rewrite Eb; now apply mul_zero_fin).
  assert (Zt0 : is_zero (trebleBeat b0))
    by (rewrite Et; now apply mul_zero_fin).
  destruct (is_zero_fin _ Zb0) as (x & Hx & Hx0).
  destruct (is_zero_fin _ Zt0) as (y & Hy & Hy0).
  assert (Hd : intensities_finite (detected t w)).
  { split; [exists x | exists y]; assumption. }
  assert (Hp : primaryBurst (detected t w) = false).
  { unfold primaryBurst.
    replace (bassBeat (detected t w)) with (Fin x) by (symmetry; exact Hx).
    cbn [JsNum.gt JsNum.lt].
    replace (Qltb 0.4 x) with false; [reflexivity|].
    symmetry. apply Qltb_ge. lra. }
  assert (Hg : JsNum.gt (trebleBeat (detected t w)) (Fin 0.5) = false).
  { replace (trebleBeat (detected t w)) with (Fin y)
      by (symmetry; exact Hy).
    cbn [JsNum.gt JsNum.lt]. apply Qltb_ge. lra. }
  destruct Hs as [Hn Hsil].
  assert (Za : is_zero (div (Fin (sumBins (tickData t)))
                            (Fin (inject_Z (len (tickData t)))))).
  { apply div_is_zero; [unfold len; lia | now apply sumBins_silent]. }
  destruct (is_zero_fin _ Za) as (a & Ha & Ha0).
  unfold WaveFrame.updateWaveVisualizer. rewrite Hps. cbn [negb].
  set (s0 := set_time _ _).
  destruct (primaryEmission_ok s0 (detected t w) Hd) as (s1 & -> & _ & S1).
  rewrite Hp in *. specialize (S1 eq_refl). subst s1.
  destruct (trebleEmission_ok s0 (detected t w) Hd) as (s2 & -> & _ & S2).
  specialize (S2 Hg). subst s2.
  rewrite Ha.
  destruct (levelEmission_ok (Fin a) s0 (detected t w)
                             (or_intror (ex_intro _ a eq_refl)))
    as (s3 & -> & _ & S3).
  assert (Hl : JsNum.lt (Fin (random (draws s0))) (mul (Fin a) (Fin 0.1))
               = false).
  { cbn [mul JsNum.lt]. apply Qltb_ge.
    assert (R := random_nonneg (draws s0)). lra. }
  specialize (S3 Hl). subst s3.
  eexists. split; [reflexivity|].
  set (s3 := set_draws _ s0).
  assert (Hok3 : pool_ok s3) by exact Hok.
  assert (Hin3 : Forall (fun l => l < 0) (particleLifetimes s3))
    by exact Hin.
  destruct (updateParticles_effect setHSL (tickDelta t) s3 (proj1 Hok3))
    as (EL & EC & _).
  destruct (updateParticles_pool_ok setHSL (tickDelta t) s3 Hok3)
    as [Hok4 _].
  rewrite (aged_all_inactive _ _ Hin3) in EL.
  cbn [pool particleSystem beat].
  assert (Hin4 : Forall (fun l => l < 0)
                        (particleLifetimes
                           (updateParticles setHSL (tickDelta t) s3)))
    by now rewrite EL.
  split.
  - unfold quiet. cbn [pool particleSystem beat].
    split; [reflexivity|]. split; [exact Hen'|].
    split; [exact Zb0|]. split; [exact Zt0|]. split; [exact Hok4|].
    exact Hin4.
  - split; [exact EL|]. split; [|reflexivity].
    rewrite EC. now apply activeCount_all_inactive.
Qed.

(** X30. Silence emits nothing.  With [Math.random] never negative,
    from a wave style at rest (as [createWaveVisualizer] leaves it),
    over any number of frames on silent spectra of at least five bins,
    no particle is ever emitted: every frame goes through, every slot
    stays inactive with its lifetime untouched, no burst on a bass beat
    is emitted, and the style is still at rest. *)
Theorem silence_emits_nothing (ticks : list tick) (w : wave) :
  quiet w -> Forall silentTick ticks ->
  exists w',
    runWave ticks w = Some w' /\ quiet w' /\
    particleLifetimes (pool w') = particleLifetimes (pool w) /\
    Forall (fun e => snd e = false) (bursts ticks w).
Proof.
  intros Hq Ht. revert w Hq.
  induction Ht as [|t rest Hs _ IH]; intros w Hq.
  - exists w. cbn. split; [reflexivity|]. split; [exact Hq|].
    split; [reflexivity | constructor].
  - destruct (quiet_frame t w Hq Hs) as (w1 & E & Hq1 & L1 & _ & Hp).
    destruct (IH w1 Hq1) as (w' & R & Hq' & L' & B).
    exists w'. cbn [WaveFrame.runWave WaveFrame.bursts]. rewrite E.
    split; [exact R|]. split; [exact Hq'|].
    split; [congruence|].
    constructor; [|exact B]. cbn [snd]. rewrite Hp.
    apply andb_false_r.
Qed.

End Frame.

Lemma initialWave_quiet : quiet initialWave.
Proof.
  unfold quiet, initialWave. cbn [particleSystem beat pool].
  split; [reflexivity|]. split.
  { split; [|split].
    - unfold initialBeat. cbn [energyHistory].
      apply List.Forall_forall. intros e He. apply repeat_spec in He.
      subst e. cbn. lra.
    - cbn. lra.
    - cbn. lra. }
  split; [cbn; lra|]. split; [cbn; lra|]. split.
  { split; [reflexivity | cbn; lra]. }
  unfold createWaveVisualizer. cbn [particleLifetimes].
  apply List.Forall_forall. intros l Hl. apply repeat_spec in Hl.
  subst l. lra.
Qed.

Lemma wave_frames_keep_the_pool_witness :
  let pow := fun x _ : Q => x in
  let random := fun _ : nat => 0.5 in
  let cos := fun _ : Q => 1 in
  let sin := fun _ : Q => 0 in
  let setHSL := fun h s l : Q => mkVec h s l in
  let ticks := [mkTick bassSpike 0.016 1; mkTick (repeat x00 128) 0.016 1.016] in
  exists w',
    runWave pow random cos sin 3 setHSL ticks initialWave = Some w' /\
    pool_ok (pool w') /\
    maxParticles (pool w') = maxParticles (pool initialWave) /\
    intensities_finite (beat w') /\
    (ticks <> [] ->
     particleCount (pool w') = activeCount (particleLifetimes (pool w'))
     /\ (particleCount (pool w') <= maxParticles (pool w'))%nat).
Proof.
  cbv zeta.
  apply (wave_frames_keep_the_pool
           (fun x _ : Q => x) (fun _ : nat => 0.5) (fun _ : Q => 1)
           (fun _ : Q => 0) 3 (fun h s l : Q => mkVec h s l)
           [mkTick bassSpike 0.016 1; mkTick (repeat x00 128) 0.016 1.016]
           initialWave).
  - reflexivity.
  - split; [reflexivity | vm_compute; discriminate].
  - split; eexists; reflexivity.
Defined.


Lemma silence_emits_nothing_witness :
  let pow := fun x _ : Q => x in
  let random := fun _ : nat => 0.5 in
  let cos := fun _ : Q => 1 in
  let sin := fun _ : Q => 0 in
  let setHSL := fun h s l : Q => mkVec h s l in
  let ticks := [mkTick (repeat x00 128) 0.016 1;
                mkTick (repeat x00 128) 0.016 1.016] in
  exists w',
    runWave pow random cos sin 3 setHSL ticks initialWave = Some w' /\
    quiet w' /\
    particleLifetimes (pool w') = particleLifetimes (pool initialWave) /\
    Forall (fun e => snd e = false)
           (bursts pow random cos sin 3 setHSL ticks initialWave).
Proof.
  cbv zeta.
  apply (silence_emits_nothing
           (fun x _ : Q => x) (fun _ : nat => 0.5) (fun _ : Q => 1)
           (fun _ : Q => 0) 3 (fun h s l : Q => mkVec h s l)
           (fun _ => ltac:(vm_compute; discriminate) : 0 <= 0.5)
           [mkTick (repeat x00 128) 0.016 1;
            mkTick (repeat x00 128) 0.016 1.016]
           initialWave).
  - exact initialWave_quiet.
  - repeat constructor; simpl; try lia;
      apply List.Forall_forall; intros e He; now apply repeat_spec in He.
Defined.

End WaveFacts.
